(** * The parser driver of the tree-sitter runtime: a shallow embedding

    The development follows [src/runtime/parser.c] (the driver and, in the
    same translation unit, the slab pool of [tree_pool.c]).  C integers
    are values of [Z] with their wrap-around written out, pointers to
    trees are slab slots, and the mutable objects the driver shares (the
    subtrees, the versions of the stack) live in explicit stores. *)

From Stdlib Require Import ZArith Lia Bool List.
From stdpp Require Import base option list gmap.

Local Open Scope Z_scope.

(** ** Machine integers *)

(** [unsigned] and [uint32_t] arithmetic wraps modulo [2^32]. *)
Definition wrap32 (z : Z) : Z := z mod 2 ^ 32.

(** [uint64_t] arithmetic, and the conversion of an [int] to [uint64_t]. *)
Definition wrap64 (z : Z) : Z := z mod 2 ^ 64.

(** The value of a 32-bit pattern read as a (two's complement) [int]. *)
Definition signed32 (z : Z) : Z :=
  let u := wrap32 z in if u <? 2 ^ 31 then u else u - 2 ^ 32.

Definition UINT_MAX : Z := 2 ^ 32 - 1.

Lemma wrap32_small z : 0 <= z < 2 ^ 32 -> wrap32 z = z.
Proof. intros H. unfold wrap32. apply Z.mod_small. exact H. Qed.

Lemma wrap32_pred_succ z : 0 <= z < 2 ^ 32 -> wrap32 (wrap32 (z - 1) + 1) = z.
Proof.
  intros H. unfold wrap32.
  rewrite Zplus_mod_idemp_l.
  replace (z - 1 + 1) with z by lia.
  apply Z.mod_small. exact H.
Qed.

(** ** Lengths and subtrees (data model of [length.h] and [tree.h]) *)

Abbreviation TSSymbol := Z (only parsing).
Abbreviation TSStateId := Z (only parsing).

Record Length : Type := mkLength {
  bytes : Z;
  chars : Z;
  extent_row : Z;
  extent_column : Z
}.

Record TSLexMode : Type := mkLexMode {
  lex_state : Z;
  external_lex_state : Z
}.

(** A pointer to a tree is a slot of a slab of the pool: the slab's block
    of storage and the index of the slot in it. *)
Abbreviation TreePtr := (nat * Z)%type (only parsing).

(** Modelled from the spec: [struct Tree] is declared in [tree.h], which
    is not among the sources; the fields are the attributes of section 3
    of the specification that [parser.c] reads or writes. *)
Record Tree : Type := mkTree {
  symbol : TSSymbol;
  parse_state : TSStateId;
  padding : Length;
  size : Length;
  children : list TreePtr;
  ref_count : Z;
  dynamic_precedence : Z;
  error_cost : Z;
  visible : bool;
  named : bool;
  extra : bool;
  fragile_left : bool;
  fragile_right : bool;
  has_changes : bool;
  has_external_tokens : bool;
  first_leaf_symbol : TSSymbol;
  first_leaf_lex_mode : TSLexMode;
  bytes_scanned : Z;
  external_token_state : list Z
}.

Definition child_count (t : Tree) : Z := Z.of_nat (length (children t)).

(** The memory that holds the subtrees. *)
Abbreviation TreeStore := (gmap TreePtr Tree) (only parsing).

(** ** Comparing two versions of the stack: [parser__compare_versions] *)

Module Versions.

Record ErrorStatus : Type := mkErrorStatus {
  cost : Z;
  push_count : Z;
  is_in_error : bool
}.

Inductive ErrorComparison : Type :=
| ErrorComparisonTakeLeft
| ErrorComparisonPreferLeft
| ErrorComparisonNone
| ErrorComparisonPreferRight
| ErrorComparisonTakeRight.

Definition MAX_VERSION_COUNT : Z := 6.
Definition MAX_SUMMARY_DEPTH : Z := 16.

(** *** The versions of the stack

    Modelled from the spec: [stack.c] is not among the sources, only its
    header.  A version is an index into the array of heads; a head
    records the node it points to and what the accessors of the header
    return for it.  Two versions can be merged when they share their
    head node; [force_merge] gives the links of the second version to the
    first and frees the second index. *)
Record StackHead : Type := mkStackHead {
  head_node : nat;
  head_state : TSStateId;
  head_error_cost : Z;
  head_push_count : Z;
  head_is_halted : bool;
  head_position : Length;
  head_last_external_token : option TreePtr
}.

Abbreviation Stack := (list StackHead) (only parsing).

Abbreviation StackVersion := Z (only parsing).

(** What the accessors answer for an index that is not a version. *)
Definition no_head : StackHead :=
  mkStackHead 0 0 0 0 false (mkLength 0 0 0 0) None.

Definition head_at (self : Stack) (version : StackVersion) : StackHead :=
  default no_head (self !! Z.to_nat version).

(** Modelled from the spec: [ts_stack_version_count] ([stack.c]), the
    number of heads. *)
Definition ts_stack_version_count (self : Stack) : Z := Z.of_nat (length self).

(** Modelled from the spec: [ts_stack_top_state] ([stack.c]). *)
Definition ts_stack_top_state (self : Stack) (version : StackVersion) : TSStateId :=
  head_state (head_at self version).

(** Modelled from the spec: [ts_stack_push_count] ([stack.c]). *)
Definition ts_stack_push_count (self : Stack) (version : StackVersion) : Z :=
  head_push_count (head_at self version).

(** Modelled from the spec: [ts_stack_error_cost] ([stack.c]). *)
Definition ts_stack_error_cost (self : Stack) (version : StackVersion) : Z :=
  head_error_cost (head_at self version).

(** Modelled from the spec: [ts_stack_is_halted] ([stack.c]). *)
Definition ts_stack_is_halted (self : Stack) (version : StackVersion) : bool :=
  head_is_halted (head_at self version).

(** Modelled from the spec: [ts_stack_top_position] ([stack.c]). *)
Definition ts_stack_top_position (self : Stack) (version : StackVersion) : Length :=
  head_position (head_at self version).

(** Modelled from the spec: [ts_stack_last_external_token] ([stack.c]). *)
Definition ts_stack_last_external_token (self : Stack) (version : StackVersion)
    : option TreePtr :=
  head_last_external_token (head_at self version).

(** Modelled from the spec: [ts_stack_can_merge] ([stack.c]) tests that the
    two versions share their head node. *)
Definition ts_stack_can_merge (self : Stack) (version1 version2 : StackVersion) : bool :=
  Nat.eqb (head_node (head_at self version1)) (head_node (head_at self version2)).

(** Modelled from the spec: [ts_stack_remove_version] ([stack.c]) frees the
    index; the versions after it move down by one. *)
Definition ts_stack_remove_version (self : Stack) (version : StackVersion) : Stack :=
  delete (Z.to_nat version) self.

(** Modelled from the spec: [ts_stack_force_merge] ([stack.c]) adds the
    links of [version2] to the head of [version1], which stays as it is
    for the accessors, and frees [version2]. *)
Definition ts_stack_force_merge (self : Stack) (version1 version2 : StackVersion) : Stack :=
  ts_stack_remove_version self version2.

(** Modelled from the spec: [ts_stack_swap_versions] ([stack.c]). *)
Definition ts_stack_swap_versions (self : Stack) (version1 version2 : StackVersion) : Stack :=
  <[Z.to_nat version1 := head_at self version2]>
    (<[Z.to_nat version2 := head_at self version1]> self).

Section WithErrorCosts.

(** [error_costs.h] is not among the sources: its two macros that the
    functions below use are parameters. *)
Variable ERROR_STATE : TSStateId.
Variable ERROR_COST_PER_SKIPPED_TREE : Z.

Definition MAX_COST_DIFFERENCE : Z := wrap32 (16 * ERROR_COST_PER_SKIPPED_TREE).

(** The product the code compares with [MAX_COST_DIFFERENCE], in
    [unsigned] arithmetic: [(loser.cost - winner.cost) * (1 + winner.push_count)]. *)
Definition cost_gap (winner loser : ErrorStatus) : Z :=
  wrap32 (wrap32 (cost loser - cost winner) * wrap32 (1 + push_count winner)).

Definition parser__compare_versions (a b : ErrorStatus) : ErrorComparison :=
  if negb (is_in_error a) && is_in_error b then
    if cost a <? cost b then ErrorComparisonTakeLeft
    else ErrorComparisonPreferLeft
  else if is_in_error a && negb (is_in_error b) then
    if cost b <? cost a then ErrorComparisonTakeRight
    else ErrorComparisonPreferRight
  else if cost a <? cost b then
    if MAX_COST_DIFFERENCE <? cost_gap a b then ErrorComparisonTakeLeft
    else ErrorComparisonPreferLeft
  else if cost b <? cost a then
    if MAX_COST_DIFFERENCE <? cost_gap b a then ErrorComparisonTakeRight
    else ErrorComparisonPreferRight
  else ErrorComparisonNone.

(** The [ErrorStatus] that [parser__condense_stack] builds for a version. *)
Definition version_status (self : Stack) (version : StackVersion) : ErrorStatus :=
  {| cost := ts_stack_error_cost self version;
     push_count := ts_stack_push_count self version;
     is_in_error := ts_stack_top_state self version =? ERROR_STATE |}.

(** *** [parser__condense_stack]

    The inner loop, [for (StackVersion j = 0; j < i; j++)]: one unfolding
    is the test, the body, and [j++].  The loop returns the stack, [i]
    and [made_changes]. *)
Fixpoint condense_pairs (fuel : nat) (stack : Stack) (status_i : ErrorStatus)
    (i j : StackVersion) (made_changes : bool) : option (Stack * StackVersion * bool) :=
  match fuel with
  | O => None
  | S fuel' =>
    if negb (j <? i) then Some (stack, i, made_changes)
    else
      let status_j := version_status stack j in
      let can_merge := ts_stack_can_merge stack j i in
      let '(stack1, i1, j1, made_changes1) :=
        match parser__compare_versions status_j status_i with
        | ErrorComparisonTakeLeft =>
            (ts_stack_remove_version stack i, wrap32 (i - 1), wrap32 (i - 1), true)
        | ErrorComparisonPreferLeft =>
            if can_merge
            then (ts_stack_remove_version stack i, wrap32 (i - 1), wrap32 (i - 1), true)
            else (stack, i, j, made_changes)
        | ErrorComparisonNone =>
            if can_merge
            then (ts_stack_force_merge stack j i, wrap32 (i - 1), wrap32 (i - 1), true)
            else (stack, i, j, made_changes)
        | ErrorComparisonPreferRight =>
            if can_merge
            then (ts_stack_remove_version stack j, wrap32 (i - 1), wrap32 (j - 1), true)
            else (ts_stack_swap_versions stack i j, i, i, true)
        | ErrorComparisonTakeRight =>
            (ts_stack_remove_version stack j, wrap32 (i - 1), wrap32 (j - 1), true)
        end in
      condense_pairs fuel' stack1 status_i i1 (wrap32 (j1 + 1)) made_changes1
  end.

(** The locals of [parser__condense_stack] that outlive its first loop. *)
Record CondenseLocals : Type := mkCondenseLocals {
  made_changes : bool;
  min_error_cost : Z;
  all_versions_have_error : bool
}.

(** The outer loop, [for (StackVersion i = 0; i < ts_stack_version_count
    (self->stack); i++)]. *)
Fixpoint condense_versions (inner_fuel fuel : nat) (stack : Stack)
    (i : StackVersion) (locals : CondenseLocals) : option (Stack * CondenseLocals) :=
  match fuel with
  | O => None
  | S fuel' =>
    if negb (i <? ts_stack_version_count stack) then Some (stack, locals)
    else if ts_stack_is_halted stack i then
      (* remove_version; i--; continue; and then i++ *)
      condense_versions inner_fuel fuel' (ts_stack_remove_version stack i)
        (wrap32 (wrap32 (i - 1) + 1)) locals
    else
      let status_i := version_status stack i in
      let all_err := if negb (is_in_error status_i) then false
                     else all_versions_have_error locals in
      let min_cost := if cost status_i <? min_error_cost locals then cost status_i
                      else min_error_cost locals in
      match condense_pairs inner_fuel stack status_i i 0 (made_changes locals) with
      | None => None
      | Some (stack1, i1, made_changes1) =>
          condense_versions inner_fuel fuel' stack1 (wrap32 (i1 + 1))
            (mkCondenseLocals made_changes1 min_cost all_err)
      end
  end.

(** [while (ts_stack_version_count(self->stack) > MAX_VERSION_COUNT)]. *)
Fixpoint condense_truncate (fuel : nat) (stack : Stack) (made_changes : bool)
    : option (Stack * bool) :=
  match fuel with
  | O => None
  | S fuel' =>
    if MAX_VERSION_COUNT <? ts_stack_version_count stack
    then condense_truncate fuel' (ts_stack_remove_version stack MAX_VERSION_COUNT) true
    else Some (stack, made_changes)
  end.

(** The function: the stack it leaves and the [should_halt] it returns.
    [finished_tree] is [self->finished_tree], [None] for [NULL]. *)
Definition parser__condense_stack (fuel : nat) (stack : Stack)
    (finished_tree : option Tree) : option (Stack * bool) :=
  match condense_versions fuel fuel stack 0 (mkCondenseLocals false UINT_MAX true) with
  | None => None
  | Some (stack1, locals) =>
    match condense_truncate fuel stack1 (made_changes locals) with
    | None => None
    | Some (stack2, _) =>
        Some (stack2,
              (all_versions_have_error locals && (0 <? ts_stack_version_count stack2))
              || match finished_tree with
                 | Some t => error_cost t <? min_error_cost locals
                 | None => false
                 end)
    end
  end.

(** *** [parser__better_version_exists]

    The loop [for (StackVersion i = 0, n = ts_stack_version_count
    (self->stack); i < n; i++)], with [remaining] of its turns left. *)
Fixpoint better_version_from (remaining : nat) (stack : Stack) (version : StackVersion)
    (status : ErrorStatus) (i : StackVersion) : bool :=
  match remaining with
  | O => false
  | S remaining' =>
    if (i =? version) || ts_stack_is_halted stack i
    then better_version_from remaining' stack version status (wrap32 (i + 1))
    else
      match parser__compare_versions status (version_status stack i) with
      | ErrorComparisonTakeRight => true
      | ErrorComparisonPreferRight =>
          if ts_stack_can_merge stack i version then true
          else better_version_from remaining' stack version status (wrap32 (i + 1))
      | _ => better_version_from remaining' stack version status (wrap32 (i + 1))
      end
  end.

Definition parser__better_version_exists (stack : Stack) (finished_tree : option Tree)
    (version : StackVersion) (in_error : bool) (cost : Z) : bool :=
  if match finished_tree with
     | Some t => error_cost t <=? cost
     | None => false
     end
  then true
  else better_version_from (length stack) stack version (mkErrorStatus cost 0 in_error) 0.

(** *** The pruning loop of [parser__recover] (lines 958 to 971)

    The inner loop, [for (unsigned j = 0; j < i; j++)]: the stack and [i]
    when it is left. *)
Fixpoint recover_pairs (fuel : nat) (stack : Stack) (i j : StackVersion)
    : option (Stack * StackVersion) :=
  match fuel with
  | O => None
  | S fuel' =>
    if negb (j <? i) then Some (stack, i)
    else if ts_stack_can_merge stack j i
    then Some (ts_stack_remove_version stack i, wrap32 (i - 1))
    else recover_pairs fuel' stack i (wrap32 (j + 1))
  end.

(** The outer loop, [for (unsigned i = previous_version_count;
    i < ts_stack_version_count(self->stack); i++)]. *)
Fixpoint recover_versions (inner_fuel fuel : nat) (stack : Stack) (i : StackVersion)
    : option Stack :=
  match fuel with
  | O => None
  | S fuel' =>
    if negb (i <? ts_stack_version_count stack) then Some stack
    else if ts_stack_is_halted stack i then
      recover_versions inner_fuel fuel' (ts_stack_remove_version stack i)
        (wrap32 (wrap32 (i - 1) + 1))
    else
      match recover_pairs inner_fuel stack i 0 with
      | None => None
      | Some (stack1, i1) => recover_versions inner_fuel fuel' stack1 (wrap32 (i1 + 1))
      end
  end.

(** The verdict with the two versions in the other order. *)
Definition mirrored (c : ErrorComparison) : ErrorComparison :=
  match c with
  | ErrorComparisonTakeLeft => ErrorComparisonTakeRight
  | ErrorComparisonPreferLeft => ErrorComparisonPreferRight
  | ErrorComparisonNone => ErrorComparisonNone
  | ErrorComparisonPreferRight => ErrorComparisonPreferLeft
  | ErrorComparisonTakeRight => ErrorComparisonTakeLeft
  end.

(** *** What the three loops compute *)

(** The versions that are not halted. *)
Definition live_versions (stack : Stack) : list StackHead :=
  List.filter (fun h => negb (head_is_halted h)) stack.

Definition head_in_error (h : StackHead) : bool := head_state h =? ERROR_STATE.

Definition all_in_error (heads : list StackHead) : bool :=
  forallb head_in_error heads.

(** The least error cost of [heads], and [bound] if none is below it. *)
Definition least_cost (bound : Z) (heads : list StackHead) : Z :=
  fold_right (fun h m => Z.min (head_error_cost h) m) bound heads.

(** **** Lists as arrays of versions *)

Lemma head_at_lookup (stack : Stack) (i : nat) h :
  stack !! i = Some h -> head_at stack (Z.of_nat i) = h.
Proof. intros H. unfold head_at. rewrite Nat2Z.id, H. reflexivity. Qed.

Lemma drop_lookup_cons (stack : Stack) (i : nat) :
  (i < length stack)%nat ->
  drop i stack = head_at stack (Z.of_nat i) :: drop (S i) stack.
Proof.
  intros Hi. destruct (lookup_lt_is_Some_2 stack i Hi) as [h Hh].
  rewrite (head_at_lookup _ _ _ Hh). apply drop_S. exact Hh.
Qed.

Lemma drop_delete_le (stack : Stack) (j k : nat) :
  (j <= k)%nat -> (j < length stack)%nat ->
  drop k (delete j stack) = drop (S k) stack.
Proof.
  intros Hjk Hj. apply list_eq. intros n.
  rewrite !lookup_drop.
  rewrite list_lookup_delete_ge by lia.
  f_equal.
Qed.

Lemma length_delete_lt (stack : Stack) (j : nat) :
  (j < length stack)%nat -> length (delete j stack) = (length stack - 1)%nat.
Proof. intros Hj. apply length_delete. apply lookup_lt_is_Some_2. exact Hj. Qed.

Lemma swap_subseteq (stack : Stack) (i j : nat) :
  (i < length stack)%nat -> (j < length stack)%nat ->
  forall h, h ∈ ts_stack_swap_versions stack (Z.of_nat i) (Z.of_nat j) -> h ∈ stack.
Proof.
  intros Hi Hj h Hin. unfold ts_stack_swap_versions in Hin.
  rewrite !Nat2Z.id in Hin.
  destruct (lookup_lt_is_Some_2 stack i Hi) as [hi Hhi].
  destruct (lookup_lt_is_Some_2 stack j Hj) as [hj Hhj].
  rewrite (head_at_lookup _ _ _ Hhi), (head_at_lookup _ _ _ Hhj) in Hin.
  apply list_elem_of_lookup in Hin. destruct Hin as [n Hn].
  destruct (decide (n = i)) as [->|Hni].
  - rewrite list_lookup_insert_eq in Hn by (rewrite length_insert; lia).
    inversion Hn; subst. apply list_elem_of_lookup. eauto.
  - rewrite list_lookup_insert_ne in Hn by congruence.
    destruct (decide (n = j)) as [->|Hnj].
    + rewrite list_lookup_insert_eq in Hn by lia.
      inversion Hn; subst. apply list_elem_of_lookup. eauto.
    + rewrite list_lookup_insert_ne in Hn by congruence.
      apply list_elem_of_lookup. eauto.
Qed.

(** **** The inner loop

    It terminates within [i + 1 - j] tests; it leaves the versions after
    [i] where they are, and [i] on the version it pointed to or, when that
    version went away, on the version before. *)
Definition pairs_left (stack : Stack) (i : Z) (stack' : Stack) (i' : Z) : Prop :=
  0 <= i' <= i /\
  i' < Z.of_nat (length stack') /\
  Z.of_nat (length stack') - i' = Z.of_nat (length stack) - i /\
  drop (S (Z.to_nat i')) stack' = drop (S (Z.to_nat i)) stack /\
  (forall h, h ∈ stack' -> h ∈ stack).

Lemma condense_pairs_spec (fuel : nat) :
  forall (stack : Stack) status_i (i j : Z) mc,
    0 <= j <= i + 1 ->
    0 <= i < Z.of_nat (length stack) ->
    Z.of_nat (length stack) < 2 ^ 32 ->
    (Z.to_nat (i + 1 - j) < fuel)%nat ->
    exists stack' i' mc',
      condense_pairs fuel stack status_i i j mc = Some (stack', i', mc') /\
      pairs_left stack i stack' i'.
Proof.
  induction fuel as [|fuel IH]; intros stack status_i i j mc Hj Hi Hlen Hfuel.
  { lia. }
  cbn [condense_pairs].
  destruct (j <? i) eqn:Hji; cbn [negb].
  2:{ apply Z.ltb_ge in Hji. exists stack, i, mc. repeat split; auto; lia. }
  apply Z.ltb_lt in Hji.
  assert (Hwi : wrap32 (i - 1) = i - 1) by (apply wrap32_small; lia).
  assert (Hwj : wrap32 (wrap32 (j - 1) + 1) = j) by (apply wrap32_pred_succ; lia).
  assert (Hwi1 : wrap32 (i - 1 + 1) = i)
    by (replace (i - 1 + 1) with i by lia; apply wrap32_small; lia).
  assert (Hwii : wrap32 (i + 1) = i + 1) by (apply wrap32_small; lia).
  assert (Hwjj : wrap32 (j + 1) = j + 1) by (apply wrap32_small; lia).
  (* the three things the body can do *)
  assert (Hremove_i : forall mc1,
    exists stack' i' mc',
      condense_pairs fuel (ts_stack_remove_version stack i) status_i
        (wrap32 (i - 1)) (wrap32 (wrap32 (i - 1) + 1)) mc1 = Some (stack', i', mc') /\
      pairs_left stack i stack' i').
  { intros mc1. rewrite Hwi, Hwi1.
    assert (Hl : length (ts_stack_remove_version stack i) = (length stack - 1)%nat)
      by (apply length_delete_lt; lia).
    destruct (IH (ts_stack_remove_version stack i) status_i (i - 1) i mc1)
      as (s' & i' & mc' & E & B1 & B2 & B3 & B4 & B5); try lia.
    exists s', i', mc'. rewrite E. repeat split; try lia.
    - rewrite B4. unfold ts_stack_remove_version.
      replace (S (Z.to_nat (i - 1))) with (Z.to_nat i) by lia.
      apply drop_delete_le; lia.
    - intros h Hh. apply (list_elem_of_delete_inv _ (Z.to_nat i)). apply B5, Hh. }
  assert (Hremove_j : forall mc1,
    exists stack' i' mc',
      condense_pairs fuel (ts_stack_remove_version stack j) status_i
        (wrap32 (i - 1)) (wrap32 (wrap32 (j - 1) + 1)) mc1 = Some (stack', i', mc') /\
      pairs_left stack i stack' i').
  { intros mc1. rewrite Hwi, Hwj.
    assert (Hl : length (ts_stack_remove_version stack j) = (length stack - 1)%nat)
      by (apply length_delete_lt; lia).
    destruct (IH (ts_stack_remove_version stack j) status_i (i - 1) j mc1)
      as (s' & i' & mc' & E & B1 & B2 & B3 & B4 & B5); try lia.
    exists s', i', mc'. rewrite E. repeat split; try lia.
    - rewrite B4. unfold ts_stack_remove_version.
      replace (S (Z.to_nat (i - 1))) with (Z.to_nat i) by lia.
      apply drop_delete_le; lia.
    - intros h Hh. apply (list_elem_of_delete_inv _ (Z.to_nat j)). apply B5, Hh. }
  assert (Hnext : forall mc1,
    exists stack' i' mc',
      condense_pairs fuel stack status_i i (wrap32 (j + 1)) mc1 = Some (stack', i', mc') /\
      pairs_left stack i stack' i').
  { intros mc1. rewrite Hwjj. apply IH; lia. }
  assert (Hswap : forall mc1,
    exists stack' i' mc',
      condense_pairs fuel (ts_stack_swap_versions stack i j) status_i i (wrap32 (i + 1)) mc1
        = Some (stack', i', mc') /\
      pairs_left stack i stack' i').
  { intros mc1. rewrite Hwii.
    assert (Hl : length (ts_stack_swap_versions stack i j) = length stack)
      by (unfold ts_stack_swap_versions; rewrite !length_insert; reflexivity).
    destruct (IH (ts_stack_swap_versions stack i j) status_i i (i + 1) mc1)
      as (s' & i' & mc' & E & B1 & B2 & B3 & B4 & B5); try lia.
    exists s', i', mc'. rewrite E. repeat split; try lia.
    - rewrite B4. unfold ts_stack_swap_versions.
      rewrite !drop_insert_lt by lia. reflexivity.
    - intros h Hh. apply B5 in Hh.
      apply (swap_subseteq stack (Z.to_nat i) (Z.to_nat j)); try lia.
      rewrite !Z2Nat.id by lia. exact Hh. }
  unfold ts_stack_force_merge.
  destruct (parser__compare_versions (version_status stack j) status_i);
    destruct (ts_stack_can_merge stack j i); auto.
Qed.

(** **** The outer loop *)

Lemma least_cost_min (c bound : Z) (heads : list StackHead) :
  least_cost (Z.min c bound) heads = Z.min c (least_cost bound heads).
Proof.
  unfold least_cost.
  induction heads as [|h heads IH]; cbn; [reflexivity|].
  rewrite IH. lia.
Qed.

Lemma min_update (c m : Z) : (if c <? m then c else m) = Z.min c m.
Proof. destruct (c <? m) eqn:E; [apply Z.ltb_lt in E | apply Z.ltb_ge in E]; lia. Qed.

Lemma live_versions_cons (h : StackHead) (heads : list StackHead) :
  live_versions (h :: heads) =
  if head_is_halted h then live_versions heads else h :: live_versions heads.
Proof. unfold live_versions. cbn. destruct (head_is_halted h); reflexivity. Qed.

(** The loop terminates within [length stack - i] turns.  Its two
    accumulators are folds over the versions from [i] on that are not
    halted, and it leaves a version in the stack exactly when it met one
    that is not halted. *)
Lemma condense_versions_spec (inner_fuel fuel : nat) :
  forall (stack : Stack) (i : Z) (locals : CondenseLocals),
    0 <= i <= Z.of_nat (length stack) ->
    Z.of_nat (length stack) < 2 ^ 32 ->
    (length stack < inner_fuel)%nat ->
    (length stack - Z.to_nat i < fuel)%nat ->
    exists stack' mc',
      condense_versions inner_fuel fuel stack i locals =
        Some (stack',
              mkCondenseLocals mc'
                (least_cost (min_error_cost locals)
                            (live_versions (drop (Z.to_nat i) stack)))
                (all_versions_have_error locals
                 && all_in_error (live_versions (drop (Z.to_nat i) stack)))) /\
      (length stack' <= length stack)%nat /\
      (0 < Z.of_nat (length stack') <->
       0 < i \/ live_versions (drop (Z.to_nat i) stack) <> []) /\
      (forall h, h ∈ stack' -> h ∈ stack).
Proof.
  induction fuel as [|fuel IH]; intros stack i locals Hi Hlen Hin Hfuel.
  { lia. }
  cbn [condense_versions]. unfold ts_stack_version_count.
  destruct (i <? Z.of_nat (length stack)) eqn:Hlt; cbn [negb].
  2:{ apply Z.ltb_ge in Hlt.
      rewrite drop_ge by lia. cbn.
      exists stack, (made_changes locals).
      rewrite andb_true_r. destruct locals; cbn.
      repeat split; auto; try lia.
      intros [H|H]; [lia | congruence]. }
  apply Z.ltb_lt in Hlt.
  rewrite (drop_lookup_cons stack (Z.to_nat i)) by lia.
  rewrite Z2Nat.id by lia.
  rewrite live_versions_cons.
  unfold ts_stack_is_halted.
  destruct (head_is_halted (head_at stack i)) eqn:Hhalt.
  - (* a halted version is removed; [i] stays *)
    rewrite wrap32_pred_succ by lia.
    assert (Hl : length (ts_stack_remove_version stack i) = (length stack - 1)%nat)
      by (apply length_delete_lt; lia).
    destruct (IH (ts_stack_remove_version stack i) i locals)
      as (s' & mc' & E & B1 & B2 & B3); try lia.
    assert (Hd : drop (Z.to_nat i) (ts_stack_remove_version stack i)
                 = drop (S (Z.to_nat i)) stack)
      by (apply drop_delete_le; lia).
    rewrite Hd in E, B2.
    exists s', mc'. rewrite E. repeat split; try lia; try tauto.
    intros h Hh. apply (list_elem_of_delete_inv _ (Z.to_nat i)). apply B3, Hh.
  - (* a live version is compared with the versions before it *)
    destruct (condense_pairs_spec inner_fuel stack (version_status stack i) i 0
                (made_changes locals))
      as (s1 & i1 & mc1 & E1 & C1 & C2 & C3 & C4 & C5); try lia.
    rewrite E1.
    rewrite (wrap32_small (i1 + 1)) by lia.
    destruct (IH s1 (i1 + 1)
                (mkCondenseLocals mc1
                   (if cost (version_status stack i) <? min_error_cost locals
                    then cost (version_status stack i) else min_error_cost locals)
                   (if negb (is_in_error (version_status stack i)) then false
                    else all_versions_have_error locals)))
      as (s' & mc' & E & B1 & B2 & B3); try lia.
    replace (Z.to_nat (i1 + 1)) with (S (Z.to_nat i1)) in E, B2 by lia.
    rewrite C4 in E, B2.
    exists s', mc'. rewrite E. cbn [min_error_cost all_versions_have_error].
    repeat split; try lia.
    + f_equal. f_equal. f_equal.
      * rewrite min_update, least_cost_min. cbn. reflexivity.
      * cbn. unfold head_in_error, ts_stack_top_state.
        destruct (head_state (head_at stack i) =? ERROR_STATE);
          destruct (all_versions_have_error locals); reflexivity.
    + intros _. right. congruence.
    + intros h Hh. apply C5, B3, Hh.
Qed.

(** **** The truncation *)

Lemma condense_truncate_spec (fuel : nat) :
  forall (stack : Stack) (mc : bool),
    (length stack < fuel)%nat ->
    exists mc', condense_truncate fuel stack mc = Some (take 6 stack, mc').
Proof.
  induction fuel as [|fuel IH]; intros stack mc Hfuel.
  { lia. }
  cbn [condense_truncate]. unfold ts_stack_version_count, MAX_VERSION_COUNT.
  destruct (6 <? Z.of_nat (length stack)) eqn:E.
  - apply Z.ltb_lt in E.
    assert (Hl : length (ts_stack_remove_version stack 6) = (length stack - 1)%nat)
      by (apply length_delete_lt; lia).
    destruct (IH (ts_stack_remove_version stack 6) true) as (mc' & E'); [lia|].
    exists mc'. rewrite E'. f_equal. f_equal.
    unfold ts_stack_remove_version. rewrite delete_take_drop.
    change (Z.to_nat 6) with 6%nat.
    rewrite take_app_le by (rewrite length_take; lia).
    rewrite take_take. reflexivity.
  - apply Z.ltb_ge in E. exists mc. f_equal. f_equal.
    symmetry. apply take_ge. lia.
Qed.

(** **** The whole function *)

Definition some_live (stack : Stack) : bool :=
  match live_versions stack with [] => false | _ :: _ => true end.

(** What [parser__condense_stack] returns, in terms of the stack it was
    given. *)
Lemma condense_stack_result (fuel : nat) (stack : Stack) (finished_tree : option Tree) :
  Z.of_nat (length stack) < 2 ^ 32 ->
  (length stack < fuel)%nat ->
  exists stack',
    parser__condense_stack fuel stack finished_tree =
      Some (stack',
            (all_in_error (live_versions stack) && some_live stack)
            || match finished_tree with
               | Some t => error_cost t <? least_cost UINT_MAX (live_versions stack)
               | None => false
               end) /\
    (length stack' <= 6)%nat /\
    (forall h, h ∈ stack' -> h ∈ stack).
Proof.
  intros Hlen Hfuel. unfold parser__condense_stack.
  destruct (condense_versions_spec fuel fuel stack 0 (mkCondenseLocals false UINT_MAX true))
    as (s1 & mc1 & E1 & B1 & B2 & B3); try lia.
  rewrite E1. cbn [made_changes min_error_cost all_versions_have_error andb].
  change (Z.to_nat 0) with 0%nat in *. rewrite drop_0 in *.
  destruct (condense_truncate_spec fuel s1 mc1) as (mc2 & E2); [lia|].
  rewrite E2.
  exists (take 6 s1). split; [|split].
  - f_equal. f_equal. f_equal. f_equal.
    unfold ts_stack_version_count, some_live.
    rewrite length_take.
    destruct (live_versions stack) as [|h l] eqn:El.
    + assert (length s1 = 0%nat) as ->; [|reflexivity].
      destruct (length s1); [reflexivity|].
      exfalso. destruct B2 as [B2 _].
      destruct B2 as [B2|B2]; [lia | lia | congruence].
    + assert (0 < Z.of_nat (length s1)) by (apply B2; right; congruence).
      apply Z.ltb_lt. lia.
  - rewrite length_take. lia.
  - intros h Hh. apply B3. eapply subseteq_take; eauto.
Qed.

(** **** The versions outside the error state

    Of the versions that have been compared, the first is outside the
    error state as soon as one is: a version outside the error state
    beats every version in it, and is moved before it or removes it. *)

Definition outside_error (stack : Stack) (k : Z) : Prop :=
  head_in_error (head_at stack k) = false.

Definition some_outside_error (stack : Stack) (n : Z) : Prop :=
  exists k, 0 <= k < n /\ outside_error stack k.

(** After version [i] has been compared. *)
Definition first_outside_error (stack : Stack) (i : Z) : Prop :=
  some_outside_error stack (i + 1) -> outside_error stack 0.

(** While version [i], of status [status_i], is compared with version [j]. *)
Definition comparing (stack : Stack) (status_i : ErrorStatus) (i j : Z) : Prop :=
  if j <=? i then
    status_i = version_status stack i /\
    (some_outside_error stack i ->
     outside_error stack 0 \/ (is_in_error status_i = false /\ j = 0)) /\
    (is_in_error status_i = false -> 1 <= j -> outside_error stack 0)
  else first_outside_error stack i.

Lemma head_at_remove_before (stack : Stack) (j k : Z) :
  0 <= k < j -> head_at (ts_stack_remove_version stack j) k = head_at stack k.
Proof.
  intros H. unfold head_at, ts_stack_remove_version.
  rewrite list_lookup_delete_lt by lia. reflexivity.
Qed.

Lemma head_at_remove_after (stack : Stack) (j k : Z) :
  0 <= j <= k -> head_at (ts_stack_remove_version stack j) k = head_at stack (k + 1).
Proof.
  intros H. unfold head_at, ts_stack_remove_version.
  rewrite list_lookup_delete_ge by lia.
  replace (S (Z.to_nat k)) with (Z.to_nat (k + 1)) by lia. reflexivity.
Qed.

Lemma head_at_swap (stack : Stack) (i j k : Z) :
  0 <= i < Z.of_nat (length stack) -> 0 <= j < Z.of_nat (length stack) -> 0 <= k ->
  head_at (ts_stack_swap_versions stack i j) k =
  if k =? i then head_at stack j
  else if k =? j then head_at stack i
  else head_at stack k.
Proof.
  intros Hi Hj Hk. unfold ts_stack_swap_versions.
  unfold head_at at 1.
  destruct (k =? i) eqn:Eki.
  - apply Z.eqb_eq in Eki. subst k.
    rewrite list_lookup_insert_eq by (rewrite length_insert; lia). reflexivity.
  - apply Z.eqb_neq in Eki.
    rewrite list_lookup_insert_ne by lia.
    destruct (k =? j) eqn:Ekj.
    + apply Z.eqb_eq in Ekj. subst k.
      rewrite list_lookup_insert_eq by lia. reflexivity.
    + apply Z.eqb_neq in Ekj.
      rewrite list_lookup_insert_ne by lia. reflexivity.
Qed.

Lemma status_in_error (stack : Stack) (k : Z) :
  is_in_error (version_status stack k) = head_in_error (head_at stack k).
Proof. reflexivity. Qed.

(** A version in the error state never wins against one outside it. *)
Lemma verdict_for_left (a b : ErrorStatus) :
  match parser__compare_versions a b with
  | ErrorComparisonTakeLeft | ErrorComparisonPreferLeft | ErrorComparisonNone =>
      is_in_error b = false -> is_in_error a = false
  | ErrorComparisonPreferRight | ErrorComparisonTakeRight =>
      is_in_error a = false -> is_in_error b = false
  end.
Proof.
  unfold parser__compare_versions.
  destruct (is_in_error a), (is_in_error b); cbn;
    repeat match goal with |- context [if ?c then _ else _] => destruct c end;
    congruence.
Qed.

(** What the inner loop keeps: the first version is outside the error
    state if one of the versions up to [i'] is; a version outside the
    error state is left if there was one; and what holds of all the
    versions up to [i] holds of all the versions up to [i']. *)
Definition pairs_keep (stack : Stack) (i : Z) (stack' : Stack) (i' : Z) : Prop :=
  first_outside_error stack' i' /\
  (some_outside_error stack (i + 1) -> some_outside_error stack' (i' + 1)) /\
  (forall P : StackHead -> Prop,
     (forall k, 0 <= k <= i -> P (head_at stack k)) ->
     forall k, 0 <= k <= i' -> P (head_at stack' k)).

Lemma condense_pairs_errors (fuel : nat) :
  forall (stack : Stack) status_i (i j : Z) mc stack' i' mc',
    0 <= j <= i + 1 ->
    0 <= i < Z.of_nat (length stack) ->
    Z.of_nat (length stack) < 2 ^ 32 ->
    condense_pairs fuel stack status_i i j mc = Some (stack', i', mc') ->
    comparing stack status_i i j ->
    pairs_keep stack i stack' i'.
Proof.
  induction fuel as [|fuel IH];
    intros stack status_i i j mc stack' i' mc' Hj Hi Hlen Hrun Hcmp.
  { discriminate. }
  cbn [condense_pairs] in Hrun.
  destruct (j <? i) eqn:Hji; cbn [negb] in Hrun.
  2:{ apply Z.ltb_ge in Hji. inversion Hrun; subst stack' i' mc'; clear Hrun.
      split; [|split; [tauto | auto]].
      unfold comparing in Hcmp. destruct (j <=? i) eqn:Hle; [|exact Hcmp].
      apply Z.leb_le in Hle. assert (j = i) by lia. subst j.
      destruct Hcmp as (P1 & P2 & P3).
      intros (k & Hk & Hne).
      destruct (Z.eq_dec k i) as [->|Hki].
      - destruct (Z.eq_dec i 0) as [->|Hi0]; [exact Hne|].
        apply P3; [|lia]. rewrite P1. exact Hne.
      - destruct P2 as [P2|[_ P2]]; [exists k; split; [lia|exact Hne] | exact P2 | lia]. }
  apply Z.ltb_lt in Hji.
  unfold comparing in Hcmp.
  assert ((j <=? i) = true) as Hle by (apply Z.leb_le; lia).
  rewrite Hle in Hcmp. destruct Hcmp as (P1 & P2 & P3).
  assert (Hwi : wrap32 (i - 1) = i - 1) by (apply wrap32_small; lia).
  assert (Hwj : wrap32 (wrap32 (j - 1) + 1) = j) by (apply wrap32_pred_succ; lia).
  assert (Hwi1 : wrap32 (i - 1 + 1) = i)
    by (replace (i - 1 + 1) with i by lia; apply wrap32_small; lia).
  assert (Hwii : wrap32 (i + 1) = i + 1) by (apply wrap32_small; lia).
  assert (Hwjj : wrap32 (j + 1) = j + 1) by (apply wrap32_small; lia).
  assert (Hsi : is_in_error status_i = false <-> outside_error stack i).
  { rewrite P1. unfold outside_error. rewrite status_in_error. tauto. }
  assert (Hsj : is_in_error (version_status stack j) = false <-> outside_error stack j).
  { unfold outside_error. rewrite status_in_error. tauto. }
  (* version [i] goes: the verdict was for [j], or the two were merged *)
  assert (Hremove_i : forall mc1,
    (is_in_error status_i = false -> outside_error stack j) ->
    condense_pairs fuel (ts_stack_remove_version stack i) status_i
      (wrap32 (i - 1)) (wrap32 (wrap32 (i - 1) + 1)) mc1 = Some (stack', i', mc') ->
    pairs_keep stack i stack' i').
  { intros mc1 G Hrec. rewrite Hwi, Hwi1 in Hrec.
    assert (Hl : length (ts_stack_remove_version stack i) = (length stack - 1)%nat)
      by (apply length_delete_lt; lia).
    assert (Hsome : some_outside_error stack (i + 1) ->
                    some_outside_error (ts_stack_remove_version stack i) (i - 1 + 1)).
    { intros (k & Hk & Hne). destruct (Z.eq_dec k i) as [->|Hki].
      - exists j. split; [lia|]. unfold outside_error.
        rewrite head_at_remove_before by lia. apply G, Hsi, Hne.
      - exists k. split; [lia|]. unfold outside_error.
        rewrite head_at_remove_before by lia. exact Hne. }
    assert (A1 : 0 <= i <= i - 1 + 1) by lia.
    assert (A2 : 0 <= i - 1 < Z.of_nat (length (ts_stack_remove_version stack i))) by lia.
    assert (A3 : Z.of_nat (length (ts_stack_remove_version stack i)) < 2 ^ 32) by lia.
    destruct (IH _ _ _ _ _ _ _ _ A1 A2 A3 Hrec) as (B1 & B2 & B3).
    { unfold comparing.
      assert ((i <=? i - 1) = false) as -> by (apply Z.leb_gt; lia).
      intros (k & Hk & Hne). unfold outside_error in *.
      rewrite head_at_remove_before in Hne by lia.
      rewrite head_at_remove_before by lia.
      destruct P2 as [P2|[P2 ->]]; [exists k; split; [lia|exact Hne] | exact P2 |].
      apply G, P2. }
    split; [exact B1|]. split; [tauto|].
    intros P HP. apply B3. intros k Hk.
    rewrite head_at_remove_before by lia. apply HP. lia. }
  (* version [j] goes: the verdict was for [i] *)
  assert (Hremove_j : forall mc1,
    (outside_error stack j -> is_in_error status_i = false) ->
    condense_pairs fuel (ts_stack_remove_version stack j) status_i
      (wrap32 (i - 1)) (wrap32 (wrap32 (j - 1) + 1)) mc1 = Some (stack', i', mc') ->
    pairs_keep stack i stack' i').
  { intros mc1 G Hrec. rewrite Hwi, Hwj in Hrec.
    assert (Hl : length (ts_stack_remove_version stack j) = (length stack - 1)%nat)
      by (apply length_delete_lt; lia).
    assert (Hat : forall k, 0 <= k ->
              head_at (ts_stack_remove_version stack j) k
              = head_at stack (if k <? j then k else k + 1)).
    { intros k Hk. destruct (k <? j) eqn:E.
      - apply Z.ltb_lt in E. apply head_at_remove_before. lia.
      - apply Z.ltb_ge in E. apply head_at_remove_after. lia. }
    assert (Hsome : some_outside_error stack (i + 1) ->
                    some_outside_error (ts_stack_remove_version stack j) (i - 1 + 1)).
    { intros (k & Hk & Hne). destruct (Z.eq_dec k j) as [->|Hkj].
      - exists (i - 1). split; [lia|]. unfold outside_error.
        rewrite head_at_remove_after by lia.
        replace (i - 1 + 1) with i by lia. apply Hsi, G, Hne.
      - destruct (Z.ltb_spec k j).
        + exists k. split; [lia|]. unfold outside_error.
          rewrite head_at_remove_before by lia. exact Hne.
        + exists (k - 1). split; [lia|]. unfold outside_error.
          rewrite head_at_remove_after by lia.
          replace (k - 1 + 1) with k by lia. exact Hne. }
    assert (A1 : 0 <= j <= i - 1 + 1) by lia.
    assert (A2 : 0 <= i - 1 < Z.of_nat (length (ts_stack_remove_version stack j))) by lia.
    assert (A3 : Z.of_nat (length (ts_stack_remove_version stack j)) < 2 ^ 32) by lia.
    destruct (IH _ _ _ _ _ _ _ _ A1 A2 A3 Hrec) as (B1 & B2 & B3).
    { unfold comparing.
      assert ((j <=? i - 1) = true) as -> by (apply Z.leb_le; lia).
      split; [|split].
      - rewrite P1. unfold version_status, ts_stack_error_cost, ts_stack_push_count,
          ts_stack_top_state.
        rewrite head_at_remove_after by lia.
        replace (i - 1 + 1) with i by lia. reflexivity.
      - intros (k & Hk & Hne). unfold outside_error in Hne |- *.
        rewrite Hat in Hne by lia.
        assert (Hold : some_outside_error stack i).
        { exists (if k <? j then k else k + 1). split; [|exact Hne].
          destruct (k <? j); lia. }
        destruct (Z.eq_dec j 0) as [->|Hj0].
        + right. split; [|reflexivity].
          destruct (P2 Hold) as [H0|[H0 _]]; [apply G, H0 | exact H0].
        + left. rewrite head_at_remove_before by lia.
          destruct (P2 Hold) as [H0|[_ H0]]; [exact H0 | lia].
      - intros Hne Hj1. unfold outside_error.
        rewrite head_at_remove_before by lia. apply P3; assumption. }
    split; [exact B1|]. split; [tauto|].
    intros P HP. apply B3. intros k Hk.
    rewrite Hat by lia. apply HP. destruct (k <? j); lia. }
  (* the two are swapped: the verdict was for [i] *)
  assert (Hswap : forall mc1,
    (outside_error stack j -> is_in_error status_i = false) ->
    condense_pairs fuel (ts_stack_swap_versions stack i j) status_i i (wrap32 (i + 1)) mc1
      = Some (stack', i', mc') ->
    pairs_keep stack i stack' i').
  { intros mc1 G Hrec. rewrite Hwii in Hrec.
    assert (Hl : length (ts_stack_swap_versions stack i j) = length stack)
      by (unfold ts_stack_swap_versions; rewrite !length_insert; reflexivity).
    assert (Hat : forall k, 0 <= k ->
              head_at (ts_stack_swap_versions stack i j) k
              = head_at stack (if k =? i then j else if k =? j then i else k)).
    { intros k Hk. rewrite head_at_swap by lia.
      destruct (k =? i); [reflexivity|]. destruct (k =? j); reflexivity. }
    assert (Hsome : some_outside_error stack (i + 1) ->
                    some_outside_error (ts_stack_swap_versions stack i j) (i + 1)).
    { intros (k & Hk & Hne).
      exists (if k =? i then j else if k =? j then i else k).
      split; [destruct (Z.eqb_spec k i); [lia|]; destruct (Z.eqb_spec k j); lia|].
      unfold outside_error. rewrite Hat by (destruct (k =? i); [lia|]; destruct (k =? j); lia).
      destruct (Z.eqb_spec k i) as [->|Hki].
      - rewrite Z.eqb_refl.
        destruct (Z.eqb_spec j i); [lia|]. exact Hne.
      - destruct (Z.eqb_spec k j) as [->|Hkj].
        + rewrite Z.eqb_refl. exact Hne.
        + destruct (Z.eqb_spec k i); [lia|]. destruct (Z.eqb_spec k j); [lia|]. exact Hne. }
    assert (A1 : 0 <= i + 1 <= i + 1) by lia.
    assert (A2 : 0 <= i < Z.of_nat (length (ts_stack_swap_versions stack i j))) by lia.
    assert (A3 : Z.of_nat (length (ts_stack_swap_versions stack i j)) < 2 ^ 32) by lia.
    destruct (IH _ _ _ _ _ _ _ _ A1 A2 A3 Hrec) as (B1 & B2 & B3).
    { unfold comparing.
      assert ((i + 1 <=? i) = false) as -> by (apply Z.leb_gt; lia).
      intros (k & Hk & Hne). unfold outside_error in Hne |- *.
      rewrite Hat in Hne by lia. rewrite Hat by lia.
      assert (Hold : some_outside_error stack (i + 1)).
      { exists (if k =? i then j else if k =? j then i else k). split; [|exact Hne].
        destruct (Z.eqb_spec k i); [lia|]. destruct (Z.eqb_spec k j); lia. }
      destruct (Z.eqb_spec 0 i) as [E|E]; [lia|].
      assert (Hbefore : outside_error stack i \/ some_outside_error stack i).
      { destruct Hold as (k' & Hk' & Hne').
        destruct (Z.eq_dec k' i) as [->|]; [left; exact Hne'|].
        right. exists k'. split; [lia|exact Hne']. }
      destruct (Z.eqb_spec 0 j) as [E0|E0].
      - (* [i] takes the first place *)
        subst j. apply Hsi.
        destruct Hbefore as [H|H]; [apply Hsi, H|].
        destruct (P2 H) as [H0|[H0 _]]; [apply G, H0 | exact H0].
      - destruct Hbefore as [H|H].
        + apply P3; [apply Hsi, H | lia].
        + destruct (P2 H) as [H0|[_ H0]]; [exact H0 | lia]. }
    split; [exact B1|]. split; [tauto|].
    intros P HP. apply B3. intros k Hk.
    rewrite Hat by lia. apply HP.
    destruct (Z.eqb_spec k i); [lia|]. destruct (Z.eqb_spec k j); lia. }
  (* nothing changes and [j] moves on *)
  assert (Hnext : forall mc1,
    (is_in_error status_i = false -> outside_error stack j) ->
    condense_pairs fuel stack status_i i (wrap32 (j + 1)) mc1 = Some (stack', i', mc') ->
    pairs_keep stack i stack' i').
  { intros mc1 G Hrec. rewrite Hwjj in Hrec.
    assert (A1 : 0 <= j + 1 <= i + 1) by lia.
    apply (IH _ _ _ _ _ _ _ _ A1 Hi Hlen Hrec).
    unfold comparing.
    assert ((j + 1 <=? i) = true) as -> by (apply Z.leb_le; lia).
    split; [exact P1|]. split.
    - intros H. left. destruct (P2 H) as [H0|[H0 ->]]; [exact H0 | apply G, H0].
    - intros Hne _. destruct (Z.eq_dec j 0) as [->|Hj0]; [apply G, Hne|].
      apply P3; [exact Hne | lia]. }
  pose proof (verdict_for_left (version_status stack j) status_i) as Hverdict.
  unfold ts_stack_force_merge in Hrun.
  destruct (parser__compare_versions (version_status stack j) status_i);
    destruct (ts_stack_can_merge stack j i);
    first [ apply (Hremove_i _ ltac:(intros; apply Hsj; tauto) Hrun)
          | apply (Hremove_j _ ltac:(intros; apply Hverdict, Hsj; assumption) Hrun)
          | apply (Hswap _ ltac:(intros; apply Hverdict, Hsj; assumption) Hrun)
          | apply (Hnext _ ltac:(intros; apply Hsj; tauto) Hrun) ].
Qed.

Lemma all_in_error_Forall (heads : list StackHead) :
  all_in_error heads = true <-> Forall (fun h => head_state h = ERROR_STATE) heads.
Proof.
  unfold all_in_error. rewrite forallb_forall, Forall_forall.
  split; intros H h Hh.
  - apply Z.eqb_eq. apply H. apply list_elem_of_In. exact Hh.
  - apply Z.eqb_eq. apply H. apply list_elem_of_In. exact Hh.
Qed.

Lemma below_least_cost (c bound : Z) (heads : list StackHead) :
  c < least_cost bound heads <->
  c < bound /\ Forall (fun h => c < head_error_cost h) heads.
Proof.
  unfold least_cost.
  induction heads as [|h heads IH]; cbn.
  - split; [intros H; split; [exact H|constructor] | tauto].
  - rewrite Forall_cons. split.
    + intros H. assert (c < head_error_cost h) by lia.
      assert (c < foldr (fun h m => Z.min (head_error_cost h) m) bound heads) as H1 by lia.
      apply IH in H1. tauto.
    + intros (Hb & Hh & Hl). assert (c < foldr (fun h m => Z.min (head_error_cost h) m) bound heads)
        by (apply IH; tauto). lia.
Qed.


(** The outer loop keeps, for the versions before [i]: none is halted;
    [all_versions_have_error] is still set exactly when all are in the
    error state; and if one is outside the error state, so is the first. *)
Lemma condense_versions_errors (inner_fuel fuel : nat) :
  forall (stack : Stack) (i : Z) (locals : CondenseLocals) stack' locals',
    0 <= i <= Z.of_nat (length stack) ->
    Z.of_nat (length stack) < 2 ^ 32 ->
    (length stack < inner_fuel)%nat ->
    condense_versions inner_fuel fuel stack i locals = Some (stack', locals') ->
    (some_outside_error stack i -> outside_error stack 0) ->
    (all_versions_have_error locals = false -> some_outside_error stack i) ->
    (all_versions_have_error locals = true ->
     forall k, 0 <= k < i -> head_in_error (head_at stack k) = true) ->
    (forall k, 0 <= k < i -> head_is_halted (head_at stack k) = false) ->
    (all_versions_have_error locals' = false ->
     0 < Z.of_nat (length stack') /\ outside_error stack' 0) /\
    (all_versions_have_error locals' = true ->
     forall k, 0 <= k < Z.of_nat (length stack') ->
               head_in_error (head_at stack' k) = true) /\
    (forall k, 0 <= k < Z.of_nat (length stack') ->
               head_is_halted (head_at stack' k) = false).
Proof.
  induction fuel as [|fuel IH];
    intros stack i locals stack' locals' Hi Hlen Hin Hrun Hfirst Hsome Hall Hlive.
  { discriminate. }
  cbn [condense_versions] in Hrun. unfold ts_stack_version_count in Hrun.
  destruct (i <? Z.of_nat (length stack)) eqn:Hlt; cbn [negb] in Hrun.
  2:{ apply Z.ltb_ge in Hlt. inversion Hrun; subst stack' locals'; clear Hrun.
      assert (i = Z.of_nat (length stack)) by lia. subst i.
      split; [|split; assumption].
      intros Hfalse. pose proof (Hsome Hfalse) as Hs.
      split; [|exact (Hfirst Hs)].
      destruct Hs as (k & Hk & _). lia. }
  apply Z.ltb_lt in Hlt.
  unfold ts_stack_is_halted in Hrun.
  destruct (head_is_halted (head_at stack i)) eqn:Hhalt.
  - rewrite wrap32_pred_succ in Hrun by lia.
    assert (Hl : length (ts_stack_remove_version stack i) = (length stack - 1)%nat)
      by (apply length_delete_lt; lia).
    assert (Hsame : forall k, 0 <= k < i ->
              head_at (ts_stack_remove_version stack i) k = head_at stack k)
      by (intros k Hk; apply head_at_remove_before; lia).
    assert (Hso : some_outside_error (ts_stack_remove_version stack i) i <->
                  some_outside_error stack i).
    { unfold some_outside_error, outside_error.
      split; intros (k & Hk & Hne); exists k; (split; [exact Hk|]).
      - rewrite <- Hsame by lia. exact Hne.
      - rewrite Hsame by lia. exact Hne. }
    assert (A1 : 0 <= i <= Z.of_nat (length (ts_stack_remove_version stack i))) by lia.
    assert (A2 : Z.of_nat (length (ts_stack_remove_version stack i)) < 2 ^ 32) by lia.
    assert (A3 : (length (ts_stack_remove_version stack i) < inner_fuel)%nat) by lia.
    apply (IH _ _ _ _ _ A1 A2 A3 Hrun).
    + intros Hs. apply Hso in Hs. destruct Hs as (k & Hk & Hne).
      unfold outside_error. rewrite Hsame by lia.
      apply Hfirst. exists k. tauto.
    + intros Hf. apply Hso, Hsome, Hf.
    + intros Ht k Hk. rewrite Hsame by lia. apply Hall; assumption.
    + intros k Hk. rewrite Hsame by lia. apply Hlive; assumption.
  - destruct (condense_pairs_spec inner_fuel stack (version_status stack i) i 0
                (made_changes locals))
      as (s1 & i1 & mc1 & E1 & C1 & C2 & C3 & C4 & C5); try lia.
    rewrite E1 in Hrun.
    rewrite (wrap32_small (i1 + 1)) in Hrun by lia.
    assert (A1 : 0 <= 0 <= i + 1) by lia.
    assert (A2 : 0 <= i < Z.of_nat (length stack)) by lia.
    destruct (condense_pairs_errors inner_fuel _ _ _ _ _ _ _ _ A1 A2 Hlen E1)
      as (B1 & B2 & B3).
    { unfold comparing.
      assert ((0 <=? i) = true) as -> by (apply Z.leb_le; lia).
      split; [reflexivity|]. split; [|lia].
      intros Hs. left. exact (Hfirst Hs). }
    assert (Hwiden : some_outside_error stack i -> some_outside_error stack (i + 1)).
    { intros (k & Hk & Hne). exists k. split; [lia|exact Hne]. }
    assert (A3 : 0 <= i1 + 1 <= Z.of_nat (length s1)) by lia.
    assert (A4 : Z.of_nat (length s1) < 2 ^ 32) by lia.
    assert (A5 : (length s1 < inner_fuel)%nat) by lia.
    apply (IH _ _ _ _ _ A3 A4 A5 Hrun); cbn [all_versions_have_error].
    + exact B1.
    + rewrite status_in_error.
      destruct (head_in_error (head_at stack i)) eqn:Herr; cbn [negb].
      * intros Hf. apply B2, Hwiden, Hsome, Hf.
      * intros _. apply B2. exists i. split; [lia|exact Herr].
    + rewrite status_in_error.
      destruct (head_in_error (head_at stack i)) eqn:Herr; cbn [negb]; [|discriminate].
      intros Ht k Hk.
      apply (B3 (fun h => head_in_error h = true)); [|lia].
      intros k' Hk'. destruct (Z.eq_dec k' i) as [->|]; [exact Herr|].
      apply Hall; [exact Ht | lia].
    + intros k Hk.
      apply (B3 (fun h => head_is_halted h = false)); [|lia].
      intros k' Hk'. destruct (Z.eq_dec k' i) as [->|]; [exact Hhalt|].
      apply Hlive. lia.
Qed.

Lemma Forall_head_at (P : StackHead -> Prop) (stack : Stack) :
  Forall P stack <->
  forall k, 0 <= k < Z.of_nat (length stack) -> P (head_at stack k).
Proof.
  rewrite Forall_lookup. split.
  - intros H k Hk.
    destruct (lookup_lt_is_Some_2 stack (Z.to_nat k)) as [h Hh]; [lia|].
    unfold head_at. rewrite Hh. exact (H _ _ Hh).
  - intros H n h Hh.
    pose proof (lookup_lt_Some _ _ _ Hh) as Hn.
    specialize (H (Z.of_nat n) ltac:(lia)).
    rewrite (head_at_lookup _ _ _ Hh) in H. exact H.
Qed.

Lemma head_at_take (stack : Stack) (n : nat) (k : Z) :
  0 <= k < Z.of_nat n -> head_at (take n stack) k = head_at stack k.
Proof.
  intros Hk. unfold head_at. rewrite lookup_take_lt by lia. reflexivity.
Qed.

(** What [parser__condense_stack] returns, in terms of the stack it
    leaves: no version left is halted, and the first disjunct of
    [should_halt] says that a version is left and that all the versions
    left are in the error state. *)
Lemma condense_stack_remaining (fuel : nat) (stack : Stack) (finished_tree : option Tree) :
  Z.of_nat (length stack) < 2 ^ 32 ->
  (length stack < fuel)%nat ->
  exists stack',
    parser__condense_stack fuel stack finished_tree =
      Some (stack',
            (all_in_error (live_versions stack) && some_live stack)
            || match finished_tree with
               | Some t => error_cost t <? least_cost UINT_MAX (live_versions stack)
               | None => false
               end) /\
    Forall (fun h => head_is_halted h = false) stack' /\
    (all_in_error (live_versions stack) && some_live stack = true <->
     stack' <> [] /\ Forall (fun h => head_state h = ERROR_STATE) stack').
Proof.
  intros Hlen Hfuel.
  destruct (condense_stack_result fuel stack finished_tree Hlen Hfuel)
    as (stack' & E & Hbound & Hsub).
  exists stack'. split; [exact E|].
  unfold parser__condense_stack in E.
  destruct (condense_versions_spec fuel fuel stack 0 (mkCondenseLocals false UINT_MAX true))
    as (s1 & mc1 & E1 & B1 & B2 & B3); try lia.
  rewrite E1 in E. cbn [made_changes min_error_cost all_versions_have_error andb] in E.
  change (Z.to_nat 0) with 0%nat in *. rewrite drop_0 in *.
  destruct (condense_truncate_spec fuel s1 mc1) as (mc2 & E2); [lia|].
  rewrite E2 in E. inversion E as [[Hstack Hhalt]]. clear E Hhalt.
  assert (A0 : 0 <= 0 <= Z.of_nat (length stack)) by lia.
  destruct (condense_versions_errors fuel fuel stack 0 _ _ _ A0 Hlen Hfuel E1)
    as (D1 & D2 & D3); cbn [all_versions_have_error].
  { intros (k & Hk & _). lia. }
  { discriminate. }
  { intros _ k Hk. lia. }
  { intros k Hk. lia. }
  cbn [all_versions_have_error] in D1, D2.
  assert (Hlive : Forall (fun h => head_is_halted h = false) (take 6 s1)).
  { apply Forall_head_at. intros k Hk. rewrite length_take in Hk.
    rewrite head_at_take by lia. apply D3. lia. }
  split; [exact Hlive|].
  assert (Hsome : some_live stack = true <-> take 6 s1 <> []).
  { unfold some_live. destruct (live_versions stack) as [|h l] eqn:El.
    - split; [discriminate|]. intros Hne. exfalso.
      assert (0 < Z.of_nat (length s1)) as Hpos.
      { destruct s1; [contradiction Hne; reflexivity | cbn; lia]. }
      apply B2 in Hpos. destruct Hpos as [Hpos|Hpos]; [lia|congruence].
    - split; [|reflexivity]. intros _.
      assert (0 < Z.of_nat (length s1)) as Hpos by (apply B2; right; congruence).
      destruct s1; [cbn in Hpos; lia | discriminate]. }
  rewrite andb_true_iff, Hsome.
  destruct (all_in_error (live_versions stack)) eqn:Hall.
  - split; [|tauto]. intros [_ Hne]. split; [exact Hne|].
    apply Forall_head_at. intros k Hk. rewrite length_take in Hk.
    rewrite head_at_take by lia.
    apply Z.eqb_eq. apply (D2 eq_refl). lia.
  - split; [intros [H _]; discriminate|].
    intros [Hne Hfor]. exfalso.
    destruct (D1 eq_refl) as [Hpos Hout].
    rewrite Forall_head_at in Hfor.
    specialize (Hfor 0). rewrite length_take in Hfor.
    rewrite head_at_take in Hfor by lia.
    unfold outside_error, head_in_error in Hout.
    rewrite Hfor in Hout by lia. rewrite Z.eqb_refl in Hout. discriminate.
Qed.

(** The product that the code compares with [MAX_COST_DIFFERENCE] is
    the product of the integers reduced modulo 2^32. *)
Lemma cost_gap_mod (winner loser : ErrorStatus) :
  cost_gap winner loser
  = ((cost loser - cost winner) * (1 + push_count winner)) mod 2 ^ 32.
Proof.
  unfold cost_gap, wrap32. symmetry. apply Z.mul_mod. lia.
Qed.

(** C6 (parser__compare_versions), as the code has it.  For all error
    statuses, costs and push counts: when exactly one version is in error
    the verdict favours the other one, Take if its cost is strictly lower
    and Prefer otherwise; when both have the same error status and one
    cost is strictly lower, the verdict is Take for the cheaper version if
    (cost_loser - cost_winner) * (1 + push_count_winner), reduced modulo
    2^32 as the multiplication of two [unsigned] is, exceeds
    MAX_COST_DIFFERENCE, and Prefer otherwise; when both have the same
    error status and the costs are equal it is None. *)
Theorem compare_versions_verdict (a b : ErrorStatus) :
  (is_in_error a = false -> is_in_error b = true ->
   parser__compare_versions a b =
     if cost a <? cost b then ErrorComparisonTakeLeft else ErrorComparisonPreferLeft) /\
  (is_in_error a = true -> is_in_error b = false ->
   parser__compare_versions a b =
     if cost b <? cost a then ErrorComparisonTakeRight else ErrorComparisonPreferRight) /\
  (is_in_error a = is_in_error b -> cost a < cost b ->
   parser__compare_versions a b =
     if MAX_COST_DIFFERENCE <? ((cost b - cost a) * (1 + push_count a)) mod 2 ^ 32
     then ErrorComparisonTakeLeft else ErrorComparisonPreferLeft) /\
  (is_in_error a = is_in_error b -> cost b < cost a ->
   parser__compare_versions a b =
     if MAX_COST_DIFFERENCE <? ((cost a - cost b) * (1 + push_count b)) mod 2 ^ 32
     then ErrorComparisonTakeRight else ErrorComparisonPreferRight) /\
  (is_in_error a = is_in_error b -> cost a = cost b ->
   parser__compare_versions a b = ErrorComparisonNone).
Proof.
  unfold parser__compare_versions. rewrite <- !cost_gap_mod.
  repeat split.
  - intros -> ->. reflexivity.
  - intros -> ->. reflexivity.
  - intros E H. rewrite E.
    destruct (is_in_error b); cbn; apply Z.ltb_lt in H; rewrite H; reflexivity.
  - intros E H. rewrite E.
    assert ((cost a <? cost b) = false) as -> by (apply Z.ltb_ge; lia).
    apply Z.ltb_lt in H. rewrite H.
    destruct (is_in_error b); reflexivity.
  - intros E H. rewrite E, H, Z.ltb_irrefl.
    destruct (is_in_error b); reflexivity.
Qed.

(** When the fields are in the range of [unsigned] and the product does
    not overflow, [cost_gap] is the product of the integers. *)
Lemma cost_gap_exact (winner loser : ErrorStatus) :
  0 <= cost winner <= cost loser ->
  0 <= push_count winner ->
  (cost loser - cost winner) * (1 + push_count winner) < 2 ^ 32 ->
  cost_gap winner loser = (cost loser - cost winner) * (1 + push_count winner).
Proof.
  intros Hc Hp Hprod. unfold cost_gap.
  assert (0 <= (cost loser - cost winner) * (1 + push_count winner)) by nia.
  destruct (Z.eq_dec (cost loser) (cost winner)) as [E|E].
  - rewrite E, Z.sub_diag. unfold wrap32 at 2. rewrite Z.mod_0_l by lia.
    rewrite Z.mul_0_l. reflexivity.
  - assert (1 + push_count winner < 2 ^ 32) by nia.
    assert (cost loser - cost winner < 2 ^ 32) by nia.
    rewrite (wrap32_small (cost loser - cost winner)) by lia.
    rewrite (wrap32_small (1 + push_count winner)) by lia.
    apply wrap32_small. lia.
Qed.

(** C7 (parser__condense_stack).  Whenever [parser__condense_stack]
    returns, which it does, the stack has at most MAX_VERSION_COUNT = 6
    versions. *)
Theorem condense_stack_version_bound (fuel : nat) (stack : Stack)
    (finished_tree : option Tree) :
  Z.of_nat (length stack) < 2 ^ 32 ->
  (length stack < fuel)%nat ->
  exists stack' should_halt,
    parser__condense_stack fuel stack finished_tree = Some (stack', should_halt) /\
    ts_stack_version_count stack' <= MAX_VERSION_COUNT /\
    MAX_VERSION_COUNT = 6.
Proof.
  intros Hlen Hfuel.
  destruct (condense_stack_result fuel stack finished_tree Hlen Hfuel)
    as (stack' & E & Hbound & _).
  eexists _, _. split; [exact E|].
  unfold ts_stack_version_count, MAX_VERSION_COUNT. lia.
Qed.

(** C5 (parser__condense_stack), as the code has it.  [should_halt] is
    true exactly when, after the merging and pruning, a version remains
    and every remaining version is in ERROR_STATE, or a finished tree
    exists whose error cost is strictly below UINT_MAX and below the error
    cost of every version that was live (not halted) on entry, the
    versions that the pass has removed included.  No remaining version is
    halted. *)
Theorem condense_stack_should_halt (fuel : nat) (stack : Stack)
    (finished_tree : option Tree) :
  Z.of_nat (length stack) < 2 ^ 32 ->
  (length stack < fuel)%nat ->
  exists stack' should_halt,
    parser__condense_stack fuel stack finished_tree = Some (stack', should_halt) /\
    Forall (fun h => head_is_halted h = false) stack' /\
    (should_halt = true <->
     ((stack' <> [] /\ Forall (fun h => head_state h = ERROR_STATE) stack')
      \/
      (exists t, finished_tree = Some t /\
                 error_cost t < UINT_MAX /\
                 Forall (fun h => error_cost t < head_error_cost h) (live_versions stack)))).
Proof.
  intros Hlen Hfuel.
  destruct (condense_stack_remaining fuel stack finished_tree Hlen Hfuel)
    as (stack' & E & Hlive & Hfirst).
  eexists _, _. split; [exact E|]. split; [exact Hlive|].
  rewrite orb_true_iff, Hfirst.
  split.
  - intros [H|Hfin]; [left; exact H|].
    right. destruct finished_tree as [t|]; [|discriminate].
    exists t. split; [reflexivity|].
    apply Z.ltb_lt in Hfin. apply below_least_cost in Hfin. exact Hfin.
  - intros [H|(t & -> & Hb & Hl)]; [left; exact H|].
    right. apply Z.ltb_lt. apply below_least_cost. tauto.
Qed.

(** *** The order of the two versions *)

(** X7 (parser__compare_versions).  The verdict does not depend on the
    order of the two versions: comparing b with a gives the verdict of a
    with b with left and right exchanged.  A version is taken outright
    only if its cost is strictly lower, and the verdict is None exactly
    when the two versions have the same cost and are both in error or
    both not. *)
Theorem compare_versions_mirrored (a b : ErrorStatus) :
  parser__compare_versions b a = mirrored (parser__compare_versions a b) /\
  (parser__compare_versions a b = ErrorComparisonTakeLeft -> cost a < cost b) /\
  (parser__compare_versions a b = ErrorComparisonTakeRight -> cost b < cost a) /\
  (parser__compare_versions a b = ErrorComparisonNone <->
   cost a = cost b /\ is_in_error a = is_in_error b).
Proof.
  unfold parser__compare_versions.
  destruct (is_in_error a) eqn:Ea, (is_in_error b) eqn:Eb; cbn [negb andb];
    destruct (cost a <? cost b) eqn:L, (cost b <? cost a) eqn:G;
    try (apply Z.ltb_lt in L; apply Z.ltb_lt in G; lia);
    try destruct (MAX_COST_DIFFERENCE <? cost_gap a b);
    try destruct (MAX_COST_DIFFERENCE <? cost_gap b a);
    rewrite ?Z.ltb_lt, ?Z.ltb_ge in *;
    repeat split; try reflexivity; try discriminate; try lia;
    try (intros _; split; [lia|reflexivity]);
    try (intros [H1 H2]; first [discriminate H2 | lia | reflexivity]).
Qed.

(** *** The versions that are better than a candidate *)

(** The versions that beat a candidate of status [status] at [version]. *)
Definition beats (stack : Stack) (version : StackVersion) (status : ErrorStatus)
    (i : StackVersion) : Prop :=
  i <> version /\
  ts_stack_is_halted stack i = false /\
  (parser__compare_versions status (version_status stack i) = ErrorComparisonTakeRight \/
   (parser__compare_versions status (version_status stack i) = ErrorComparisonPreferRight /\
    ts_stack_can_merge stack i version = true)).

Lemma better_version_from_spec (remaining : nat) :
  forall (stack : Stack) version status (i : Z),
    0 <= i -> i + Z.of_nat remaining < 2 ^ 32 ->
    (better_version_from remaining stack version status i = true <->
     exists k, i <= k < i + Z.of_nat remaining /\ beats stack version status k).
Proof.
  induction remaining as [|n IH]; intros stack version status i Hi Hn.
  - cbn. split; [discriminate|]. intros (k & Hk & _). lia.
  - cbn [better_version_from].
    assert (W : wrap32 (i + 1) = i + 1) by (apply wrap32_small; lia).
    rewrite W.
    assert (Hrest :
      better_version_from n stack version status (i + 1) = true <->
      exists k, i + 1 <= k < i + Z.of_nat (S n) /\ beats stack version status k).
    { rewrite IH by lia. split; intros (k & Hk & B); exists k; (split; [lia|exact B]). }
    assert (Hsplit : forall P : Prop,
      (~ beats stack version status i) ->
      (P <-> exists k, i + 1 <= k < i + Z.of_nat (S n) /\ beats stack version status k) ->
      (P <-> exists k, i <= k < i + Z.of_nat (S n) /\ beats stack version status k)).
    { intros P Hno HP. rewrite HP. split; intros (k & Hk & B).
      - exists k. split; [lia|exact B].
      - exists k. split; [|exact B].
        destruct (Z.eq_dec k i) as [->|N]; [contradiction|lia]. }
    destruct (i =? version) eqn:Ev; cbn [orb].
    { apply Hsplit; [|exact Hrest]. apply Z.eqb_eq in Ev. intros (N & _). contradiction. }
    destruct (ts_stack_is_halted stack i) eqn:Eh.
    { apply Hsplit; [|exact Hrest]. intros (_ & H & _). congruence. }
    apply Z.eqb_neq in Ev.
    destruct (parser__compare_versions status (version_status stack i)) eqn:Ec;
      try (apply Hsplit; [|exact Hrest]; intros (_ & _ & [H|[H _]]); congruence).
    + destruct (ts_stack_can_merge stack i version) eqn:Em.
      * split; [|reflexivity]. intros _. exists i. split; [lia|].
        split; [exact Ev|]. split; [exact Eh|]. right. split; [exact Ec|exact Em].
      * apply Hsplit; [|exact Hrest]. intros (_ & _ & [H|[_ H]]); congruence.
    + split; [|reflexivity]. intros _. exists i. split; [lia|].
      split; [exact Ev|]. split; [exact Eh|]. left. exact Ec.
Qed.

(** X8 (parser__better_version_exists).  With the versions of the stack
    as the array of its heads, fewer than 2^32 of them: the function
    answers true exactly when the finished tree has an error cost of at
    most [cost], or some version other than [version] that is not halted
    gets, against the status ([cost], push count 0, [in_error]), the
    verdict TakeRight, or the verdict PreferRight while it can be merged
    with [version]. *)
Theorem better_version_exists_iff (stack : Stack) (finished_tree : option Tree)
    (version : StackVersion) (in_error : bool) (cost : Z) :
  Z.of_nat (length stack) < 2 ^ 32 ->
  (parser__better_version_exists stack finished_tree version in_error cost = true <->
   (exists t, finished_tree = Some t /\ error_cost t <= cost) \/
   (exists i, 0 <= i < ts_stack_version_count stack /\
      i <> version /\
      ts_stack_is_halted stack i = false /\
      let verdict :=
        parser__compare_versions (mkErrorStatus cost 0 in_error) (version_status stack i) in
      (verdict = ErrorComparisonTakeRight \/
       (verdict = ErrorComparisonPreferRight /\ ts_stack_can_merge stack i version = true)))).
Proof.
  intros Hlen. unfold parser__better_version_exists.
  pose proof (better_version_from_spec (length stack) stack version
                (mkErrorStatus cost 0 in_error) 0) as L.
  destruct finished_tree as [t|].
  - destruct (error_cost t <=? cost) eqn:E.
    + split; [|reflexivity]. intros _. left. exists t. split; [reflexivity|]. apply Z.leb_le, E.
    + rewrite L by lia. apply Z.leb_gt in E. split.
      * intros (k & Hk & B). right. exists k. split; [unfold ts_stack_version_count; lia|exact B].
      * intros [(t' & Ht & Hc)|(k & Hk & B)].
        -- injection Ht as <-. lia.
        -- exists k. split; [unfold ts_stack_version_count in Hk; lia|exact B].
  - rewrite L by lia. split.
    + intros (k & Hk & B). right. exists k. split; [unfold ts_stack_version_count; lia|exact B].
    + intros [(t' & Ht & _)|(k & Hk & B)]; [discriminate|].
      exists k. split; [unfold ts_stack_version_count in Hk; lia|exact B].
Qed.


(** X17 (parser__better_version_exists, parser__compare_versions).
    With the versions of the stack as the array of its heads, fewer than
    2^32 of them: a candidate in the error state has a better version as
    soon as another version that is not halted is outside the error state
    at a strictly lower cost; and without a finished tree no version is
    better than [version] when all the others are halted. *)
Theorem better_version_outside_error (stack : Stack) (finished_tree : option Tree)
    (version : StackVersion) (new_cost : Z) :
  Z.of_nat (length stack) < 2 ^ 32 ->
  ((exists i, 0 <= i < ts_stack_version_count stack /\
              i <> version /\
              ts_stack_is_halted stack i = false /\
              ts_stack_top_state stack i <> ERROR_STATE /\
              ts_stack_error_cost stack i < new_cost) ->
   parser__better_version_exists stack finished_tree version true new_cost = true) /\
  (finished_tree = None ->
   (forall i, 0 <= i < ts_stack_version_count stack -> i <> version ->
              ts_stack_is_halted stack i = true) ->
   forall in_error,
     parser__better_version_exists stack finished_tree version in_error new_cost = false).
Proof.
  intros Hlen. unfold parser__better_version_exists, ts_stack_version_count. split.
  - intros (i & Hi & Hv & Hh & Hs & Hc).
    destruct (match finished_tree with
              | Some t => error_cost t <=? new_cost
              | None => false
              end); [reflexivity|].
    apply better_version_from_spec; [lia|lia|].
    exists i. split; [lia|]. split; [exact Hv|]. split; [exact Hh|]. left.
    unfold parser__compare_versions, version_status. cbn [is_in_error cost negb andb].
    apply Z.eqb_neq in Hs. rewrite Hs. cbn [negb andb].
    apply Z.ltb_lt in Hc. rewrite Hc. reflexivity.
  - intros -> Hall in_error.
    destruct (better_version_from (length stack) stack version
                (mkErrorStatus new_cost 0 in_error) 0) eqn:E; [|reflexivity].
    apply better_version_from_spec in E; [|lia|lia].
    destruct E as (k & Hk & Hv & Hh & _).
    rewrite Hall in Hh by (exact Hv || lia). discriminate.
Qed.

(** *** The versions that [parser__condense_stack] leaves *)

(** X9 (parser__condense_stack).  With the versions of the stack as the
    array of its heads: every version that the function leaves was a
    version that was not halted when it was entered; if there was one, at
    least one is left; and if one of them was outside the error state,
    version 0 is outside the error state afterwards. *)
Theorem condense_stack_keeps_a_version (fuel : nat) (stack : Stack)
    (finished_tree : option Tree) :
  Z.of_nat (length stack) < 2 ^ 32 ->
  (length stack < fuel)%nat ->
  exists stack' should_halt,
    parser__condense_stack fuel stack finished_tree = Some (stack', should_halt) /\
    Forall (fun h => h ∈ live_versions stack) stack' /\
    (live_versions stack <> [] -> stack' <> []) /\
    (Exists (fun h => head_state h <> ERROR_STATE) (live_versions stack) ->
     ts_stack_top_state stack' 0 <> ERROR_STATE).
Proof.
  intros Hlen Hfuel.
  destruct (condense_stack_result fuel stack finished_tree Hlen Hfuel)
    as (stack' & E & Hbound & Hsub).
  exists stack'. eexists. split; [exact E|].
  unfold parser__condense_stack in E.
  destruct (condense_versions_spec fuel fuel stack 0 (mkCondenseLocals false UINT_MAX true))
    as (s1 & mc1 & E1 & B1 & B2 & B3); try lia.
  rewrite E1 in E. cbn [made_changes min_error_cost all_versions_have_error andb] in E.
  change (Z.to_nat 0) with 0%nat in *. rewrite drop_0 in *.
  destruct (condense_truncate_spec fuel s1 mc1) as (mc2 & E2); [lia|].
  rewrite E2 in E. inversion E as [[Hstack Hhalt]]. clear E Hhalt. subst stack'.
  assert (A0 : 0 <= 0 <= Z.of_nat (length stack)) by lia.
  destruct (condense_versions_errors fuel fuel stack 0 _ _ _ A0 Hlen Hfuel E1)
    as (D1 & D2 & D3); cbn [all_versions_have_error].
  { intros (k & Hk & _). lia. }
  { discriminate. }
  { intros _ k Hk. lia. }
  { intros k Hk. lia. }
  cbn [all_versions_have_error] in D1, D2.
  assert (Hlive : Forall (fun h => head_is_halted h = false) (take 6 s1)).
  { apply Forall_head_at. intros k Hk. rewrite length_take in Hk.
    rewrite head_at_take by lia. apply D3. lia. }
  split; [|split].
  - apply Forall_forall. intros h Hh.
    unfold live_versions. apply list_elem_of_In, filter_In. split.
    + apply list_elem_of_In, Hsub, Hh.
    + rewrite Forall_forall in Hlive. rewrite (Hlive h Hh). reflexivity.
  - intros Hne.
    assert (0 < Z.of_nat (length s1)) as Hpos by (apply B2; right; exact Hne).
    destruct s1; [cbn in Hpos; lia|discriminate].
  - intros Hex.
    assert (Hall : all_in_error (live_versions stack) = false).
    { destruct (all_in_error (live_versions stack)) eqn:A; [|reflexivity].
      apply all_in_error_Forall in A. apply Exists_exists in Hex.
      destruct Hex as (h & Hin & Hne). rewrite Forall_forall in A.
      contradiction (Hne (A h Hin)). }
    destruct (D1 Hall) as [Hpos Hout].
    unfold ts_stack_top_state. rewrite head_at_take by lia.
    unfold outside_error, head_in_error in Hout.
    apply Z.eqb_neq. exact Hout.
Qed.


(** *** The versions that the loop of [parser__recover] leaves *)

(** The versions from [p] up to [i] have been pruned: none is halted and
    none can be merged with a version before it. *)
Definition pruned (p : Z) (stack : Stack) (i : Z) : Prop :=
  forall k, p <= k < i ->
    ts_stack_is_halted stack k = false /\
    forall j, 0 <= j < k -> ts_stack_can_merge stack j k = false.

Lemma take_delete_le (stack : Stack) (k i : nat) :
  (k <= i)%nat -> take k (delete i stack) = take k stack.
Proof.
  intros H. rewrite delete_take_drop.
  destruct (le_lt_dec k (length stack)) as [L|G].
  - rewrite take_app_le by (rewrite length_take; lia).
    rewrite take_take. f_equal. lia.
  - rewrite (take_ge stack i) by lia. rewrite (drop_ge stack (S i)) by lia.
    rewrite app_nil_r. reflexivity.
Qed.

Lemma pruned_remove (p : Z) (stack : Stack) (i : Z) :
  0 <= p -> pruned p stack i -> pruned p (ts_stack_remove_version stack i) i.
Proof.
  intros Hp H k Hk. destruct (H k Hk) as [Hh Hm].
  unfold ts_stack_is_halted, ts_stack_can_merge in *.
  rewrite head_at_remove_before by lia. split; [exact Hh|].
  intros j Hj. rewrite !head_at_remove_before by lia. apply Hm. exact Hj.
Qed.

Lemma recover_pairs_spec (fuel : nat) :
  forall (stack : Stack) (i j : Z),
    0 <= j <= i -> Z.of_nat (length stack) < 2 ^ 32 -> i < Z.of_nat (length stack) ->
    (Z.to_nat (i - j) < fuel)%nat ->
    (forall k, 0 <= k < j -> ts_stack_can_merge stack k i = false) ->
    (recover_pairs fuel stack i j = Some (stack, i) /\
     forall k, 0 <= k < i -> ts_stack_can_merge stack k i = false) \/
    (recover_pairs fuel stack i j = Some (ts_stack_remove_version stack i, i - 1) /\
     1 <= i).
Proof.
  induction fuel as [|fuel IH]; intros stack i j Hj Hlen Hi Hfuel Hbefore; [lia|].
  cbn [recover_pairs].
  destruct (j <? i) eqn:L; cbn [negb].
  - apply Z.ltb_lt in L.
    destruct (ts_stack_can_merge stack j i) eqn:M.
    + right. rewrite wrap32_small by lia. split; [reflexivity|lia].
    + rewrite wrap32_small by lia. apply IH; try lia.
      intros k Hk. destruct (Z.eq_dec k j) as [->|N]; [exact M|apply Hbefore; lia].
  - apply Z.ltb_ge in L. left. split; [reflexivity|].
    intros k Hk. apply Hbefore. lia.
Qed.

Lemma recover_versions_spec (inner_fuel fuel : nat) (p : Z) :
  forall (stack : Stack) (i : Z),
    0 <= p <= i -> i <= Z.of_nat (length stack) ->
    Z.of_nat (length stack) < 2 ^ 32 ->
    (length stack < inner_fuel)%nat ->
    (length stack - Z.to_nat i < fuel)%nat ->
    pruned p stack i ->
    exists stack',
      recover_versions inner_fuel fuel stack i = Some stack' /\
      take (Z.to_nat i) stack' = take (Z.to_nat i) stack /\
      stack' `sublist_of` stack /\
      pruned p stack' (Z.of_nat (length stack')).
Proof.
  induction fuel as [|fuel IH]; intros stack i Hp Hi Hlen Hin Hfuel Hpruned; [lia|].
  cbn [recover_versions]. unfold ts_stack_version_count.
  destruct (i <? Z.of_nat (length stack)) eqn:L; cbn [negb].
  2:{ apply Z.ltb_ge in L. assert (i = Z.of_nat (length stack)) by lia. subst i.
      exists stack. split; [reflexivity|]. split; [reflexivity|]. split; [reflexivity|].
      exact Hpruned. }
  apply Z.ltb_lt in L.
  assert (Hdel : length (delete (Z.to_nat i) stack) = (length stack - 1)%nat)
    by (apply length_delete_lt; lia).
  destruct (ts_stack_is_halted stack i) eqn:H.
  - rewrite wrap32_pred_succ by lia.
    destruct (IH (ts_stack_remove_version stack i) i) as (stack' & E & T & Sub & P);
      unfold ts_stack_remove_version; rewrite ?Hdel; try lia.
    { apply (pruned_remove p stack i); [lia|exact Hpruned]. }
    exists stack'. split; [exact E|].
    split; [rewrite T; apply take_delete_le; lia|].
    split; [|exact P]. etransitivity; [exact Sub|apply sublist_delete].
  - destruct (recover_pairs_spec inner_fuel stack i 0) as [[E Hno]|[E Hone]];
      try lia; rewrite E.
    + rewrite wrap32_small by lia.
      destruct (IH stack (i + 1)) as (stack' & E' & T & Sub & P); try lia.
      { intros k Hk. destruct (Z.eq_dec k i) as [->|N].
        - split; [exact H|exact Hno].
        - apply Hpruned. lia. }
      exists stack'. split; [exact E'|].
      split; [|split; [exact Sub|exact P]].
      replace (Z.to_nat (i + 1)) with (S (Z.to_nat i)) in T by lia.
      apply (f_equal (take (Z.to_nat i))) in T.
      rewrite !take_take in T. rewrite !Nat.min_l in T by lia. exact T.
    + replace (i - 1 + 1) with i by lia. rewrite wrap32_small by lia.
      destruct (IH (ts_stack_remove_version stack i) i) as (stack' & E' & T & Sub & P);
        unfold ts_stack_remove_version; rewrite ?Hdel; try lia.
      { apply (pruned_remove p stack i); [lia|exact Hpruned]. }
      exists stack'. split; [exact E'|].
      split; [rewrite T; apply take_delete_le; lia|].
      split; [|exact P]. etransitivity; [exact Sub|apply sublist_delete].
Qed.

(** X10 (parser__recover, lines 958 to 971).  With the versions of the
    stack as the array of its heads: the loop that follows the recovery
    leaves the versions below [previous_version_count] as they are,
    removes versions and adds none, and of the versions from
    [previous_version_count] on it leaves none that is halted and none
    that can be merged with a version before it. *)
Theorem recover_prunes_new_versions (fuel : nat) (stack : Stack)
    (previous_version_count : Z) :
  0 <= previous_version_count <= ts_stack_version_count stack ->
  ts_stack_version_count stack < 2 ^ 32 ->
  (length stack < fuel)%nat ->
  exists stack',
    recover_versions fuel fuel stack previous_version_count = Some stack' /\
    take (Z.to_nat previous_version_count) stack'
      = take (Z.to_nat previous_version_count) stack /\
    stack' `sublist_of` stack /\
    forall k, previous_version_count <= k < ts_stack_version_count stack' ->
      ts_stack_is_halted stack' k = false /\
      forall j, 0 <= j < k -> ts_stack_can_merge stack' j k = false.
Proof.
  unfold ts_stack_version_count. intros Hp Hlen Hfuel.
  apply recover_versions_spec; try lia.
  intros k Hk. lia.
Qed.

End WithErrorCosts.

(** *** The functions at work

    The error state is 0 and a skipped tree costs 100, as in the
    runtime's [error_costs.h]. *)

Definition a_finished_tree (cost : Z) : Tree :=
  mkTree 1 0 (mkLength 0 0 0 0) (mkLength 0 0 0 0) [] 1 0 cost
         true true false false false false false 1 (mkLexMode 0 0) 0 [].

(** Seven versions that no two of which share a head: six outside the
    error state at cost 10, then one in the error state at cost 5. *)
Definition a_version (node : nat) (state : TSStateId) (cost : Z) : StackHead :=
  mkStackHead node state cost 0 false (mkLength 0 0 0 0) None.

Definition seven_versions : Stack :=
  [ a_version 0 1 10; a_version 1 1 10; a_version 2 1 10; a_version 3 1 10;
    a_version 4 1 10; a_version 5 1 10; a_version 6 0 5 ].

Lemma compare_versions_verdict_witness :
  parser__compare_versions 100 (mkErrorStatus 0 3 false) (mkErrorStatus 100 0 true)
    = ErrorComparisonTakeLeft /\
  parser__compare_versions 100 (mkErrorStatus 7 3 true) (mkErrorStatus 7 0 false)
    = ErrorComparisonPreferRight /\
  parser__compare_versions 100 (mkErrorStatus 0 16 false) (mkErrorStatus 100 0 false)
    = ErrorComparisonTakeLeft /\
  parser__compare_versions 100 (mkErrorStatus 900 0 true) (mkErrorStatus 100 0 true)
    = ErrorComparisonPreferRight /\
  parser__compare_versions 100 (mkErrorStatus 5 1 true) (mkErrorStatus 5 9 true)
    = ErrorComparisonNone.
Proof.
  split; [|split; [|split; [|split]]].
  - exact (proj1 (compare_versions_verdict 100 (mkErrorStatus 0 3 false)
                    (mkErrorStatus 100 0 true)) eq_refl eq_refl).
  - exact (proj1 (proj2 (compare_versions_verdict 100 (mkErrorStatus 7 3 true)
                    (mkErrorStatus 7 0 false))) eq_refl eq_refl).
  - exact (proj1 (proj2 (proj2 (compare_versions_verdict 100 (mkErrorStatus 0 16 false)
                    (mkErrorStatus 100 0 false)))) eq_refl eq_refl).
  - exact (proj1 (proj2 (proj2 (proj2 (compare_versions_verdict 100
                    (mkErrorStatus 900 0 true) (mkErrorStatus 100 0 true)))))
             eq_refl eq_refl).
  - exact (proj2 (proj2 (proj2 (proj2 (compare_versions_verdict 100
                    (mkErrorStatus 5 1 true) (mkErrorStatus 5 9 true)))))
             eq_refl eq_refl).
Defined.

(** C6, as it is stated, fails.  Two versions outside the error state,
    the first at cost 0 after one push, the second at cost 2^31 after
    none: all four fields are in the range of [unsigned], the first
    version is strictly cheaper, and the product of the claim,
    (2^31 - 0) * (1 + 1) = 2^32, exceeds MAX_COST_DIFFERENCE = 1600; in
    [unsigned] arithmetic the product is 0 and the verdict is Prefer, not
    Take. *)
Lemma compare_versions_verdict_counterexample :
  is_in_error (mkErrorStatus 0 1 false) = is_in_error (mkErrorStatus (2 ^ 31) 0 false) /\
  cost (mkErrorStatus 0 1 false) < cost (mkErrorStatus (2 ^ 31) 0 false) /\
  0 <= cost (mkErrorStatus (2 ^ 31) 0 false) <= UINT_MAX /\
  0 <= push_count (mkErrorStatus 0 1 false) <= UINT_MAX /\
  MAX_COST_DIFFERENCE 100
    < (cost (mkErrorStatus (2 ^ 31) 0 false) - cost (mkErrorStatus 0 1 false))
      * (1 + push_count (mkErrorStatus 0 1 false)) /\
  parser__compare_versions 100 (mkErrorStatus 0 1 false) (mkErrorStatus (2 ^ 31) 0 false)
    = ErrorComparisonPreferLeft.
Proof. vm_compute. repeat split; discriminate. Qed.

Lemma seven_versions_fit : Z.of_nat (length seven_versions) < 2 ^ 32.
Proof. reflexivity. Defined.

Lemma seven_versions_fuel : (length seven_versions < 8)%nat.
Proof. cbn. repeat constructor. Defined.

Lemma condense_stack_version_bound_witness :
  exists stack' should_halt,
    parser__condense_stack 0 100 8 seven_versions None = Some (stack', should_halt) /\
    ts_stack_version_count stack' <= MAX_VERSION_COUNT /\
    MAX_VERSION_COUNT = 6.
Proof.
  exact (condense_stack_version_bound 0 100 8 seven_versions None
           seven_versions_fit seven_versions_fuel).
Defined.

Lemma condense_stack_should_halt_witness :
  exists stack' should_halt,
    parser__condense_stack 0 100 8 seven_versions (Some (a_finished_tree 7))
      = Some (stack', should_halt) /\
    Forall (fun h => head_is_halted h = false) stack' /\
    (should_halt = true <->
     ((stack' <> [] /\ Forall (fun h => head_state h = 0) stack')
      \/
      (exists t, Some (a_finished_tree 7) = Some t /\
                 error_cost t < UINT_MAX /\
                 Forall (fun h => error_cost t < head_error_cost h)
                        (live_versions seven_versions)))).
Proof.
  exact (condense_stack_should_halt 0 100 8 seven_versions (Some (a_finished_tree 7))
           seven_versions_fit seven_versions_fuel).
Defined.

(** C5, as it is stated, fails.  Of [seven_versions] the pass keeps the
    six versions of cost 10 and drops the seventh, whose cost, 5, it has
    already recorded as the least: a finished tree of cost 7 is strictly
    below every version that remains, none of which is halted, and
    [should_halt] is false.  And when no version remains and there is no
    finished tree, every remaining version is in the error state, there
    being none, and [should_halt] is false. *)
Lemma condense_stack_should_halt_counterexample :
  (exists stack',
     parser__condense_stack 0 100 8 seven_versions (Some (a_finished_tree 7))
       = Some (stack', false) /\
     stack' <> [] /\
     Forall (fun h => head_is_halted h = false) stack' /\
     Forall (fun h => error_cost (a_finished_tree 7) < head_error_cost h) stack') /\
  parser__condense_stack 0 100 1 [] None = Some ([], false).
Proof.
  split; [|reflexivity].
  eexists. split; [vm_compute; reflexivity|].
  split; [discriminate|].
  split; repeat constructor.
Qed.

(** Two versions with different head nodes: the first outside the error
    state at cost 3, the second in the error state at cost 5. *)
Definition two_versions : Stack := [a_version 0 1 3; a_version 1 0 5].

Lemma better_version_exists_iff_witness :
  parser__better_version_exists 0 100 two_versions None 1 true 5 = true.
Proof.
  apply (better_version_exists_iff 0 100 two_versions None 1 true 5).
  - reflexivity.
  - right. exists 0.
    split; [unfold ts_stack_version_count, two_versions; cbn; lia|].
    split; [lia|]. split; [reflexivity|]. left. reflexivity.
Defined.

Lemma better_version_outside_error_witness :
  parser__better_version_exists 0 100 two_versions None 1 true 5 = true /\
  parser__better_version_exists 0 100 [a_version 0 1 3] None 0 false 5 = false.
Proof.
  split.
  - apply (proj1 (better_version_outside_error 0 100 two_versions None 1 5 eq_refl)).
    exists 0. split; [unfold ts_stack_version_count, two_versions; cbn; lia|].
    split; [lia|]. split; [reflexivity|]. split; [discriminate|reflexivity].
  - apply (proj2 (better_version_outside_error 0 100 [a_version 0 1 3] None 0 5 eq_refl)
             eq_refl).
    intros i Hi Hne. unfold ts_stack_version_count in Hi. cbn in Hi. lia.
Defined.

Lemma condense_stack_keeps_a_version_witness :
  exists stack' should_halt,
    parser__condense_stack 0 100 8 seven_versions None = Some (stack', should_halt) /\
    Forall (fun h => h ∈ live_versions seven_versions) stack' /\
    (live_versions seven_versions <> [] -> stack' <> []) /\
    (Exists (fun h => head_state h <> 0) (live_versions seven_versions) ->
     ts_stack_top_state stack' 0 <> 0).
Proof.
  exact (condense_stack_keeps_a_version 0 100 8 seven_versions None
           seven_versions_fit seven_versions_fuel).
Defined.

(** Four versions, of which the last two came after a recovery: one of
    them is halted, the other shares its head node with version 0. *)
Definition versions_after_recovery : Stack :=
  [ a_version 0 1 3; a_version 1 1 4;
    mkStackHead 2 1 5 0 true (mkLength 0 0 0 0) None; a_version 0 2 6 ].

Lemma recover_prunes_new_versions_witness :
  exists stack',
    recover_versions 5 5 versions_after_recovery 2 = Some stack' /\
    take 2 stack' = take 2 versions_after_recovery /\
    stack' `sublist_of` versions_after_recovery /\
    forall k, 2 <= k < ts_stack_version_count stack' ->
      ts_stack_is_halted stack' k = false /\
      forall j, 0 <= j < k -> ts_stack_can_merge stack' j k = false.
Proof.
  apply (recover_prunes_new_versions 5 versions_after_recovery 2).
  - unfold ts_stack_version_count, versions_after_recovery. cbn. lia.
  - reflexivity.
  - unfold versions_after_recovery. cbn. lia.
Defined.

End Versions.

(** ** The slab pool ([tree_pool.c], in the translation unit of [parser.c]) *)

Module TreePool.

Definition SLAB_SIZE : Z := 64.

(** [UINT64_MAX]. *)
Definition FULL_BITMAP : Z := 2 ^ 64 - 1.

(** The C expression [1 << i].  The literal [1] is an [int], so the shift
    is a 32-bit one whatever the type of [i] and of the variable that
    receives the result.  At i = 31 the result is taken as the compilers
    of the project give it, [INT_MIN] (bit 31 is the sign); the C standard
    itself leaves it undefined.  A count of 32 or more is undefined in C
    and differs between machines; the value written here for it is 0,
    the bits shifted out being lost (the shift wraps modulo 2^32).  A pool
    built by [ts_tree_pool_init] never scans that far, as the last theorem
    of this module shows. *)
Definition int_shl_1 (i : Z) : Z := signed32 (Z.shiftl 1 i).

(** [BITMAP_TYPE mask = 1 << i]: the [int] converted to [uint64_t]. *)
Definition allocate_mask (i : Z) : Z := wrap64 (int_shl_1 i).

(** [~(1 << index)], converted to [uint64_t] by [&=]. *)
Definition free_mask (index : Z) : Z := wrap64 (Z.lnot (int_shl_1 index)).

(** A slab: its bitmap and the block of storage of its 64 trees. *)
Record TreePoolSlab : Type := mkSlab {
  bitmap : Z;
  trees : nat
}.

Definition tree_pool_slab__is_full (self : TreePoolSlab) : bool :=
  bitmap self =? FULL_BITMAP.

(** [for (unsigned i = 0; i < SLAB_SIZE; i++)], with [remaining] the
    number of indices still to try; falling out of the loop returns
    [NULL]. *)
Fixpoint slab_scan (remaining : nat) (self : TreePoolSlab) (i : Z)
    : TreePoolSlab * option TreePtr :=
  match remaining with
  | O => (self, None)
  | S remaining' =>
    let mask := allocate_mask i in
    if Z.land (bitmap self) mask =? 0
    then (mkSlab (Z.lor (bitmap self) mask) (trees self), Some (trees self, i))
    else slab_scan remaining' self (i + 1)
  end.

Definition tree_pool_slab__allocate (self : TreePoolSlab) : TreePoolSlab * option TreePtr :=
  slab_scan (Z.to_nat SLAB_SIZE) self 0.

(** [tree - self->trees] is the difference of the indices when [tree]
    points into the storage of the slab; a pointer into other storage is
    out of the range that the function accepts. *)
Definition tree_pool_slab__free (self : TreePoolSlab) (tree : TreePtr)
    : TreePoolSlab * bool :=
  if negb (Nat.eqb (fst tree) (trees self)) then (self, false)
  else
    let index := snd tree in
    if (index <? 0) || (SLAB_SIZE <=? index) then (self, false)
    else (mkSlab (Z.land (bitmap self) (free_mask index)) (trees self), true).

Record TreePool : Type := mkTreePool {
  slabs : list TreePoolSlab;
  first_available_slab_index : Z
}.

(** [ts_calloc] returns storage that no earlier slab has: the block of the
    n-th slab is n. *)
Definition ts_tree_pool__add_slab (self : TreePool) : TreePool :=
  mkTreePool (slabs self ++ [mkSlab 0 (length (slabs self))])
             (Z.of_nat (length (slabs self))).

Definition ts_tree_pool_init : TreePool :=
  ts_tree_pool__add_slab (mkTreePool [] 0).

Definition no_slab : TreePoolSlab := mkSlab FULL_BITMAP 0.

Definition slab_at (self : TreePool) (i : Z) : TreePoolSlab :=
  default no_slab (slabs self !! Z.to_nat i).

(** [for (unsigned i = first_available_slab_index + 1; i < slabs.size; i++)]:
    the first slab from [i] on that is not full. *)
Fixpoint next_available (remaining : nat) (self : TreePool) (i : Z) : option Z :=
  match remaining with
  | O => None
  | S remaining' =>
    if negb (tree_pool_slab__is_full (slab_at self i)) then Some i
    else next_available remaining' self (wrap32 (i + 1))
  end.

Definition ts_tree_pool_allocate (self : TreePool) : TreePool * option TreePtr :=
  let index := first_available_slab_index self in
  let '(slab, tree) := tree_pool_slab__allocate (slab_at self index) in
  let self1 := mkTreePool (<[Z.to_nat index := slab]> (slabs self)) index in
  if tree_pool_slab__is_full slab then
    match next_available (length (slabs self1) - S (Z.to_nat index)) self1
            (wrap32 (index + 1)) with
    | Some i => (mkTreePool (slabs self1) i, tree)
    | None => (ts_tree_pool__add_slab self1, tree)
    end
  else (self1, tree).

(** [for (unsigned i = slabs.size - 1; i + 1 > 0; i--)]: the slabs from
    the last to the first, [count] of them left to try.  The assertion
    after the loop fails when no slab owns the tree: [None]. *)
Fixpoint pool_free_from (count : nat) (self : TreePool) (tree : TreePtr) : option TreePool :=
  match count with
  | O => None
  | S i =>
    let '(slab, freed) := tree_pool_slab__free (slab_at self (Z.of_nat i)) tree in
    if freed then
      Some (mkTreePool (<[i := slab]> (slabs self))
              (if Z.of_nat i <? first_available_slab_index self then Z.of_nat i
               else first_available_slab_index self))
    else pool_free_from i self tree
  end.

Definition ts_tree_pool_free (self : TreePool) (tree : TreePtr) : option TreePool :=
  pool_free_from (length (slabs self)) self tree.

(** [n] allocations in a row, the pointers in the order they were given. *)
Fixpoint allocate_many (n : nat) (self : TreePool) : TreePool * list (option TreePtr) :=
  match n with
  | O => (self, [])
  | S n' =>
    let '(self1, tree) := ts_tree_pool_allocate self in
    let '(self2, more) := allocate_many n' self1 in
    (self2, tree :: more)
  end.

(** *** Occupancy

    The shape of a bitmap as the two functions of a slab leave it: 64
    bits, of which bits 31 to 63 are set together and cleared together. *)
Definition bitmap_ok (b : Z) : bool :=
  (0 <=? b) && (b <? 2 ^ 64)
  && forallb (fun k => eqb (Z.testbit b k) (Z.testbit b 31)) (seqZ 32 32).

(** The slot [snd tree] of the slab whose block is [fst tree] is taken. *)
Definition is_live (self : TreePool) (tree : TreePtr) : bool :=
  bool_decide (fst tree < length (slabs self))%nat
  && (0 <=? snd tree) && (snd tree <=? 31)
  && Z.testbit (bitmap (slab_at self (Z.of_nat (fst tree)))) (snd tree).

(** A pool as [ts_tree_pool_init], [ts_tree_pool_allocate] and
    [ts_tree_pool_free] keep it: the n-th slab owns block n, its bitmap has
    the shape above, the slab at [first_available_slab_index] exists and
    is not full, and every slab before it is full. *)
Definition pool_ok (self : TreePool) : Prop :=
  0 <= first_available_slab_index self < Z.of_nat (length (slabs self)) /\
  (forall k s, slabs self !! k = Some s -> trees s = k /\ bitmap_ok (bitmap s) = true) /\
  tree_pool_slab__is_full (slab_at self (first_available_slab_index self)) = false /\
  (forall k, 0 <= k < first_available_slab_index self ->
             tree_pool_slab__is_full (slab_at self k) = true).

(** The pool after [n] allocations from [ts_tree_pool_init]: [n / 32]
    full slabs and one slab with its first [n mod 32] slots taken. *)
Definition pool_after (n : nat) : TreePool :=
  mkTreePool
    (map (mkSlab FULL_BITMAP) (seq 0 (n / 32))
     ++ [mkSlab (2 ^ Z.of_nat (n mod 32) - 1) (n / 32)])
    (Z.of_nat (n / 32)).

(** *** What the masks are *)

(** Below bit 31 the two masks are the ones that select exactly bit [i]. *)
Lemma masks_below_31 :
  forallb (fun i => (allocate_mask i =? 2 ^ i) && (free_mask i =? FULL_BITMAP - 2 ^ i))
          (seqZ 0 31) = true.
Proof. vm_compute. reflexivity. Qed.

(** From bit 32 on, with a shift that wraps modulo 2^32, the mask of
    [allocate] selects no bit and the mask of [free] clears none. *)
Lemma masks_from_32 :
  forallb (fun i => (allocate_mask i =? 0) && (free_mask i =? FULL_BITMAP))
          (seqZ 32 32) = true.
Proof. vm_compute. reflexivity. Qed.

(** C10 (tree_pool_slab__allocate, tree_pool_slab__free), where the code
    departs from it.  At i = 31 the mask of [allocate] is bits 31 to 63,
    not bit 31 alone: on a slab whose slots 0 to 30 are taken the function
    returns slot 31 and leaves the bitmap full, and freeing slot 31 clears
    bits 31 to 63 of a full bitmap.  A fresh pool therefore finds its first
    slab full after 32 allocations, hands out none of the slots 32 to 63,
    and takes the 33rd tree from a second slab. *)
Theorem slab_masks_above_30 :
  allocate_mask 31 = 2 ^ 64 - 2 ^ 31 /\
  free_mask 31 = 2 ^ 31 - 1 /\
  tree_pool_slab__allocate (mkSlab (2 ^ 31 - 1) 0)
    = (mkSlab FULL_BITMAP 0, Some (0%nat, 31)) /\
  tree_pool_slab__free (mkSlab FULL_BITMAP 0) (0%nat, 31)
    = (mkSlab (2 ^ 31 - 1) 0, true) /\
  allocate_many 33 ts_tree_pool_init
    = (mkTreePool [mkSlab FULL_BITMAP 0; mkSlab 1 1] 1,
       map (fun i => Some (0%nat, i)) (seqZ 0 32) ++ [Some (1%nat, 0)]).
Proof. vm_compute. repeat split. Qed.

(** *** The slots 0 to 31 of a slab *)

(** The bits of the mask of slot [i], for [i] up to 31. *)
Definition slot_bits (i k : Z) : bool :=
  if i =? 31 then (31 <=? k) && (k <? 64) else k =? i.

Lemma int_shl_1_low (i : Z) : 0 <= i <= 30 -> int_shl_1 i = 2 ^ i.
Proof.
  intros H.
  assert (E : forallb (fun i => int_shl_1 i =? 2 ^ i) (seqZ 0 31) = true)
    by (vm_compute; reflexivity).
  rewrite forallb_forall in E. apply Z.eqb_eq, E.
  apply list_elem_of_In, elem_of_seqZ. lia.
Qed.

Lemma int_shl_1_bits (i k : Z) :
  0 <= i <= 31 -> 0 <= k -> Z.testbit (int_shl_1 i) k = if i =? 31 then 31 <=? k else k =? i.
Proof.
  intros Hi Hk. destruct (i =? 31) eqn:E.
  - apply Z.eqb_eq in E. subst i.
    change (int_shl_1 31) with (Z.lnot (Z.ones 31)).
    rewrite Z.lnot_spec by exact Hk.
    rewrite Z.testbit_ones_nonneg by lia.
    destruct (k <? 31) eqn:L, (31 <=? k) eqn:G; try reflexivity; lia.
  - apply Z.eqb_neq in E. rewrite int_shl_1_low by lia.
    rewrite Z.pow2_bits_eqb by lia. apply Z.eqb_sym.
Qed.

Lemma allocate_mask_bits (i k : Z) :
  0 <= i <= 31 -> 0 <= k -> Z.testbit (allocate_mask i) k = slot_bits i k.
Proof.
  intros Hi Hk. unfold allocate_mask, wrap64, slot_bits.
  destruct (k <? 64) eqn:L.
  - rewrite Z.mod_pow2_bits_low by lia. rewrite int_shl_1_bits by lia.
    destruct (i =? 31); [rewrite andb_true_r|]; reflexivity.
  - rewrite Z.mod_pow2_bits_high by lia.
    destruct (i =? 31) eqn:E; [rewrite andb_false_r; reflexivity|].
    symmetry. apply Z.eqb_neq. apply Z.eqb_neq in E. lia.
Qed.

Lemma free_mask_bits (i k : Z) :
  0 <= i <= 31 -> 0 <= k ->
  Z.testbit (free_mask i) k = (k <? 64) && negb (slot_bits i k).
Proof.
  intros Hi Hk. unfold free_mask, wrap64, slot_bits.
  destruct (k <? 64) eqn:L.
  - rewrite Z.mod_pow2_bits_low by lia. rewrite Z.lnot_spec by exact Hk.
    rewrite int_shl_1_bits by lia.
    destruct (i =? 31); cbn; rewrite ?andb_true_r; reflexivity.
  - rewrite Z.mod_pow2_bits_high by lia. reflexivity.
Qed.

Lemma bitmap_ok_spec (b : Z) :
  bitmap_ok b = true <->
  0 <= b < 2 ^ 64 /\ forall k, 31 <= k < 64 -> Z.testbit b k = Z.testbit b 31.
Proof.
  unfold bitmap_ok. rewrite !andb_true_iff, forallb_forall.
  rewrite Z.leb_le, Z.ltb_lt. split.
  - intros [[H1 H2] H3]. split; [lia|]. intros k Hk.
    destruct (Z.eq_dec k 31) as [->|N]; [reflexivity|].
    apply eqb_prop, H3, list_elem_of_In, elem_of_seqZ. lia.
  - intros [H1 H2]. split; [lia|]. intros k Hk.
    apply list_elem_of_In, elem_of_seqZ in Hk.
    rewrite H2 by lia. apply eqb_reflx.
Qed.

Lemma bits_above_64 (b k : Z) : 0 <= b < 2 ^ 64 -> 64 <= k -> Z.testbit b k = false.
Proof.
  intros Hb Hk. rewrite <- (Z.mod_small b (2 ^ 64)) by exact Hb.
  apply Z.mod_pow2_bits_high. lia.
Qed.

(** A bitmap of the shape is known by its bits 0 to 31. *)
Lemma bitmap_ok_eq (a b : Z) :
  bitmap_ok a = true -> bitmap_ok b = true ->
  (forall k, 0 <= k <= 31 -> Z.testbit a k = Z.testbit b k) -> a = b.
Proof.
  intros Ha Hb H. apply bitmap_ok_spec in Ha, Hb.
  destruct Ha as [Ra Ha], Hb as [Rb Hb].
  apply Z.bits_inj'. intros k Hk.
  destruct (Z_lt_le_dec k 32) as [L|G]; [apply H; lia|].
  destruct (Z_lt_le_dec k 64) as [L|G'].
  - rewrite Ha, Hb by lia. apply H. lia.
  - rewrite !bits_above_64 by lia. reflexivity.
Qed.

Lemma land_mask_free (b i : Z) :
  0 <= i <= 31 -> i <= 30 \/ bitmap_ok b = true -> Z.testbit b i = false ->
  Z.land b (allocate_mask i) = 0.
Proof.
  intros Hi Hb Hbit.
  apply Z.bits_inj'. intros k Hk.
  rewrite Z.land_spec, allocate_mask_bits, Z.bits_0 by lia.
  unfold slot_bits. destruct (i =? 31) eqn:E.
  - apply Z.eqb_eq in E. subst i. destruct Hb as [Hb|Hb]; [lia|].
    apply bitmap_ok_spec in Hb. destruct Hb as [Rb Hb].
    destruct (31 <=? k) eqn:G; [|apply andb_false_r].
    destruct (k <? 64) eqn:L; [|apply andb_false_r].
    rewrite Hb by lia. rewrite Hbit. reflexivity.
  - destruct (k =? i) eqn:K; [|apply andb_false_r].
    apply Z.eqb_eq in K. subst k. rewrite Hbit. reflexivity.
Qed.

Lemma land_mask_taken (b i : Z) :
  0 <= i <= 31 -> Z.testbit b i = true -> Z.land b (allocate_mask i) <> 0.
Proof.
  intros Hi Hbit E.
  assert (F : Z.testbit (Z.land b (allocate_mask i)) i = false)
    by (rewrite E; apply Z.bits_0).
  rewrite Z.land_spec, allocate_mask_bits, Hbit in F by lia.
  unfold slot_bits in F. destruct (i =? 31) eqn:E31.
  - apply Z.eqb_eq in E31. subst i. discriminate.
  - rewrite Z.eqb_refl in F. discriminate.
Qed.

(** The scan of [tree_pool_slab__allocate] stops at the first clear bit. *)
Lemma slab_scan_finds (remaining : nat) :
  forall (self : TreePoolSlab) (j i : Z),
    0 <= j <= i -> i <= 31 ->
    i <= 30 \/ bitmap_ok (bitmap self) = true ->
    (Z.to_nat (i - j) < remaining)%nat ->
    (forall k, j <= k < i -> Z.testbit (bitmap self) k = true) ->
    Z.testbit (bitmap self) i = false ->
    slab_scan remaining self j
    = (mkSlab (Z.lor (bitmap self) (allocate_mask i)) (trees self), Some (trees self, i)).
Proof.
  induction remaining as [|n IH]; intros self j i Hj Hi Hok Hn Hset Hclear; [lia|].
  cbn [slab_scan].
  destruct (Z.eq_dec j i) as [->|N].
  - rewrite land_mask_free by (assumption || lia). reflexivity.
  - assert (T : Z.land (bitmap self) (allocate_mask j) <> 0)
      by (apply land_mask_taken; [lia|apply Hset; lia]).
    apply Z.eqb_neq in T. rewrite T.
    apply IH; try assumption; try lia. intros k Hk. apply Hset. lia.
Qed.

(** A bitmap of the shape that is not full has a lowest clear bit, among
    bits 0 to 31. *)
Lemma lowest_clear_bit (b : Z) :
  bitmap_ok b = true -> b <> FULL_BITMAP ->
  exists i, 0 <= i <= 31 /\ Z.testbit b i = false /\
            forall k, 0 <= k < i -> Z.testbit b k = true.
Proof.
  intros Hok Hfull.
  assert (S : forall n : nat,
             (forall k, 0 <= k < Z.of_nat n -> Z.testbit b k = true) \/
             exists i, 0 <= i < Z.of_nat n /\ Z.testbit b i = false /\
                       forall k, 0 <= k < i -> Z.testbit b k = true).
  { induction n as [|n [A|E]].
    - left. intros k Hk. lia.
    - destruct (Z.testbit b (Z.of_nat n)) eqn:B.
      + left. intros k Hk. destruct (Z.eq_dec k (Z.of_nat n)) as [->|N]; [exact B|].
        apply A. lia.
      + right. exists (Z.of_nat n). split; [lia|]. split; [exact B|].
        intros k Hk. apply A. lia.
    - right. destruct E as (i & Hi & B & L). exists i. split; [lia|]. split; assumption. }
  destruct (S 32%nat) as [A|(i & Hi & B & L)].
  - exfalso. apply Hfull.
    apply bitmap_ok_eq; [exact Hok|reflexivity|].
    intros k Hk. rewrite A by lia.
    change FULL_BITMAP with (Z.ones 64).
    rewrite Z.testbit_ones_nonneg by lia. symmetry. apply Z.ltb_lt. lia.
  - exists i. split; [lia|]. split; assumption.
Qed.

Lemma lor_mask_bits (b i k : Z) :
  0 <= i <= 31 -> 0 <= k ->
  Z.testbit (Z.lor b (allocate_mask i)) k = Z.testbit b k || slot_bits i k.
Proof. intros Hi Hk. rewrite Z.lor_spec, allocate_mask_bits by lia. reflexivity. Qed.

Lemma land_free_bits (b i k : Z) :
  0 <= i <= 31 -> 0 <= k -> 0 <= b < 2 ^ 64 ->
  Z.testbit (Z.land b (free_mask i)) k = Z.testbit b k && negb (slot_bits i k).
Proof.
  intros Hi Hk Hb. rewrite Z.land_spec, free_mask_bits by lia.
  destruct (k <? 64) eqn:L; [reflexivity|].
  rewrite bits_above_64 by lia. reflexivity.
Qed.

Lemma slot_bits_low (i k : Z) :
  0 <= i <= 31 -> 0 <= k <= 31 -> slot_bits i k = (k =? i).
Proof.
  intros Hi Hk. unfold slot_bits. destruct (i =? 31) eqn:E; [|reflexivity].
  apply Z.eqb_eq in E. subst i.
  destruct (k =? 31) eqn:K.
  - apply Z.eqb_eq in K. subst k. reflexivity.
  - apply Z.eqb_neq in K.
    assert ((31 <=? k) = false) as -> by (apply Z.leb_gt; lia). reflexivity.
Qed.

Lemma slot_bits_high (i k : Z) :
  0 <= i <= 31 -> 31 <= k < 64 -> slot_bits i k = slot_bits i 31.
Proof.
  intros Hi Hk. unfold slot_bits. destruct (i =? 31) eqn:E.
  - assert ((31 <=? k) = true) as -> by (apply Z.leb_le; lia).
    assert ((k <? 64) = true) as -> by (apply Z.ltb_lt; lia). reflexivity.
  - apply Z.eqb_neq in E.
    assert ((k =? i) = false) as -> by (apply Z.eqb_neq; lia).
    symmetry. apply Z.eqb_neq. lia.
Qed.

Lemma range_of_bits (x : Z) :
  0 <= x -> (forall k, 64 <= k -> Z.testbit x k = false) -> 0 <= x < 2 ^ 64.
Proof.
  intros Hx H.
  assert (E : x mod 2 ^ 64 = x).
  { apply Z.bits_inj'. intros k Hk.
    destruct (Z_lt_le_dec k 64) as [L|G].
    - apply Z.mod_pow2_bits_low. exact L.
    - rewrite Z.mod_pow2_bits_high by lia. symmetry. apply H. exact G. }
  rewrite <- E. apply Z.mod_pos_bound. lia.
Qed.

Lemma mask_range (i : Z) : 0 <= allocate_mask i < 2 ^ 64 /\ 0 <= free_mask i < 2 ^ 64.
Proof. unfold allocate_mask, free_mask, wrap64. split; apply Z.mod_pos_bound; lia. Qed.

Lemma lor_mask_range (b i : Z) :
  0 <= i <= 31 -> 0 <= b < 2 ^ 64 -> 0 <= Z.lor b (allocate_mask i) < 2 ^ 64.
Proof.
  intros Hi Hb. destruct (mask_range i) as [M _].
  apply range_of_bits; [apply Z.lor_nonneg; lia|].
  intros k Hk. rewrite Z.lor_spec, !bits_above_64 by lia. reflexivity.
Qed.

Lemma land_free_range (b i : Z) :
  0 <= b < 2 ^ 64 -> 0 <= Z.land b (free_mask i) < 2 ^ 64.
Proof.
  intros Hb. destruct (mask_range i) as [_ M].
  apply range_of_bits; [apply Z.land_nonneg; lia|].
  intros k Hk. rewrite Z.land_spec, !bits_above_64 by lia. reflexivity.
Qed.

Lemma lor_mask_ok (b i : Z) :
  0 <= i <= 31 -> bitmap_ok b = true -> bitmap_ok (Z.lor b (allocate_mask i)) = true.
Proof.
  intros Hi Hb. apply bitmap_ok_spec. apply bitmap_ok_spec in Hb. destruct Hb as [Rb Hb].
  split; [apply lor_mask_range; assumption|].
  intros k Hk. rewrite !lor_mask_bits by lia.
  rewrite Hb by lia. rewrite (slot_bits_high i k) by lia. reflexivity.
Qed.

Lemma land_free_ok (b i : Z) :
  0 <= i <= 31 -> bitmap_ok b = true -> bitmap_ok (Z.land b (free_mask i)) = true.
Proof.
  intros Hi Hb. apply bitmap_ok_spec. apply bitmap_ok_spec in Hb. destruct Hb as [Rb Hb].
  split; [apply land_free_range; assumption|].
  intros k Hk. rewrite !land_free_bits by lia.
  rewrite Hb by lia. rewrite (slot_bits_high i k) by lia. reflexivity.
Qed.

(** What [tree_pool_slab__allocate] does to a slab that is not full. *)
Lemma slab_allocate_ok (self : TreePoolSlab) :
  bitmap_ok (bitmap self) = true -> tree_pool_slab__is_full self = false ->
  exists i,
    0 <= i <= 31 /\
    Z.testbit (bitmap self) i = false /\
    (forall k, 0 <= k < i -> Z.testbit (bitmap self) k = true) /\
    tree_pool_slab__allocate self
    = (mkSlab (Z.lor (bitmap self) (allocate_mask i)) (trees self), Some (trees self, i)).
Proof.
  intros Hok Hfull. unfold tree_pool_slab__is_full in Hfull. apply Z.eqb_neq in Hfull.
  destruct (lowest_clear_bit _ Hok Hfull) as (i & Hi & B & L).
  exists i. split; [exact Hi|]. split; [exact B|]. split; [exact L|].
  apply slab_scan_finds; try assumption; try lia; [right; exact Hok|].
  change (Z.to_nat SLAB_SIZE) with 64%nat. lia.
Qed.

(** What [tree_pool_slab__free] does with a slot of the slab. *)
Lemma slab_free_own (self : TreePoolSlab) (index : Z) :
  0 <= index < 64 ->
  tree_pool_slab__free self (trees self, index)
  = (mkSlab (Z.land (bitmap self) (free_mask index)) (trees self), true).
Proof.
  intros H. unfold tree_pool_slab__free. cbn [fst snd].
  rewrite Nat.eqb_refl. cbn [negb].
  assert ((index <? 0) = false) as -> by (apply Z.ltb_ge; lia).
  assert ((SLAB_SIZE <=? index) = false) as -> by (apply Z.leb_gt; unfold SLAB_SIZE; lia).
  reflexivity.
Qed.

Lemma slab_free_foreign (self : TreePoolSlab) (tree : TreePtr) :
  fst tree <> trees self \/ snd tree < 0 \/ 64 <= snd tree ->
  tree_pool_slab__free self tree = (self, false).
Proof.
  intros H. unfold tree_pool_slab__free.
  destruct (Nat.eqb (fst tree) (trees self)) eqn:E; [|reflexivity].
  apply Nat.eqb_eq in E. cbn [negb].
  destruct H as [H|H]; [congruence|].
  assert ((snd tree <? 0) || (SLAB_SIZE <=? snd tree) = true) as ->; [|reflexivity].
  apply orb_true_iff. unfold SLAB_SIZE.
  destruct H; [left; apply Z.ltb_lt|right; apply Z.leb_le]; lia.
Qed.

(** X1 (tree_pool_slab__allocate).  On a slab whose lowest clear bit is
    bit i, with i at most 30, the function returns slot i of the slab's
    block and sets exactly that bit: the new bitmap is the old one plus
    2^i. *)
Theorem slab_allocate_lowest_free (self : TreePoolSlab) (i : Z) :
  0 <= i <= 30 ->
  Z.testbit (bitmap self) i = false ->
  (forall k, 0 <= k < i -> Z.testbit (bitmap self) k = true) ->
  tree_pool_slab__allocate self
  = (mkSlab (bitmap self + 2 ^ i) (trees self), Some (trees self, i)).
Proof.
  intros Hi Hclear Hset.
  assert (M : allocate_mask i = 2 ^ i).
  { unfold allocate_mask, wrap64. rewrite int_shl_1_low by exact Hi.
    apply Z.mod_small. split; [lia|]. apply Z.pow_lt_mono_r; lia. }
  rewrite (Z.add_nocarry_lor (bitmap self) (2 ^ i)).
  - rewrite <- M. apply slab_scan_finds; try assumption; try lia.
    change (Z.to_nat SLAB_SIZE) with 64%nat. lia.
  - rewrite <- M. apply land_mask_free; [lia|left; lia|exact Hclear].
Qed.

Lemma slab_allocate_lowest_free_witness :
  tree_pool_slab__allocate (mkSlab 11 4) = (mkSlab 15 4, Some (4%nat, 2)).
Proof.
  apply (slab_allocate_lowest_free (mkSlab 11 4) 2).
  - lia.
  - reflexivity.
  - intros k Hk. assert (k = 0 \/ k = 1) as [->| ->] by lia; reflexivity.
Defined.

Lemma lor_land_round_trip (b i : Z) :
  bitmap_ok b = true -> 0 <= i <= 31 -> Z.testbit b i = false ->
  Z.land (Z.lor b (allocate_mask i)) (free_mask i) = b.
Proof.
  intros Hok Hi B.
  apply bitmap_ok_eq; [apply land_free_ok, lor_mask_ok; assumption|exact Hok|].
  intros k Hk.
  assert (R : 0 <= Z.lor b (allocate_mask i) < 2 ^ 64)
    by (apply lor_mask_range; [lia|apply bitmap_ok_spec in Hok; exact (proj1 Hok)]).
  rewrite land_free_bits, lor_mask_bits, slot_bits_low by lia.
  destruct (k =? i) eqn:K.
  - apply Z.eqb_eq in K. subst k. rewrite B. reflexivity.
  - rewrite orb_false_r. apply andb_true_r.
Qed.

(** X2 (tree_pool_slab__allocate, tree_pool_slab__free).  On a slab that
    is not full and whose bits 31 to 63 are all set or all clear, an
    allocation returns a slot of the slab's block, with an index from 0
    to 31, whose bit was clear and is now set; freeing that slot at once
    gives back the slab as it was. *)
Theorem slab_allocate_free_round_trip (self : TreePoolSlab) :
  bitmap_ok (bitmap self) = true ->
  tree_pool_slab__is_full self = false ->
  exists self' index,
    tree_pool_slab__allocate self = (self', Some (trees self, index)) /\
    0 <= index <= 31 /\
    Z.testbit (bitmap self) index = false /\
    Z.testbit (bitmap self') index = true /\
    tree_pool_slab__free self' (trees self, index) = (self, true).
Proof.
  intros Hok Hfull.
  destruct (slab_allocate_ok self Hok Hfull) as (i & Hi & B & L & E).
  eexists. exists i. split; [exact E|]. split; [exact Hi|]. split; [exact B|].
  cbn [bitmap]. split.
  - rewrite lor_mask_bits, slot_bits_low, Z.eqb_refl by lia. apply orb_true_r.
  - pose proof (slab_free_own (mkSlab (Z.lor (bitmap self) (allocate_mask i)) (trees self)) i)
      as F.
    cbn [bitmap trees] in F. rewrite F by lia.
    rewrite lor_land_round_trip by assumption.
    destruct self as [b t]. reflexivity.
Qed.

Lemma slab_allocate_free_round_trip_witness :
  exists self' index,
    tree_pool_slab__allocate (mkSlab (2 ^ 31 - 1) 0) = (self', Some (0%nat, index)) /\
    0 <= index <= 31 /\
    Z.testbit (2 ^ 31 - 1) index = false /\
    Z.testbit (bitmap self') index = true /\
    tree_pool_slab__free self' (0%nat, index) = (mkSlab (2 ^ 31 - 1) 0, true).
Proof.
  apply (slab_allocate_free_round_trip (mkSlab (2 ^ 31 - 1) 0)); reflexivity.
Defined.

(** *** The pool *)

Lemma slab_at_lookup (self : TreePool) (k : nat) (s : TreePoolSlab) :
  slabs self !! k = Some s -> slab_at self (Z.of_nat k) = s.
Proof. intros H. unfold slab_at. rewrite Nat2Z.id, H. reflexivity. Qed.

Lemma next_available_spec (remaining : nat) :
  forall (self : TreePool) (i : Z),
    0 <= i -> i + Z.of_nat remaining <= Z.of_nat (length (slabs self)) ->
    Z.of_nat (length (slabs self)) < 2 ^ 32 ->
    match next_available remaining self i with
    | Some j => i <= j < Z.of_nat (length (slabs self)) /\
                tree_pool_slab__is_full (slab_at self j) = false /\
                forall k, i <= k < j -> tree_pool_slab__is_full (slab_at self k) = true
    | None => forall k, i <= k < i + Z.of_nat remaining ->
                        tree_pool_slab__is_full (slab_at self k) = true
    end.
Proof.
  induction remaining as [|n IH]; intros self i Hi Hn Hlen; [intros k Hk; lia|].
  cbn [next_available].
  destruct (tree_pool_slab__is_full (slab_at self i)) eqn:F; cbn [negb].
  - rewrite wrap32_small by lia.
    specialize (IH self (i + 1)).
    destruct (next_available n self (i + 1)) as [j|].
    + destruct IH as (R & N & B); [lia|lia|exact Hlen|]. split; [lia|]. split; [exact N|].
      intros k Hk. destruct (Z.eq_dec k i) as [->|D]; [exact F|apply B; lia].
    + intros k Hk. destruct (Z.eq_dec k i) as [->|D]; [exact F|].
      apply IH; [lia|lia|exact Hlen|lia].
  - split; [lia|]. split; [exact F|]. intros k Hk. lia.
Qed.

(** What [ts_tree_pool_allocate] returns and the pool it leaves, up to the
    slab it may have added. *)
Lemma pool_allocate_shape (self : TreePool) (s : TreePoolSlab) :
  pool_ok self -> Z.of_nat (length (slabs self)) < 2 ^ 32 ->
  slabs self !! Z.to_nat (first_available_slab_index self) = Some s ->
  exists i extra first',
    0 <= i <= 31 /\
    Z.testbit (bitmap s) i = false /\
    (forall k, 0 <= k < i -> Z.testbit (bitmap s) k = true) /\
    ts_tree_pool_allocate self
    = (mkTreePool
         (<[Z.to_nat (first_available_slab_index self)
            := mkSlab (Z.lor (bitmap s) (allocate_mask i)) (trees s)]> (slabs self) ++ extra)
         first',
       Some (trees s, i)) /\
    (extra = [] \/ extra = [mkSlab 0 (length (slabs self))]) /\
    0 <= first' < Z.of_nat (length (slabs self) + length extra) /\
    tree_pool_slab__is_full
      (default no_slab
         ((<[Z.to_nat (first_available_slab_index self)
             := mkSlab (Z.lor (bitmap s) (allocate_mask i)) (trees s)]> (slabs self) ++ extra)
          !! Z.to_nat first')) = false /\
    (forall k, 0 <= k < first' ->
       tree_pool_slab__is_full
         (default no_slab
            ((<[Z.to_nat (first_available_slab_index self)
                := mkSlab (Z.lor (bitmap s) (allocate_mask i)) (trees s)]> (slabs self)
              ++ extra) !! Z.to_nat k)) = true) /\
    first_available_slab_index self <= first'.
Proof.
  intros (Hf & Hs & Hn & Hb) Hlen Es.
  set (f := first_available_slab_index self) in *.
  assert (Eat : slab_at self f = s) by (unfold slab_at; rewrite Es; reflexivity).
  destruct (Hs _ _ Es) as [Ht Hok].
  rewrite Eat in Hn.
  destruct (slab_allocate_ok s Hok Hn) as (i & Hi & B & L & E).
  exists i.
  set (s' := mkSlab (Z.lor (bitmap s) (allocate_mask i)) (trees s)) in *.
  set (slabs1 := <[Z.to_nat f := s']> (slabs self)).
  assert (Hl1 : length slabs1 = length (slabs self)) by apply length_insert.
  assert (Hs' : slabs1 !! Z.to_nat f = Some s')
    by (apply list_lookup_insert_eq; lia).
  assert (Hbefore : forall (extra : list TreePoolSlab) k, 0 <= k < f ->
            tree_pool_slab__is_full
              (default no_slab ((slabs1 ++ extra) !! Z.to_nat k)) = true).
  { intros extra k Hk. rewrite lookup_app_l by lia.
    unfold slabs1. rewrite list_lookup_insert_ne by lia. apply (Hb k Hk). }
  unfold ts_tree_pool_allocate. fold f. rewrite Eat, E. fold s'. fold slabs1.
  destruct (tree_pool_slab__is_full s') eqn:F.
  - cbn [slabs]. rewrite wrap32_small by lia.
    pose proof (next_available_spec (length slabs1 - S (Z.to_nat f))
                  (mkTreePool slabs1 f) (f + 1)) as N.
    cbn [slabs] in N. unfold slab_at in N. cbn [slabs] in N.
    assert (Hupto : forall (extra : list TreePoolSlab) (bound : Z),
              bound <= Z.of_nat (length slabs1) ->
              (forall k, f + 1 <= k < bound ->
                 tree_pool_slab__is_full (default no_slab (slabs1 !! Z.to_nat k)) = true) ->
              forall k, 0 <= k < bound ->
                tree_pool_slab__is_full
                  (default no_slab ((slabs1 ++ extra) !! Z.to_nat k)) = true).
    { intros extra bound Hbound Hafter k Hk.
      destruct (Z_lt_le_dec k f) as [Lk|Gk]; [apply Hbefore; lia|].
      rewrite lookup_app_l by lia.
      destruct (Z.eq_dec k f) as [->|D]; [rewrite Hs'; exact F|].
      apply Hafter. lia. }
    destruct (next_available (length slabs1 - S (Z.to_nat f)) (mkTreePool slabs1 f) (f + 1))
      as [j|].
    + destruct N as (R & N & A); [lia|lia|lia|].
      exists [], j. rewrite app_nil_r.
      split; [exact Hi|]. split; [exact B|]. split; [exact L|].
      split; [reflexivity|]. split; [left; reflexivity|].
      split; [cbn [length]; lia|]. split; [exact N|].
      split; [|lia].
      intros k Hk. specialize (Hupto [] j ltac:(lia) A k Hk).
      rewrite app_nil_r in Hupto. exact Hupto.
    + exists [mkSlab 0 (length (slabs self))], (Z.of_nat (length (slabs self))).
      split; [exact Hi|]. split; [exact B|]. split; [exact L|].
      split; [unfold ts_tree_pool__add_slab; cbn [slabs]; rewrite Hl1; reflexivity|].
      split; [right; reflexivity|].
      split; [cbn [length]; lia|].
      split; [|split; [|lia]].
      * rewrite Nat2Z.id, lookup_app_r by lia.
        rewrite Hl1, Nat.sub_diag. reflexivity.
      * apply Hupto; [lia|]. intros k Hk. apply N; lia.
  - exists [], f. rewrite app_nil_r.
    split; [exact Hi|]. split; [exact B|]. split; [exact L|].
    split; [reflexivity|]. split; [left; reflexivity|].
    split; [cbn [length]; lia|]. split; [rewrite Hs'; exact F|].
    split; [|lia].
    intros k Hk. specialize (Hbefore [] k Hk). rewrite app_nil_r in Hbefore. exact Hbefore.
Qed.

Lemma bitmap_zero_bits (k : Z) : Z.testbit 0 k = false.
Proof. apply Z.bits_0. Qed.

(** What an allocation does to a pool of the shape. *)
Lemma pool_allocate_spec (self : TreePool) :
  pool_ok self -> Z.of_nat (length (slabs self)) < 2 ^ 32 ->
  exists self' tree,
    ts_tree_pool_allocate self = (self', Some tree) /\
    pool_ok self' /\
    Z.of_nat (fst tree) = first_available_slab_index self /\
    (forall j, 0 <= j < snd tree -> is_live self (fst tree, j) = true) /\
    (forall k j, (k < fst tree)%nat -> 0 <= j <= 31 -> is_live self (k, j) = true) /\
    is_live self tree = false /\
    is_live self' tree = true /\
    forall other, other <> tree -> is_live self' other = is_live self other.
Proof.
  intros Hpool Hlen.
  pose proof Hpool as (Hf & Hs & Hn & Hb).
  set (f := first_available_slab_index self) in *.
  destruct (lookup_lt_is_Some_2 (slabs self) (Z.to_nat f)) as [s Es]; [lia|].
  destruct (Hs _ _ Es) as [Ht Hok].
  destruct (pool_allocate_shape self s Hpool Hlen Es)
    as (i & extra & first' & Hi & B & L & E & Hextra & Hfirst' & Hfull' & Hbelow' & _).
  fold f in E, Hfull', Hbelow'.
  set (s' := mkSlab (Z.lor (bitmap s) (allocate_mask i)) (trees s)) in *.
  set (slabs1 := <[Z.to_nat f := s']> (slabs self)) in *.
  assert (Hl1 : length slabs1 = length (slabs self)) by apply length_insert.
  assert (Hok' : bitmap_ok (bitmap s') = true) by (apply lor_mask_ok; assumption).
  assert (Hlook : forall k,
            (slabs1 ++ extra) !! k =
            if decide (k = Z.to_nat f) then Some s'
            else if decide (k < length (slabs self))%nat then slabs self !! k
            else extra !! (k - length (slabs self))%nat).
  { intros k. destruct (decide (k = Z.to_nat f)) as [->|N].
    - rewrite lookup_app_l by lia. apply list_lookup_insert_eq. lia.
    - destruct (decide (k < length (slabs self))%nat) as [Lk|Gk].
      + rewrite lookup_app_l by lia. apply list_lookup_insert_ne. congruence.
      + rewrite lookup_app_r by lia. rewrite Hl1. reflexivity. }
  eexists. exists (trees s, i). split; [exact E|].
  split; [|split; [|split; [|split; [|split; [|split]]]]].
  - (* the pool is kept *)
    split; [cbn [slabs first_available_slab_index]; rewrite length_app, Hl1; lia|].
    split; [|split; [exact Hfull'|exact Hbelow']].
    cbn [slabs]. intros k x Hk. rewrite Hlook in Hk.
    destruct (decide (k = Z.to_nat f)) as [->|N].
    + injection Hk as <-. split; [exact Ht|exact Hok'].
    + destruct (decide (k < length (slabs self))%nat) as [Lk|Gk]; [apply Hs; exact Hk|].
      destruct Hextra as [->| ->].
      * rewrite lookup_nil in Hk. discriminate.
      * assert (k = length (slabs self))
          by (apply lookup_lt_Some in Hk; cbn [length] in Hk; lia).
        subst k. rewrite Nat.sub_diag in Hk. injection Hk as <-.
        split; reflexivity.
  - cbn [fst]. rewrite Ht. lia.
  - intros j Hj. unfold is_live. cbn [fst snd] in *. rewrite Ht.
    rewrite (slab_at_lookup self _ s) by exact Es.
    rewrite (L j Hj), bool_decide_eq_true_2 by lia.
    assert ((0 <=? j) = true) as -> by (apply Z.leb_le; lia).
    assert ((j <=? 31) = true) as -> by (apply Z.leb_le; lia).
    reflexivity.
  - intros k j Hk Hj. cbn [fst] in Hk. rewrite Ht in Hk.
    unfold is_live. cbn [fst snd].
    assert (Hfull : tree_pool_slab__is_full (slab_at self (Z.of_nat k)) = true)
      by (apply Hb; lia).
    unfold tree_pool_slab__is_full in Hfull. apply Z.eqb_eq in Hfull. rewrite Hfull.
    change FULL_BITMAP with (Z.ones 64). rewrite Z.testbit_ones_nonneg by lia.
    rewrite bool_decide_eq_true_2 by lia.
    assert ((0 <=? j) = true) as -> by (apply Z.leb_le; lia).
    assert ((j <=? 31) = true) as -> by (apply Z.leb_le; lia).
    apply Z.ltb_lt. lia.
  - (* the slot was free *)
    unfold is_live. cbn [fst snd]. rewrite Ht.
    rewrite (slab_at_lookup self _ s) by exact Es.
    rewrite B. apply andb_false_r.
  - (* the slot is taken *)
    unfold is_live, slab_at. cbn [fst snd slabs]. rewrite Ht.
    rewrite Nat2Z.id, Hlook, decide_True by reflexivity. unfold s'; cbn [default from_option id bitmap].
    rewrite lor_mask_bits, slot_bits_low, Z.eqb_refl, orb_true_r by lia.
    rewrite bool_decide_eq_true_2 by (rewrite length_app, Hl1; lia).
    assert ((0 <=? i) = true) as -> by (apply Z.leb_le; lia).
    assert ((i <=? 31) = true) as -> by (apply Z.leb_le; lia).
    reflexivity.
  - (* no other slot changes *)
    intros [k j] Hother. unfold is_live, slab_at. cbn [fst snd slabs].
    rewrite !Nat2Z.id, Hlook.
    destruct (decide (k = Z.to_nat f)) as [->|N].
    + rewrite Es. unfold s'; cbn [default from_option id bitmap].
      rewrite !bool_decide_eq_true_2 by (rewrite ?length_app, ?Hl1; lia).
      destruct (0 <=? j) eqn:J0; [|reflexivity].
      destruct (j <=? 31) eqn:J1; [|reflexivity].
      apply Z.leb_le in J0, J1. cbn [andb].
      rewrite lor_mask_bits, slot_bits_low by lia.
      assert ((j =? i) = false) as ->.
      { apply Z.eqb_neq. intros ->. apply Hother. rewrite Ht. reflexivity. }
      apply orb_false_r.
    + destruct (decide (k < length (slabs self))%nat) as [Lk|Gk].
      * rewrite !bool_decide_eq_true_2 by (rewrite ?length_app, ?Hl1; lia). reflexivity.
      * rewrite (bool_decide_eq_false_2 (k < length (slabs self))%nat) by exact Gk.
        cbn [andb].
        destruct Hextra as [->| ->].
        -- rewrite bool_decide_eq_false_2; [reflexivity|].
           rewrite length_app, Hl1. cbn [length]. lia.
        -- destruct (decide (k = length (slabs self))) as [->|Nk].
           ++ rewrite Nat.sub_diag. cbn [lookup list_lookup default from_option id bitmap].
              rewrite bitmap_zero_bits. apply andb_false_r.
           ++ rewrite bool_decide_eq_false_2; [reflexivity|].
              rewrite length_app, Hl1. cbn [length]. lia.
Qed.

(** X3 (ts_tree_pool_allocate).  On a pool of the shape [pool_ok] with
    fewer than 2^32 slabs, an allocation returns a tree (never NULL): a
    slot that was not taken, and the lowest such slot of the pool, all
    the slots 0 to 31 of the slabs before its slab and all the lower
    slots of its slab being taken; it is taken afterwards, no other slot
    changes from taken to free or back, and the pool keeps the shape, a
    slab being added when the last one fills up. *)
Theorem pool_allocate_fresh (self : TreePool) :
  pool_ok self -> Z.of_nat (length (slabs self)) < 2 ^ 32 ->
  exists self' tree,
    ts_tree_pool_allocate self = (self', Some tree) /\
    pool_ok self' /\
    Z.of_nat (fst tree) = first_available_slab_index self /\
    (forall j, 0 <= j < snd tree -> is_live self (fst tree, j) = true) /\
    (forall k j, (k < fst tree)%nat -> 0 <= j <= 31 -> is_live self (k, j) = true) /\
    is_live self tree = false /\
    is_live self' tree = true /\
    forall other, other <> tree -> is_live self' other = is_live self other.
Proof. exact (pool_allocate_spec self). Qed.

Lemma pool_allocate_fresh_witness :
  exists self' tree,
    ts_tree_pool_allocate ts_tree_pool_init = (self', Some tree) /\
    pool_ok self' /\
    Z.of_nat (fst tree) = first_available_slab_index ts_tree_pool_init /\
    (forall j, 0 <= j < snd tree -> is_live ts_tree_pool_init (fst tree, j) = true) /\
    (forall k j, (k < fst tree)%nat -> 0 <= j <= 31 ->
       is_live ts_tree_pool_init (k, j) = true) /\
    is_live ts_tree_pool_init tree = false /\
    is_live self' tree = true /\
    forall other, other <> tree -> is_live self' other = is_live ts_tree_pool_init other.
Proof.
  apply (pool_allocate_fresh ts_tree_pool_init).
  - split; [cbn; lia|]. split; [|split; [reflexivity|cbn; intros k Hk; lia]].
    intros [|k] s H; [injection H as <-; split; reflexivity|discriminate].
  - cbn. lia.
Defined.

Lemma pool_free_from_owned (count : nat) :
  forall (self : TreePool) (tree : TreePtr),
    (forall k s, slabs self !! k = Some s -> trees s = k) ->
    (fst tree < count <= length (slabs self))%nat ->
    0 <= snd tree < 64 ->
    exists s,
      slabs self !! fst tree = Some s /\
      pool_free_from count self tree
      = Some (mkTreePool
                (<[fst tree := mkSlab (Z.land (bitmap s) (free_mask (snd tree))) (trees s)]>
                   (slabs self))
                (if Z.of_nat (fst tree) <? first_available_slab_index self
                 then Z.of_nat (fst tree) else first_available_slab_index self)).
Proof.
  induction count as [|c IH]; intros self [t index] Hs Ht Hindex; cbn [fst snd] in *; [lia|].
  cbn [pool_free_from].
  destruct (lookup_lt_is_Some_2 (slabs self) c) as [sc Ec]; [lia|].
  rewrite (slab_at_lookup self c sc Ec).
  pose proof (Hs _ _ Ec) as Hc.
  destruct (decide (t = c)) as [->|N].
  - exists sc. split; [exact Ec|].
    rewrite <- Hc at 1. rewrite slab_free_own by exact Hindex. reflexivity.
  - rewrite slab_free_foreign by (left; cbn [fst]; lia).
    apply (IH self (t, index)); [exact Hs|cbn [fst]; lia|exact Hindex].
Qed.

Lemma pool_free_from_foreign (count : nat) :
  forall (self : TreePool) (tree : TreePtr),
    (forall k s, slabs self !! k = Some s -> trees s = k) ->
    (count <= length (slabs self))%nat ->
    (count <= fst tree)%nat \/ snd tree < 0 \/ 64 <= snd tree ->
    pool_free_from count self tree = None.
Proof.
  induction count as [|c IH]; intros self tree Hs Hc H; [reflexivity|].
  cbn [pool_free_from].
  destruct (lookup_lt_is_Some_2 (slabs self) c) as [sc Ec]; [lia|].
  rewrite (slab_at_lookup self c sc Ec).
  pose proof (Hs _ _ Ec) as Hsc.
  rewrite slab_free_foreign by (destruct H as [H|H]; [left; lia|right; exact H]).
  apply IH; [exact Hs|lia|]. destruct H as [H|H]; [left; lia|right; exact H].
Qed.

(** What freeing a slot that is taken does to a pool of the shape. *)
Lemma pool_free_spec (self : TreePool) (tree : TreePtr) :
  pool_ok self -> is_live self tree = true ->
  exists self',
    ts_tree_pool_free self tree = Some self' /\
    pool_ok self' /\
    length (slabs self') = length (slabs self) /\
    first_available_slab_index self'
      = Z.min (Z.of_nat (fst tree)) (first_available_slab_index self) /\
    is_live self' tree = false /\
    forall other, other <> tree -> is_live self' other = is_live self other.
Proof.
  intros (Hf & Hs & Hn & Hb) Hlive.
  destruct tree as [t index]. unfold is_live in Hlive. cbn [fst snd] in *.
  apply andb_true_iff in Hlive. destruct Hlive as [Hlive Hbit].
  apply andb_true_iff in Hlive. destruct Hlive as [Hlive H31].
  apply andb_true_iff in Hlive. destruct Hlive as [Ht H0].
  apply bool_decide_eq_true in Ht. apply Z.leb_le in H0, H31.
  destruct (pool_free_from_owned (length (slabs self)) self (t, index))
    as (s & Es & E); [intros k x Hk; apply (Hs k x Hk)|cbn [fst]; lia|cbn [snd]; lia|].
  cbn [fst snd] in Es, E.
  rewrite (slab_at_lookup self t s Es) in Hbit.
  destruct (Hs _ _ Es) as [Htrees Hok].
  set (s' := mkSlab (Z.land (bitmap s) (free_mask index)) (trees s)) in *.
  assert (Hrange : 0 <= bitmap s < 2 ^ 64)
    by (apply bitmap_ok_spec in Hok; exact (proj1 Hok)).
  assert (Hclear : Z.testbit (bitmap s') index = false).
  { unfold s'. cbn [bitmap]. rewrite land_free_bits, slot_bits_low, Z.eqb_refl by lia.
    apply andb_false_r. }
  assert (Hnotfull : tree_pool_slab__is_full s' = false).
  { unfold tree_pool_slab__is_full. apply Z.eqb_neq. intros F.
    rewrite F in Hclear. change FULL_BITMAP with (Z.ones 64) in Hclear.
    rewrite Z.testbit_ones_nonneg in Hclear by lia.
    apply Z.ltb_ge in Hclear. lia. }
  assert (Hlook : forall k,
            <[t := s']> (slabs self) !! k = if decide (k = t) then Some s' else slabs self !! k).
  { intros k. destruct (decide (k = t)) as [->|N].
    - apply list_lookup_insert_eq. exact Ht.
    - apply list_lookup_insert_ne. congruence. }
  eexists. split; [exact E|].
  cbn [slabs first_available_slab_index].
  split; [|split; [apply length_insert|split; [|split]]].
  - split; [cbn [slabs first_available_slab_index]; rewrite length_insert;
            destruct (Z.of_nat t <? first_available_slab_index self); lia|].
    split.
    + cbn [slabs]. intros k x Hk. rewrite Hlook in Hk.
      destruct (decide (k = t)) as [->|N]; [|apply Hs; exact Hk].
      injection Hk as <-. split; [exact Htrees|]. apply land_free_ok; [lia|exact Hok].
    + split.
      * unfold slab_at. cbn [slabs first_available_slab_index]. rewrite Hlook.
        destruct (Z.of_nat t <? first_available_slab_index self) eqn:C.
        -- rewrite Nat2Z.id, decide_True by reflexivity. exact Hnotfull.
        -- destruct (decide (Z.to_nat (first_available_slab_index self) = t)) as [D|D];
             [exact Hnotfull|exact Hn].
      * cbn [first_available_slab_index]. intros k Hk.
        unfold slab_at. cbn [slabs]. rewrite Hlook.
        assert (k < Z.of_nat t /\ k < first_available_slab_index self) as [K1 K2]
          by (destruct (Z.of_nat t <? first_available_slab_index self) eqn:C;
              [apply Z.ltb_lt in C|apply Z.ltb_ge in C]; lia).
        rewrite decide_False by lia. apply Hb. lia.
  - destruct (Z.of_nat t <? first_available_slab_index self) eqn:C.
    + apply Z.ltb_lt in C. lia.
    + apply Z.ltb_ge in C. lia.
  - unfold is_live, slab_at. cbn [fst snd slabs].
    rewrite Nat2Z.id, Hlook, decide_True by reflexivity.
    cbn [default from_option id]. rewrite Hclear. apply andb_false_r.
  - intros [k j] Hother. unfold is_live, slab_at. cbn [fst snd slabs].
    rewrite !Nat2Z.id, Hlook, length_insert.
    destruct (decide (k = t)) as [->|N]; [|reflexivity].
    rewrite Es. cbn [default from_option id]. unfold s'. cbn [bitmap].
    destruct (0 <=? j) eqn:J0; [|rewrite !andb_false_r; reflexivity].
    destruct (j <=? 31) eqn:J1; [|rewrite !andb_false_r; reflexivity].
    apply Z.leb_le in J0, J1.
    rewrite land_free_bits, slot_bits_low by lia.
    assert ((j =? index) = false) as ->.
    { apply Z.eqb_neq. intros ->. apply Hother. reflexivity. }
    cbn [negb]. rewrite (andb_true_r (Z.testbit (bitmap s) j)). reflexivity.
Qed.

(** X4 (ts_tree_pool_free).  Freeing a slot that is taken, in a pool of
    the shape [pool_ok], passes the assertion: the slot is free afterwards,
    every other slot is as it was, no slab is added or removed,
    [first_available_slab_index] becomes the index of the slot's slab if
    that is lower, and the pool keeps the shape. *)
Theorem pool_free_live (self : TreePool) (tree : TreePtr) :
  pool_ok self -> is_live self tree = true ->
  exists self',
    ts_tree_pool_free self tree = Some self' /\
    pool_ok self' /\
    length (slabs self') = length (slabs self) /\
    first_available_slab_index self'
      = Z.min (Z.of_nat (fst tree)) (first_available_slab_index self) /\
    is_live self' tree = false /\
    forall other, other <> tree -> is_live self' other = is_live self other.
Proof. exact (pool_free_spec self tree). Qed.

Lemma pool_free_live_witness :
  exists self',
    ts_tree_pool_free (mkTreePool [mkSlab FULL_BITMAP 0; mkSlab 6 1] 1) (0%nat, 7)
      = Some self' /\
    pool_ok self' /\
    length (slabs self') = 2%nat /\
    first_available_slab_index self' = Z.min 0 1 /\
    is_live self' (0%nat, 7) = false /\
    forall other, other <> (0%nat, 7) ->
      is_live self' other
      = is_live (mkTreePool [mkSlab FULL_BITMAP 0; mkSlab 6 1] 1) other.
Proof.
  apply (pool_free_live (mkTreePool [mkSlab FULL_BITMAP 0; mkSlab 6 1] 1) (0%nat, 7)).
  - split; [cbn; lia|].
    split; [|split; [reflexivity|cbn; intros k Hk; assert (k = 0) as -> by lia; reflexivity]].
    intros [|[|k]] s H; try discriminate; injection H as <-; split; reflexivity.
  - reflexivity.
Defined.

(** X5 (ts_tree_pool_free).  In a pool of the shape [pool_ok] the
    assertion at the end of the function fails exactly for a pointer that
    no slab owns: one into a block that is not a slab's, or at an index
    outside 0 to 63 of its block. *)
Theorem pool_free_not_owned (self : TreePool) (tree : TreePtr) :
  pool_ok self ->
  (ts_tree_pool_free self tree = None <->
   (length (slabs self) <= fst tree)%nat \/ snd tree < 0 \/ 64 <= snd tree).
Proof.
  intros (Hf & Hs & Hn & Hb).
  assert (Hblocks : forall k s, slabs self !! k = Some s -> trees s = k)
    by (intros k s H; apply (Hs k s H)).
  unfold ts_tree_pool_free. split.
  - intros E.
    destruct (le_lt_dec (length (slabs self)) (fst tree)) as [G|L]; [left; exact G|].
    right.
    destruct (Z_lt_le_dec (snd tree) 0) as [N|P]; [left; exact N|].
    destruct (Z_lt_le_dec (snd tree) 64) as [I|O]; [|right; exact O].
    destruct (pool_free_from_owned (length (slabs self)) self tree Hblocks)
      as (s & _ & F); [lia|lia|].
    rewrite F in E. discriminate.
  - intros H. apply pool_free_from_foreign; [exact Hblocks|lia|exact H].
Qed.

Lemma pool_free_not_owned_witness :
  ts_tree_pool_free ts_tree_pool_init (1%nat, 0) = None.
Proof.
  apply (pool_free_not_owned ts_tree_pool_init (1%nat, 0)).
  - split; [cbn; lia|]. split; [|split; [reflexivity|cbn; intros k Hk; lia]].
    intros [|k] s H; [injection H as <-; split; reflexivity|discriminate].
  - left. cbn. lia.
Defined.

(** *** Allocating and freeing in turn *)

(** X22 (ts_tree_pool_allocate, ts_tree_pool_free).  In a pool of the
    shape [pool_ok] with fewer than 2^32 slabs, freeing the tree that was
    just allocated undoes the allocation: the slabs and
    [first_available_slab_index] are as before, except that a slab that
    the allocation had to add stays, empty, at the end. *)
Theorem pool_allocate_free_round_trip (self : TreePool) :
  pool_ok self -> Z.of_nat (length (slabs self)) < 2 ^ 32 ->
  exists self' tree extra,
    ts_tree_pool_allocate self = (self', Some tree) /\
    (extra = [] \/ extra = [mkSlab 0 (length (slabs self))]) /\
    ts_tree_pool_free self' tree
    = Some (mkTreePool (slabs self ++ extra) (first_available_slab_index self)).
Proof.
  intros Hpool Hlen.
  pose proof Hpool as (Hf & Hs & Hn & Hb).
  set (f := first_available_slab_index self) in *.
  destruct (lookup_lt_is_Some_2 (slabs self) (Z.to_nat f)) as [s Es]; [lia|].
  destruct (Hs _ _ Es) as [Ht Hok].
  destruct (pool_allocate_shape self s Hpool Hlen Es)
    as (i & extra & first' & Hi & B & L & E & Hextra & Hfirst' & Hfull' & Hbelow' & Hle).
  fold f in E, Hle.
  set (s' := mkSlab (Z.lor (bitmap s) (allocate_mask i)) (trees s)) in *.
  set (slabs1 := <[Z.to_nat f := s']> (slabs self)) in *.
  assert (Hl1 : length slabs1 = length (slabs self)) by apply length_insert.
  eexists. exists (trees s, i), extra. split; [exact E|]. split; [exact Hextra|].
  assert (Hblocks : forall k x, (slabs1 ++ extra) !! k = Some x -> trees x = k).
  { intros k x Hk. destruct (decide (k < length (slabs self))%nat) as [Lk|Gk].
    - rewrite lookup_app_l in Hk by lia. unfold slabs1 in Hk.
      destruct (decide (k = Z.to_nat f)) as [->|N].
      + rewrite list_lookup_insert_eq in Hk by lia. injection Hk as <-. exact Ht.
      + rewrite list_lookup_insert_ne in Hk by congruence. apply (Hs k x Hk).
    - rewrite lookup_app_r in Hk by lia. rewrite Hl1 in Hk.
      destruct Hextra as [->| ->]; [rewrite lookup_nil in Hk; discriminate|].
      assert (k = length (slabs self))
        by (apply lookup_lt_Some in Hk; cbn [length] in Hk; lia).
      subst k. rewrite Nat.sub_diag in Hk. injection Hk as <-. reflexivity. }
  unfold ts_tree_pool_free. cbn [slabs].
  destruct (pool_free_from_owned (length (slabs1 ++ extra))
              (mkTreePool (slabs1 ++ extra) first') (trees s, i))
    as (s0 & Es0 & F); cbn [slabs fst snd first_available_slab_index];
    [exact Hblocks|rewrite length_app, Hl1, Ht; lia|lia|].
  cbn [slabs fst snd first_available_slab_index] in Es0, F.
  rewrite Ht, lookup_app_l in Es0 by lia.
  unfold slabs1 in Es0. rewrite list_lookup_insert_eq in Es0 by lia.
  injection Es0 as <-.
  rewrite F, Ht. cbn [bitmap trees s'].
  rewrite lor_land_round_trip by assumption.
  rewrite insert_app_l by lia. unfold slabs1.
  rewrite list_insert_insert_eq.
  replace (mkSlab (bitmap s) (trees s)) with s by (destruct s; reflexivity).
  rewrite list_insert_id by exact Es.
  rewrite Z2Nat.id by lia.
  destruct (f <? first') eqn:C; [reflexivity|].
  apply Z.ltb_ge in C. replace first' with f by lia. reflexivity.
Qed.

Lemma pool_allocate_free_round_trip_witness :
  exists self' tree extra,
    ts_tree_pool_allocate (mkTreePool [mkSlab (2 ^ 31 - 1) 0] 0) = (self', Some tree) /\
    (extra = [] \/ extra = [mkSlab 0 1]) /\
    ts_tree_pool_free self' tree
    = Some (mkTreePool ([mkSlab (2 ^ 31 - 1) 0] ++ extra) 0).
Proof.
  apply (pool_allocate_free_round_trip (mkTreePool [mkSlab (2 ^ 31 - 1) 0] 0)).
  - split; [cbn; lia|]. split; [|split; [reflexivity|cbn; intros k Hk; lia]].
    intros [|k] s H; [injection H as <-; split; reflexivity|discriminate].
  - cbn. lia.
Defined.

(** X23 (ts_tree_pool_free, ts_tree_pool_allocate).  In a pool of the
    shape [pool_ok] with fewer than 2^32 slabs, the allocation that
    follows the freeing of a slot returns that slot or a lower one: a slot
    of an earlier slab, or a slot of the same slab at the same index or
    below. *)
Theorem pool_free_then_allocate (self : TreePool) (tree : TreePtr) :
  pool_ok self -> Z.of_nat (length (slabs self)) < 2 ^ 32 ->
  is_live self tree = true ->
  exists self1 self2 next,
    ts_tree_pool_free self tree = Some self1 /\
    ts_tree_pool_allocate self1 = (self2, Some next) /\
    ((fst next < fst tree)%nat \/ (fst next = fst tree /\ snd next <= snd tree)) /\
    (next = tree \/ is_live self next = false).
Proof.
  intros Hpool Hlen Hlive.
  destruct (pool_free_spec self tree Hpool Hlive)
    as (self1 & Efree & Hpool1 & Hlen1 & Hfirst1 & Hdead & Hothers).
  destruct (pool_allocate_spec self1 Hpool1)
    as (self2 & next & Ealloc & _ & Hslab & Hlower & _ & Hfree & _); [lia|].
  exists self1, self2, next. split; [exact Efree|]. split; [exact Ealloc|].
  assert (Hle : (fst next <= fst tree)%nat) by lia.
  split.
  - destruct (decide (fst next = fst tree)) as [Eq|Ne]; [|left; lia].
    right. split; [exact Eq|].
    destruct (Z_le_gt_dec (snd next) (snd tree)) as [Le|Gt]; [exact Le|].
    exfalso.
    assert (H0 : 0 <= snd tree).
    { unfold is_live in Hlive. apply andb_true_iff in Hlive. destruct Hlive as [Hlive _].
      apply andb_true_iff in Hlive. destruct Hlive as [Hlive _].
      apply andb_true_iff in Hlive. destruct Hlive as [_ Hlive]. apply Z.leb_le, Hlive. }
    specialize (Hlower (snd tree) ltac:(lia)).
    rewrite Eq in Hlower. destruct tree as [k i]. cbn [fst snd] in *.
    rewrite Hdead in Hlower. discriminate.
  - destruct (decide (next = tree)) as [Eq|Ne]; [left; exact Eq|right].
    rewrite <- (Hothers next Ne). exact Hfree.
Qed.

Lemma pool_free_then_allocate_witness :
  exists self1 self2 next,
    ts_tree_pool_free (mkTreePool [mkSlab FULL_BITMAP 0; mkSlab 6 1] 1) (0%nat, 7)
      = Some self1 /\
    ts_tree_pool_allocate self1 = (self2, Some next) /\
    ((fst next < 0)%nat \/ (fst next = 0%nat /\ snd next <= 7)) /\
    (next = (0%nat, 7) \/
     is_live (mkTreePool [mkSlab FULL_BITMAP 0; mkSlab 6 1] 1) next = false).
Proof.
  apply (pool_free_then_allocate (mkTreePool [mkSlab FULL_BITMAP 0; mkSlab 6 1] 1)
           (0%nat, 7)).
  - split; [cbn; lia|].
    split; [|split; [reflexivity|cbn; intros k Hk; assert (k = 0) as -> by lia; reflexivity]].
    intros [|[|k]] s H; try discriminate; injection H as <-; split; reflexivity.
  - cbn. lia.
  - reflexivity.
Defined.

(** *** The allocations that follow [ts_tree_pool_init] *)

Lemma ones_bitmap_ok (r : Z) : 0 <= r <= 31 -> bitmap_ok (2 ^ r - 1) = true.
Proof.
  intros H.
  assert (E : forallb (fun r => bitmap_ok (2 ^ r - 1)) (seqZ 0 32) = true)
    by (vm_compute; reflexivity).
  rewrite forallb_forall in E. apply E, list_elem_of_In, elem_of_seqZ. lia.
Qed.

Lemma ones_lor_mask (r : Z) :
  0 <= r <= 31 ->
  Z.lor (2 ^ r - 1) (allocate_mask r) = if r =? 31 then FULL_BITMAP else 2 ^ (r + 1) - 1.
Proof.
  intros H.
  assert (E : forallb (fun r => Z.lor (2 ^ r - 1) (allocate_mask r)
                                =? (if r =? 31 then FULL_BITMAP else 2 ^ (r + 1) - 1))
                (seqZ 0 32) = true)
    by (vm_compute; reflexivity).
  rewrite forallb_forall in E. apply Z.eqb_eq, E, list_elem_of_In, elem_of_seqZ. lia.
Qed.

Lemma ones_allocate (r : Z) (block : nat) :
  0 <= r <= 31 ->
  tree_pool_slab__allocate (mkSlab (2 ^ r - 1) block)
  = (mkSlab (if r =? 31 then FULL_BITMAP else 2 ^ (r + 1) - 1) block, Some (block, r)).
Proof.
  intros H. rewrite <- ones_lor_mask by exact H.
  assert (B : forall k, 0 <= k -> Z.testbit (2 ^ r - 1) k = (k <? r)).
  { intros k Hk. replace (2 ^ r - 1) with (Z.ones r) by (rewrite Z.ones_equiv; lia).
    apply Z.testbit_ones_nonneg; lia. }
  apply (slab_scan_finds _ (mkSlab (2 ^ r - 1) block) 0 r); cbn [bitmap]; try lia.
  - right. apply ones_bitmap_ok. exact H.
  - change (Z.to_nat SLAB_SIZE) with 64%nat. lia.
  - intros k Hk. rewrite B by lia. apply Z.ltb_lt. lia.
  - rewrite B by lia. apply Z.ltb_irrefl.
Qed.

Lemma pool_after_allocate (m : nat) :
  ts_tree_pool_allocate (pool_after m)
  = (pool_after (S m), Some ((m / 32)%nat, Z.of_nat (m mod 32))).
Proof.
  set (q := (m / 32)%nat). set (r := (m mod 32)%nat).
  assert (Hm : m = (32 * q + r)%nat) by (apply Nat.div_mod_eq).
  assert (Hr : (r < 32)%nat) by (apply Nat.mod_upper_bound; lia).
  set (fulls := map (mkSlab FULL_BITMAP) (seq 0 q)).
  assert (Hfulls : length fulls = q) by (unfold fulls; rewrite length_map, length_seq; reflexivity).
  assert (P : pool_after m
              = mkTreePool (fulls ++ [mkSlab (2 ^ Z.of_nat r - 1) q]) (Z.of_nat q))
    by reflexivity.
  rewrite P. unfold ts_tree_pool_allocate, slab_at.
  cbn [slabs first_available_slab_index].
  rewrite Nat2Z.id, (list_lookup_middle fulls [] _ q) by (symmetry; exact Hfulls).
  cbn [default from_option id].
  rewrite ones_allocate by lia.
  rewrite insert_app_r_alt by lia. rewrite Hfulls, Nat.sub_diag. cbn [insert list_insert].
  destruct (Z.of_nat r =? 31) eqn:E.
  - apply Z.eqb_eq in E.
    assert (Hq' : (S m / 32)%nat = S q)
      by (symmetry; apply (Nat.div_unique _ _ _ 0%nat); lia).
    assert (Hr' : (S m mod 32)%nat = 0%nat)
      by (symmetry; apply (Nat.mod_unique _ _ (S q)); lia).
    change (tree_pool_slab__is_full (mkSlab FULL_BITMAP q)) with true. cbv iota.
    cbn [slabs]. rewrite length_app, Hfulls. cbn [length].
    replace (q + 1 - S q)%nat with 0%nat by lia. cbn [next_available].
    unfold ts_tree_pool__add_slab, pool_after. cbn [slabs].
    rewrite Hq', Hr', length_app, Hfulls. cbn [length].
    rewrite seq_S, map_app. cbn [map]. fold fulls.
    replace (q + 1)%nat with (S q) by lia.
    f_equal.
  - apply Z.eqb_neq in E.
    assert (Hq' : (S m / 32)%nat = q)
      by (symmetry; apply (Nat.div_unique _ _ _ (S r)); lia).
    assert (Hr' : (S m mod 32)%nat = S r)
      by (symmetry; apply (Nat.mod_unique _ _ q); lia).
    assert (F : tree_pool_slab__is_full (mkSlab (2 ^ (Z.of_nat r + 1) - 1) q) = false).
    { unfold tree_pool_slab__is_full, FULL_BITMAP. cbn [bitmap]. apply Z.eqb_neq.
      assert (2 ^ (Z.of_nat r + 1) <= 2 ^ 31) by (apply Z.pow_le_mono_r; lia). lia. }
    rewrite F. unfold pool_after. rewrite Hq', Hr'. fold fulls.
    replace (Z.of_nat (S r)) with (Z.of_nat r + 1) by lia. reflexivity.
Qed.

Lemma allocate_many_from (n : nat) :
  forall m : nat,
    allocate_many n (pool_after m)
    = (pool_after (m + n),
       map (fun k : nat => Some ((k / 32)%nat, Z.of_nat (k mod 32))) (seq m n)).
Proof.
  induction n as [|n IH]; intros m.
  - rewrite Nat.add_0_r. reflexivity.
  - cbn [allocate_many]. rewrite pool_after_allocate, IH.
    replace (S m + n)%nat with (m + S n)%nat by lia. reflexivity.
Qed.

(** X6 (ts_tree_pool_allocate, ts_tree_pool_init).  The n allocations
    that follow [ts_tree_pool_init] return, in this order, the slots
    k mod 32 of the slabs k / 32, for k from 0 to n - 1: every slab gives
    out its slots 0 to 31 and no other, and the pool is left with n / 32
    full slabs and one slab with n mod 32 slots taken. *)
Theorem allocate_many_fresh_pool (n : nat) :
  allocate_many n ts_tree_pool_init
  = (pool_after n,
     map (fun k : nat => Some ((k / 32)%nat, Z.of_nat (k mod 32))) (seq 0 n)).
Proof. exact (allocate_many_from n 0). Qed.

End TreePool.

(** ** Choosing between two trees: [parser__select_tree] *)

Module Select.

(** Modelled from the spec: [ts_tree_compare] is defined in [tree.c],
    which is not among the sources.  It compares the symbols, then the
    numbers of children, then the children in order, recursively, and
    answers -1, 0 or 1.  [depth] bounds the descent through the store. *)
Fixpoint ts_tree_compare_to (depth : nat) (store : TreeStore) (left right : Tree) : Z :=
  if symbol left <? symbol right then -1
  else if symbol right <? symbol left then 1
  else if child_count left <? child_count right then -1
  else if child_count right <? child_count left then 1
  else
    match depth with
    | O => 0
    | S depth' =>
      (fix each (ls rs : list TreePtr) {struct ls} : Z :=
         match ls, rs with
         | l :: ls', r :: rs' =>
           match store !! l, store !! r with
           | Some lt, Some rt =>
             let c := ts_tree_compare_to depth' store lt rt in
             if c =? 0 then each ls' rs' else c
           | _, _ => each ls' rs'
           end
         | _, _ => 0
         end) (children left) (children right)
    end.

(** No tree of a store is deeper than the store is large. *)
Definition ts_tree_compare (store : TreeStore) (left right : Tree) : Z :=
  ts_tree_compare_to (S (base.size store)) store left right.

(** [left] and [right] are what the two pointers point to, [None] for a
    null pointer; [true] selects [right]. *)
Definition parser__select_tree (store : TreeStore) (left right : option Tree) : bool :=
  match left, right with
  | None, _ => true
  | Some _, None => false
  | Some l, Some r =>
    if error_cost r <? error_cost l then true
    else if error_cost l <? error_cost r then false
    else if dynamic_precedence l <? dynamic_precedence r then true
    else if dynamic_precedence r <? dynamic_precedence l then false
    else if 0 <? error_cost l then true
    else
      let comparison := ts_tree_compare store l r in
      if comparison =? -1 then false
      else if comparison =? 1 then true
      else false
  end.

(** C2 (parser__select_tree), as the code has it.  For every pair of
    trees a and b: the tree with the smaller error cost is chosen; at
    equal error costs the tree with the larger dynamic precedence; when
    both are equal and the error cost is zero, the structural compare
    decides and a is kept unless the compare answers 1; when both are
    equal and the error cost is not zero, b is chosen and the trees are
    not compared. *)
Theorem select_tree_order (store : TreeStore) (a b : Tree) :
  (error_cost b < error_cost a -> parser__select_tree store (Some a) (Some b) = true) /\
  (error_cost a < error_cost b -> parser__select_tree store (Some a) (Some b) = false) /\
  (error_cost a = error_cost b -> dynamic_precedence a < dynamic_precedence b ->
   parser__select_tree store (Some a) (Some b) = true) /\
  (error_cost a = error_cost b -> dynamic_precedence b < dynamic_precedence a ->
   parser__select_tree store (Some a) (Some b) = false) /\
  (error_cost a = error_cost b -> dynamic_precedence a = dynamic_precedence b ->
   error_cost a = 0 ->
   parser__select_tree store (Some a) (Some b) = (ts_tree_compare store a b =? 1)) /\
  (error_cost a = error_cost b -> dynamic_precedence a = dynamic_precedence b ->
   0 < error_cost a ->
   parser__select_tree store (Some a) (Some b) = true).
Proof.
  unfold parser__select_tree.
  repeat split.
  - intros H. apply Z.ltb_lt in H. rewrite H. reflexivity.
  - intros H.
    assert ((error_cost b <? error_cost a) = false) as -> by (apply Z.ltb_ge; lia).
    apply Z.ltb_lt in H. rewrite H. reflexivity.
  - intros E H. rewrite E, Z.ltb_irrefl.
    apply Z.ltb_lt in H. rewrite H. reflexivity.
  - intros E H. rewrite E, Z.ltb_irrefl.
    assert ((dynamic_precedence a <? dynamic_precedence b) = false) as ->
      by (apply Z.ltb_ge; lia).
    apply Z.ltb_lt in H. rewrite H. reflexivity.
  - intros E1 E2 E3. rewrite <- E1, E2, E3, !Z.ltb_irrefl.
    destruct (ts_tree_compare store a b =? -1) eqn:C1;
      destruct (ts_tree_compare store a b =? 1) eqn:C2; try reflexivity.
    apply Z.eqb_eq in C1, C2. lia.
  - intros E1 E2 H. rewrite <- E1, E2, !Z.ltb_irrefl.
    apply Z.ltb_lt in H. rewrite H. reflexivity.
Qed.

(** A leaf with the given symbol, error cost and dynamic precedence. *)
Definition a_leaf (sym cost precedence : Z) : Tree :=
  mkTree sym 0 (mkLength 0 0 0 0) (mkLength 1 1 0 1) [] 1 precedence cost
         true true false false false false false sym (mkLexMode 0 0) 1 [].

Lemma select_tree_order_witness :
  parser__select_tree ∅ (Some (a_leaf 3 5 0)) (Some (a_leaf 3 4 0)) = true /\
  parser__select_tree ∅ (Some (a_leaf 3 4 0)) (Some (a_leaf 3 5 9)) = false /\
  parser__select_tree ∅ (Some (a_leaf 3 4 0)) (Some (a_leaf 3 4 1)) = true /\
  parser__select_tree ∅ (Some (a_leaf 3 4 1)) (Some (a_leaf 3 4 0)) = false /\
  parser__select_tree ∅ (Some (a_leaf 3 0 1)) (Some (a_leaf 2 0 1))
    = (ts_tree_compare ∅ (a_leaf 3 0 1) (a_leaf 2 0 1) =? 1) /\
  parser__select_tree ∅ (Some (a_leaf 2 4 1)) (Some (a_leaf 3 4 1)) = true.
Proof.
  split; [|split; [|split; [|split; [|split]]]].
  - exact (proj1 (select_tree_order ∅ (a_leaf 3 5 0) (a_leaf 3 4 0)) eq_refl).
  - exact (proj1 (proj2 (select_tree_order ∅ (a_leaf 3 4 0) (a_leaf 3 5 9))) eq_refl).
  - exact (proj1 (proj2 (proj2 (select_tree_order ∅ (a_leaf 3 4 0) (a_leaf 3 4 1))))
             eq_refl eq_refl).
  - exact (proj1 (proj2 (proj2 (proj2 (select_tree_order ∅ (a_leaf 3 4 1) (a_leaf 3 4 0)))))
             eq_refl eq_refl).
  - exact (proj1 (proj2 (proj2 (proj2 (proj2
             (select_tree_order ∅ (a_leaf 3 0 1) (a_leaf 2 0 1))))))
             eq_refl eq_refl eq_refl).
  - exact (proj2 (proj2 (proj2 (proj2 (proj2
             (select_tree_order ∅ (a_leaf 2 4 1) (a_leaf 3 4 1))))))
             eq_refl eq_refl eq_refl).
Defined.

(** C2, as it is stated, fails.  Two leaves with error cost 4 and equal
    dynamic precedence, the first with the smaller symbol: the structural
    compare answers -1, for the first, and the second is chosen; and of
    two equal leaves with error cost 4 the second is chosen, not the one
    that was there. *)
Lemma select_tree_order_counterexample :
  error_cost (a_leaf 2 4 1) = error_cost (a_leaf 3 4 1) /\
  dynamic_precedence (a_leaf 2 4 1) = dynamic_precedence (a_leaf 3 4 1) /\
  ts_tree_compare ∅ (a_leaf 2 4 1) (a_leaf 3 4 1) = -1 /\
  parser__select_tree ∅ (Some (a_leaf 2 4 1)) (Some (a_leaf 3 4 1)) = true /\
  ts_tree_compare ∅ (a_leaf 2 4 1) (a_leaf 2 4 1) = 0 /\
  parser__select_tree ∅ (Some (a_leaf 2 4 1)) (Some (a_leaf 2 4 1)) = true.
Proof. repeat split. Qed.

(** *** [parser__replace_children] *)

(** [tree] with the array of its children replaced. *)
Definition with_children (t : Tree) (kids : list TreePtr) : Tree :=
  mkTree (symbol t) (parse_state t) (padding t) (size t) kids (ref_count t)
         (dynamic_precedence t) (error_cost t) (visible t) (named t) (extra t)
         (fragile_left t) (fragile_right t) (has_changes t) (has_external_tokens t)
         (first_leaf_symbol t) (first_leaf_lex_mode t) (bytes_scanned t)
         (external_token_state t).

Section WithSetChildren.

(** [ts_tree_set_children] is a function of [tree.c], which is not among
    the sources: what it makes of a tree and of the children it is given
    is a parameter. *)
Variable ts_tree_set_children : TreeStore -> Tree -> list TreePtr -> Tree.

(** [tree] is the record [*tree], [kids] are the [count] trees at
    [children]; the function returns the record it leaves in [*tree] and
    its answer. *)
Definition parser__replace_children (store : TreeStore) (tree : Tree)
    (kids : list TreePtr) : Tree * bool :=
  let scratch_tree := ts_tree_set_children store (with_children tree []) kids in
  if parser__select_tree store (Some tree) (Some scratch_tree)
  then (scratch_tree, true)
  else (tree, false).

(** The tree that [parser__select_tree] chooses is not the worse one. *)
Lemma select_tree_choice (store : TreeStore) (l r : Tree) :
  if parser__select_tree store (Some l) (Some r)
  then error_cost r <= error_cost l /\
       (error_cost r = error_cost l -> dynamic_precedence l <= dynamic_precedence r)
  else error_cost l <= error_cost r /\
       (error_cost l = error_cost r -> dynamic_precedence r <= dynamic_precedence l).
Proof.
  unfold parser__select_tree.
  destruct (error_cost r <? error_cost l) eqn:E1; [apply Z.ltb_lt in E1; lia|].
  destruct (error_cost l <? error_cost r) eqn:E2; [apply Z.ltb_lt in E2; lia|].
  apply Z.ltb_ge in E1, E2.
  destruct (dynamic_precedence l <? dynamic_precedence r) eqn:P1;
    [apply Z.ltb_lt in P1; lia|].
  destruct (dynamic_precedence r <? dynamic_precedence l) eqn:P2;
    [apply Z.ltb_lt in P2; lia|].
  apply Z.ltb_ge in P1, P2.
  destruct (0 <? error_cost l); [lia|].
  destruct (ts_tree_compare store l r =? -1); [lia|].
  destruct (ts_tree_compare store l r =? 1); lia.
Qed.

(** X11 (parser__replace_children, parser__select_tree).  Whatever
    [ts_tree_set_children] makes of the children it is given, the tree
    that the function leaves in [*tree] has an error cost that is not
    larger than before and, at the same error cost, a dynamic precedence
    that is not smaller; the function answers false exactly when it
    leaves the tree as it was, and true when it leaves the tree made of
    the new children. *)
Theorem replace_children_never_worse (store : TreeStore) (tree : Tree)
    (kids : list TreePtr) :
  let result := parser__replace_children store tree kids in
  error_cost (fst result) <= error_cost tree /\
  (error_cost (fst result) = error_cost tree ->
   dynamic_precedence tree <= dynamic_precedence (fst result)) /\
  (snd result = false -> fst result = tree) /\
  (snd result = true ->
   fst result = ts_tree_set_children store (with_children tree []) kids).
Proof.
  unfold parser__replace_children.
  pose proof (select_tree_choice store tree
                (ts_tree_set_children store (with_children tree []) kids)) as H.
  destruct (parser__select_tree store (Some tree)
              (Some (ts_tree_set_children store (with_children tree []) kids)));
    cbn [fst snd].
  - destruct H as [H1 H2]. split; [exact H1|]. split; [exact H2|].
    split; [discriminate|reflexivity].
  - split; [lia|]. split; [lia|]. split; [reflexivity|discriminate].
Qed.

End WithSetChildren.

End Select.

(** ** The driver: lexing, the lookahead, shifting *)

Module Driver.

Import Versions TreePool.

(** *** What the driver works on *)

(** The fields of [Lexer] ([lexer.h]) that [parser.c] reads and writes;
    [lookahead] and [result_symbol] are those of [lexer.data]. *)
Record Lexer : Type := mkLexer {
  current_position : Length;
  token_start_position : Length;
  token_end_position : Length;
  lookahead : Z;
  result_symbol : TSSymbol
}.

Definition set_token_end_position (lexer : Lexer) (position : Length) : Lexer :=
  mkLexer (current_position lexer) (token_start_position lexer) position
          (lookahead lexer) (result_symbol lexer).

Definition set_result_symbol (lexer : Lexer) (sym : TSSymbol) : Lexer :=
  mkLexer (current_position lexer) (token_start_position lexer)
          (token_end_position lexer) (lookahead lexer) sym.

(** The actions of the parse table (section 6 of the specification). *)
Inductive TSParseAction : Type :=
| TSParseActionTypeShift (state : TSStateId) (extra : bool)
| TSParseActionTypeReduce (sym : TSSymbol) (count : Z) (precedence : Z)
                          (alias_sequence_id : Z) (fragile extra : bool)
| TSParseActionTypeAccept
| TSParseActionTypeRecover.

Record TableEntry : Type := mkTableEntry {
  actions : list TSParseAction;
  is_reusable : bool;
  depends_on_lookahead : bool
}.

(** The language, as the driver consults it: the tables behind the
    accessors of [language.h], the generated lex function and the
    callbacks of the external scanner, which act on the lexer and on the
    scanner's own state. *)
Record TSLanguage (Payload : Type) : Type := mkLanguage {
  lex_modes : TSStateId -> TSLexMode;
  lex_fn : Lexer -> Z -> bool * Lexer;
  ts_language_enabled_external_tokens : Z -> option (list bool);
  ts_language_table_entry : TSStateId -> TSSymbol -> TableEntry;
  ts_language_next_state : TSStateId -> TSSymbol -> TSStateId;
  scan : Payload -> Lexer -> list bool -> bool * Payload * Lexer;
  serialize : Payload -> list Z;
  deserialize : Payload -> list Z -> Payload;
  symbol_map : Z -> TSSymbol
}.

Arguments lex_modes {Payload}.
Arguments lex_fn {Payload}.
Arguments ts_language_enabled_external_tokens {Payload}.
Arguments ts_language_table_entry {Payload}.
Arguments ts_language_next_state {Payload}.
Arguments scan {Payload}.
Arguments serialize {Payload}.
Arguments deserialize {Payload}.
Arguments symbol_map {Payload}.

(** The messages of the [LOG] macro, with the logger switched on. *)
Inductive RejectReason : Type :=
| reason_has_changes | reason_is_error | reason_is_fragile | reason_in_ambiguity.

Inductive LogEvent : Type :=
| lex_external (external_lex_state : Z)
| disregard_empty_token
| lex_internal (lex_state : Z)
| retry_in_error_mode
| skip_unrecognized_character
| lexed_lookahead (sym : TSSymbol) (size_bytes : Z)
| before_reusable_node (sym : TSSymbol)
| past_reusable_node (sym : TSSymbol)
| reusable_node_has_different_external_scanner_state (sym : TSSymbol)
| cant_reuse_node_because (reason : RejectReason) (sym : TSSymbol)
| cant_reuse_node (sym first_leaf : TSSymbol)
| reuse_node (sym : TSSymbol)
| breakdown_top_of_stack (sym : TSSymbol).

Record TokenCache : Type := mkTokenCache {
  cache_token : option TreePtr;
  cache_last_external_token : option TreePtr;
  cache_byte_index : Z
}.

(** The fields of [Parser] that the functions below use; [trees] is the
    memory the pool's slots stand for. *)
Record Parser (Payload : Type) : Type := mkParser {
  lexer : Lexer;
  stack : Stack;
  tree_pool : TreePool;
  trees : TreeStore;
  finished_tree : option TreePtr;
  in_ambiguity : bool;
  token_cache : TokenCache;
  external_scanner_payload : Payload;
  log : list LogEvent
}.

Arguments mkParser {Payload}.
Arguments lexer {Payload}.
Arguments stack {Payload}.
Arguments tree_pool {Payload}.
Arguments trees {Payload}.
Arguments finished_tree {Payload}.
Arguments in_ambiguity {Payload}.
Arguments token_cache {Payload}.
Arguments external_scanner_payload {Payload}.
Arguments log {Payload}.

(** *** Subtrees in memory

    Modelled from the spec: the functions of [tree.c], which is not
    among the sources (sections 3 and 4.B of the specification). *)

Definition with_ref_count (t : Tree) (n : Z) : Tree :=
  mkTree (symbol t) (parse_state t) (padding t) (size t) (children t) n
         (dynamic_precedence t) (error_cost t) (visible t) (named t) (extra t)
         (fragile_left t) (fragile_right t) (has_changes t) (has_external_tokens t)
         (first_leaf_symbol t) (first_leaf_lex_mode t) (bytes_scanned t)
         (external_token_state t).

Definition with_extra (t : Tree) (b : bool) : Tree :=
  mkTree (symbol t) (parse_state t) (padding t) (size t) (children t) (ref_count t)
         (dynamic_precedence t) (error_cost t) (visible t) (named t) b
         (fragile_left t) (fragile_right t) (has_changes t) (has_external_tokens t)
         (first_leaf_symbol t) (first_leaf_lex_mode t) (bytes_scanned t)
         (external_token_state t).

(** Modelled from the spec: [ts_tree_retain] ([tree.c]) adds a reference. *)
Definition ts_tree_retain (store : TreeStore) (tree : TreePtr) : TreeStore :=
  alter (fun t => with_ref_count t (wrap32 (ref_count t + 1))) tree store.

(** Modelled from the spec: [ts_tree_total_bytes] ([tree.h]), the padding
    and the size of a tree. *)
Definition ts_tree_total_bytes (t : Tree) : Z :=
  wrap32 (bytes (padding t) + bytes (size t)).

(** Modelled from the spec: [ts_tree_external_token_state_eq]
    ([tree.c]).  Two null pointers are equal, a null pointer differs from
    a tree, two trees are compared by the state the scanner serialized. *)
Definition ts_tree_external_token_state_eq (store : TreeStore)
    (a b : option TreePtr) : bool :=
  match a, b with
  | None, None => true
  | Some p, Some q =>
    match store !! p, store !! q with
    | Some t, Some u =>
      bool_decide (external_token_state t = external_token_state u)
    | _, _ => bool_decide (p = q)
    end
  | _, _ => false
  end.

(** A tree that has just been made takes a slot of the pool. *)
Definition publish_tree (pool : TreePool) (store : TreeStore) (t : Tree)
    : option (TreePool * TreeStore * TreePtr) :=
  match ts_tree_pool_allocate pool with
  | (pool', Some p) => Some (pool', <[p := t]> store, p)
  | (_, None) => None
  end.

(** Modelled from the spec: [ts_tree_release] ([tree.c]) drops a
    reference; a tree whose count reaches zero returns to its slab and
    drops its references to its children.  [tree_stack] is the stack of
    trees still to release, as in the pool's [tree_stack]. *)
Fixpoint release_trees (fuel : nat) (pool : TreePool) (store : TreeStore)
    (tree_stack : list TreePtr) : option (TreePool * TreeStore) :=
  match tree_stack with
  | [] => Some (pool, store)
  | tree :: rest =>
    match fuel with
    | O => None
    | S fuel' =>
      match store !! tree with
      | None => None
      | Some t =>
        let n := wrap32 (ref_count t - 1) in
        if n =? 0 then
          match ts_tree_pool_free pool tree with
          | None => None
          | Some pool' => release_trees fuel' pool' (delete tree store) (children t ++ rest)
          end
        else release_trees fuel' pool (<[tree := with_ref_count t n]> store) rest
      end
    end
  end.

Definition ts_tree_release (fuel : nat) (pool : TreePool) (store : TreeStore)
    (tree : TreePtr) : option (TreePool * TreeStore) :=
  release_trees fuel pool store [tree].

(** *** The cursor into the previous tree

    Modelled from the spec: [reusable_node.h] is not among the sources
    (section 4.C of the specification).  The cursor is the tree it points
    to, the trees that follow it in the previous tree (its next siblings,
    then those of its parent, and so on), the byte offset of the tree and
    the last external token before it. *)
Record ReusableNode : Type := mkReusableNode {
  node_tree : option TreePtr;
  node_following : list TreePtr;
  node_byte_index : Z;
  node_last_external_token : option TreePtr
}.

(** Modelled from the spec: [reusable_node_new] ([reusable_node.h]) puts
    the cursor on the root of the previous tree, at byte 0. *)
Definition reusable_node_new (previous_tree : option TreePtr) : ReusableNode :=
  mkReusableNode previous_tree [] 0 None.

(** *** Updates of the parser's fields *)

Definition set_trees {Payload} (self : Parser Payload) (store : TreeStore) : Parser Payload :=
  mkParser (lexer self) (stack self) (tree_pool self) store (finished_tree self)
           (in_ambiguity self) (token_cache self) (external_scanner_payload self)
           (log self).

Definition set_memory {Payload} (self : Parser Payload) (pool : TreePool)
    (store : TreeStore) : Parser Payload :=
  mkParser (lexer self) (stack self) pool store (finished_tree self)
           (in_ambiguity self) (token_cache self) (external_scanner_payload self)
           (log self).

Definition set_stack {Payload} (self : Parser Payload) (stack' : Stack) : Parser Payload :=
  mkParser (lexer self) stack' (tree_pool self) (trees self) (finished_tree self)
           (in_ambiguity self) (token_cache self) (external_scanner_payload self)
           (log self).

Definition set_token_cache {Payload} (self : Parser Payload) (cache : TokenCache)
    : Parser Payload :=
  mkParser (lexer self) (stack self) (tree_pool self) (trees self) (finished_tree self)
           (in_ambiguity self) cache (external_scanner_payload self) (log self).

Definition add_log {Payload} (self : Parser Payload) (event : LogEvent) : Parser Payload :=
  mkParser (lexer self) (stack self) (tree_pool self) (trees self) (finished_tree self)
           (in_ambiguity self) (token_cache self) (external_scanner_payload self)
           (log self ++ [event]).

Record StackSlice : Type := mkStackSlice {
  slice_trees : list TreePtr;
  slice_version : StackVersion
}.

Section WithLanguage.

Context {Payload : Type}.
Variable language : TSLanguage Payload.

(** Constants of headers that are not among the sources. *)
Variable ERROR_STATE : TSStateId.
Variable ts_builtin_sym_error : TSSymbol.

(** Functions of [lexer.c], [length.h] and [tree.c], which are not among
    the sources: the driver's use of them is modelled, not what they do.
    [advance] is [lexer.data.advance]. *)
Variable ts_lexer_reset : Lexer -> Length -> Lexer.
Variable ts_lexer_start : Lexer -> Lexer.
Variable advance : Lexer -> bool -> Lexer.
Variable length_has_unknown_chars : Length -> bool.
Variable length_sub : Length -> Length -> Length.
Variable ts_tree_make_leaf : TSSymbol -> Length -> Length -> Tree.
Variable ts_tree_make_error : Length -> Length -> Z -> Tree.

(** *** [parser__lex] *)

Definition parser__restore_external_scanner (store : TreeStore) (payload : Payload)
    (external_token : option TreePtr) : Payload :=
  match external_token with
  | Some p =>
    match store !! p with
    | Some t => deserialize language payload (external_token_state t)
    | None => deserialize language payload []
    end
  | None => deserialize language payload []
  end.

(** [if (lexer.current_position.bytes > last_byte_scanned) last_byte_scanned = ...] *)
Definition scanned_so_far (lexer : Lexer) (last_byte_scanned : Z) : Z :=
  if last_byte_scanned <? bytes (current_position lexer)
  then bytes (current_position lexer) else last_byte_scanned.

(** What the block [if (valid_external_tokens) { ... }] of the loop
    leaves behind. *)
Record ExternalAttempt : Type := mkExternalAttempt {
  found_external_token : bool;
  attempt_lexer : Lexer;
  attempt_payload : Payload;
  attempt_log : list LogEvent;
  attempt_last_byte_scanned : Z
}.

(** The block itself, lines 317 to 347, for the tokens [valid] that the
    lex mode enables.  With [found_external_token] set the loop is left
    by [break]. *)
Definition lex_external_attempt (store : TreeStore) (external_token : option TreePtr)
    (lex_mode : TSLexMode) (valid : list bool) (error_mode : bool)
    (lexer : Lexer) (payload : Payload) (log : list LogEvent) (last_byte_scanned : Z)
    : ExternalAttempt :=
  let current := current_position lexer in
  let log1 := log ++ [lex_external (external_lex_state lex_mode)] in
  let lexer1 := ts_lexer_start lexer in
  let payload1 := parser__restore_external_scanner store payload external_token in
  let '(scanned, payload2, lexer2) := scan language payload1 lexer1 valid in
  let abandon (lexer' : Lexer) (log' : list LogEvent) :=
    mkExternalAttempt false (ts_lexer_reset lexer' current) payload2 log'
                      (scanned_so_far lexer' last_byte_scanned) in
  if scanned then
    let lexer3 :=
      if length_has_unknown_chars (token_end_position lexer2)
      then set_token_end_position lexer2 (current_position lexer2)
      else lexer2 in
    if error_mode && (bytes (token_end_position lexer3) <=? bytes current)
    then abandon lexer3 (log1 ++ [disregard_empty_token])
    else mkExternalAttempt true lexer3 payload2 log1 last_byte_scanned
  else abandon lexer2 log1.

(** The locals of [parser__lex] when its loop is left. *)
Record Lexed : Type := mkLexed {
  lexed_lexer : Lexer;
  lexed_payload : Payload;
  lexed_log : list LogEvent;
  lexed_lex_mode : TSLexMode;
  lexed_found_external_token : bool;
  lexed_skipped_error : bool;
  lexed_first_error_character : Z;
  lexed_error_start_position : Length;
  lexed_error_end_position : Length;
  lexed_last_byte_scanned : Z
}.

(** The loop [for (;;)], one turn for each unit of [fuel]. *)
Fixpoint lex_loop (fuel : nat) (store : TreeStore) (start_position : Length)
    (external_token : option TreePtr)
    (lexer : Lexer) (payload : Payload) (log : list LogEvent)
    (lex_mode : TSLexMode) (valid_external_tokens : option (list bool))
    (skipped_error error_mode : bool) (first_error_character : Z)
    (error_start_position error_end_position : Length) (last_byte_scanned : Z)
    : option Lexed :=
  match fuel with
  | O => None
  | S fuel' =>
    let attempt :=
      match valid_external_tokens with
      | Some valid =>
        lex_external_attempt store external_token lex_mode valid error_mode
                             lexer payload log last_byte_scanned
      | None => mkExternalAttempt false lexer payload log last_byte_scanned
      end in
    if found_external_token attempt then
      Some (mkLexed (attempt_lexer attempt) (attempt_payload attempt) (attempt_log attempt)
                    lex_mode true skipped_error first_error_character
                    error_start_position error_end_position
                    (attempt_last_byte_scanned attempt))
    else
      let payload1 := attempt_payload attempt in
      let last1 := attempt_last_byte_scanned attempt in
      let log1 := attempt_log attempt ++ [lex_internal (lex_state lex_mode)] in
      let lexer1 := ts_lexer_start (attempt_lexer attempt) in
      let '(lexed, lexer2) := lex_fn language lexer1 (lex_state lex_mode) in
      if lexed then
        let lexer3 :=
          if length_has_unknown_chars (token_end_position lexer2)
          then set_token_end_position lexer2 (current_position lexer2)
          else lexer2 in
        Some (mkLexed lexer3 payload1 log1 lex_mode false skipped_error
                      first_error_character error_start_position error_end_position last1)
      else if negb error_mode then
        let lex_mode' := lex_modes language ERROR_STATE in
        lex_loop fuel' store start_position external_token
          (ts_lexer_reset lexer2 start_position) payload1 (log1 ++ [retry_in_error_mode])
          lex_mode'
          (ts_language_enabled_external_tokens language (external_lex_state lex_mode'))
          skipped_error true first_error_character
          error_start_position error_end_position (scanned_so_far lexer2 last1)
      else
        let log2 := if skipped_error then log1 else log1 ++ [skip_unrecognized_character] in
        let error_start := if skipped_error then error_start_position
                           else token_start_position lexer2 in
        let error_end := if skipped_error then error_end_position
                         else token_start_position lexer2 in
        let first_char := if skipped_error then first_error_character
                          else lookahead lexer2 in
        if bytes (current_position lexer2) =? bytes error_end then
          if lookahead lexer2 =? 0 then
            Some (mkLexed (set_result_symbol lexer2 ts_builtin_sym_error) payload1 log2
                          lex_mode false true first_char error_start error_end last1)
          else
            let lexer3 := advance lexer2 false in
            lex_loop fuel' store start_position external_token lexer3 payload1 log2
              lex_mode valid_external_tokens true error_mode first_char
              error_start (current_position lexer3) last1
        else
          lex_loop fuel' store start_position external_token lexer2 payload1 log2
            lex_mode valid_external_tokens true error_mode first_char
            error_start (current_position lexer2) last1
  end.

(** The tree that [parser__lex] makes of what the loop found, before it
    is given its slot. *)
Definition lexed_tree (start_position : Length) (parse_state : TSStateId)
    (found : Lexed) : Tree :=
  let lexer := lexed_lexer found in
  let made :=
    if lexed_skipped_error found then
      let padding := length_sub (lexed_error_start_position found) start_position in
      let size := length_sub (lexed_error_end_position found)
                             (lexed_error_start_position found) in
      ts_tree_make_error size padding (lexed_first_error_character found)
    else
      let sym := if lexed_found_external_token found
                 then symbol_map language (result_symbol lexer)
                 else result_symbol lexer in
      let padding := length_sub (token_start_position lexer) start_position in
      let size := length_sub (token_end_position lexer) (token_start_position lexer) in
      ts_tree_make_leaf sym padding size in
  let external := negb (lexed_skipped_error found) && lexed_found_external_token found in
  let last := scanned_so_far lexer (lexed_last_byte_scanned found) in
  mkTree (symbol made) parse_state (padding made) (size made) (children made)
         (ref_count made) (dynamic_precedence made) (error_cost made)
         (visible made) (named made) (extra made)
         (fragile_left made) (fragile_right made) (has_changes made)
         (if external then true else has_external_tokens made)
         (first_leaf_symbol made) (lexed_lex_mode found)
         (wrap32 (wrap32 (last - bytes start_position) + 1))
         (if external then serialize language (lexed_payload found)
          else external_token_state made).

Definition parser__lex (fuel : nat) (self : Parser Payload) (version : StackVersion)
    (parse_state : TSStateId) : option (Parser Payload * TreePtr) :=
  let start_position := ts_stack_top_position (stack self) version in
  let external_token := ts_stack_last_external_token (stack self) version in
  let lex_mode := lex_modes language parse_state in
  let valid_external_tokens :=
    ts_language_enabled_external_tokens language (external_lex_state lex_mode) in
  let error_mode := parse_state =? ERROR_STATE in
  match lex_loop fuel (trees self) start_position external_token
          (ts_lexer_reset (lexer self) start_position)
          (external_scanner_payload self) (log self)
          lex_mode valid_external_tokens false error_mode 0
          (mkLength 0 0 0 0) (mkLength 0 0 0 0) (bytes start_position) with
  | None => None
  | Some found =>
    let result := lexed_tree start_position parse_state found in
    match publish_tree (tree_pool self) (trees self) result with
    | None => None
    | Some (pool, store, p) =>
      Some (mkParser (lexed_lexer found) (stack self) pool store (finished_tree self)
                     (in_ambiguity self) (token_cache self) (lexed_payload found)
                     (lexed_log found
                      ++ [lexed_lookahead (symbol result) (bytes (size result))]),
            p)
    end
  end.

(** *** The cursor's moves *)

(** A function of [tree.c], which is not among the sources. *)
Variable ts_tree_last_external_token : TreeStore -> TreePtr -> option TreePtr.

(** Modelled from the spec: [reusable_node_pop] ([reusable_node.h]) moves
    to the next sibling or, after the last one, to the next sibling of an
    ancestor, and keeps the byte offset and the last external token. *)
Definition reusable_node_pop (store : TreeStore) (self : ReusableNode) : ReusableNode :=
  match node_tree self with
  | None => self
  | Some p =>
    match store !! p with
    | None => self
    | Some t =>
      mkReusableNode (head (node_following self)) (tail (node_following self))
        (wrap32 (node_byte_index self + ts_tree_total_bytes t))
        (if has_external_tokens t then ts_tree_last_external_token store p
         else node_last_external_token self)
    end
  end.

(** Modelled from the spec: [reusable_node_breakdown]
    ([reusable_node.h]) replaces the position by its first child; it fails
    on a leaf. *)
Definition reusable_node_breakdown (store : TreeStore) (self : ReusableNode)
    : ReusableNode * bool :=
  match node_tree self with
  | None => (self, false)
  | Some p =>
    match store !! p with
    | None => (self, false)
    | Some t =>
      match children t with
      | [] => (self, false)
      | first :: others =>
        (mkReusableNode (Some first) (others ++ node_following self)
           (node_byte_index self) (node_last_external_token self), true)
      end
    end
  end.

(** The descent to the first leaf, of at most [depth] levels. *)
Fixpoint reusable_node_descend (depth : nat) (store : TreeStore) (self : ReusableNode)
    : ReusableNode :=
  match depth with
  | O => self
  | S depth' =>
    let '(self', descended) := reusable_node_breakdown store self in
    if descended then reusable_node_descend depth' store self' else self
  end.

(** Modelled from the spec: [reusable_node_pop_leaf]
    ([reusable_node.h]) skips the leaf at the position, the first leaf of
    the tree there, and advances. *)
Definition reusable_node_pop_leaf (store : TreeStore) (self : ReusableNode) : ReusableNode :=
  reusable_node_pop store (reusable_node_descend (S (base.size store)) store self).

(** *** The token cache *)

Definition parser__get_cached_token (self : Parser Payload) (byte_index : Z)
    (last_external_token : option TreePtr) : option TreePtr :=
  let cache := token_cache self in
  match cache_token cache with
  | Some token =>
    if (cache_byte_index cache =? byte_index)
       && ts_tree_external_token_state_eq (trees self)
            (cache_last_external_token cache) last_external_token
    then Some token else None
  | None => None
  end.

Definition retain_if (store : TreeStore) (tree : option TreePtr) : TreeStore :=
  match tree with Some p => ts_tree_retain store p | None => store end.

Definition release_if (fuel : nat) (pool : TreePool) (store : TreeStore)
    (tree : option TreePtr) : option (TreePool * TreeStore) :=
  match tree with Some p => ts_tree_release fuel pool store p | None => Some (pool, store) end.

Definition parser__set_cached_token (fuel : nat) (self : Parser Payload) (byte_index : Z)
    (last_external_token token : option TreePtr) : option (Parser Payload) :=
  let cache := token_cache self in
  let store1 := retain_if (retain_if (trees self) token) last_external_token in
  match release_if fuel (tree_pool self) store1 (cache_token cache) with
  | None => None
  | Some (pool2, store2) =>
    match release_if fuel pool2 store2 (cache_last_external_token cache) with
    | None => None
    | Some (pool3, store3) =>
      Some (set_token_cache (set_memory self pool3 store3)
              (mkTokenCache token last_external_token byte_index))
    end
  end.

(** *** [parser__can_reuse_first_leaf] *)

Definition parser__can_reuse_first_leaf (state : TSStateId) (tree : Tree)
    (table_entry : TableEntry) : bool :=
  let current_lex_mode := lex_modes language state in
  ((lex_state (first_leaf_lex_mode tree) =? lex_state current_lex_mode)
   && (external_lex_state (first_leaf_lex_mode tree) =? external_lex_state current_lex_mode))
  || ((external_lex_state current_lex_mode =? 0)
      && (0 <? bytes (size tree))
      && is_reusable table_entry
      && (negb (depends_on_lookahead table_entry)
          || ((1 <? child_count tree) && (error_cost tree =? 0)))).

(** *** [parser__breakdown_top_of_stack]

    The functions of [stack.c] that push and pop links are parameters;
    a link that is pushed holds a reference to its tree. *)
Variable ts_stack_pop_pending : Stack -> StackVersion -> Stack * list StackSlice.
Variable ts_stack_push :
  Stack -> StackVersion -> option TreePtr -> bool -> TSStateId -> Stack.
Variable ts_stack_decrease_push_count : Stack -> StackVersion -> Z -> Stack.
Variable ts_stack_set_last_external_token :
  Stack -> StackVersion -> option TreePtr -> Stack.

(** [for (uint32_t j = 0; j < parent->child_count; j++)]: the children of
    [parent] are pushed in turn. *)
Fixpoint push_children (store : TreeStore) (stack : Stack) (version : StackVersion)
    (state : TSStateId) (pending : bool) (kids : list TreePtr)
    : option (TreeStore * Stack * TSStateId * bool) :=
  match kids with
  | [] => Some (store, stack, state, pending)
  | child :: kids' =>
    match store !! child with
    | None => None
    | Some c =>
      let pending' := 0 <? child_count c in
      let state' :=
        if symbol c =? ts_builtin_sym_error then ERROR_STATE
        else if negb (extra c) then ts_language_next_state language state (symbol c)
        else state in
      push_children (ts_tree_retain store child)
        (ts_stack_push stack version (Some child) pending' state')
        version state' pending' kids'
    end
  end.

(** [for (uint32_t j = 1; j < slice.trees.size; j++)]: the trees that
    were above [parent] are pushed back. *)
Fixpoint push_back (fuel : nat) (pool : TreePool) (store : TreeStore) (stack : Stack)
    (version : StackVersion) (state : TSStateId) (others : list TreePtr)
    : option (TreePool * TreeStore * Stack) :=
  match others with
  | [] => Some (pool, store, stack)
  | tree :: others' =>
    match ts_tree_release fuel pool (ts_tree_retain store tree) tree with
    | None => None
    | Some (pool', store') =>
      push_back fuel pool' store' (ts_stack_push stack version (Some tree) false state)
        version state others'
    end
  end.

(** [for (uint32_t i = 0; i < pop.slices.size; i++)]. *)
Fixpoint breakdown_slices (fuel : nat) (self : Parser Payload) (pending : bool)
    (slices : list StackSlice) : option (Parser Payload * bool) :=
  match slices with
  | [] => Some (self, pending)
  | slice :: slices' =>
    match slice_trees slice with
    | [] => None
    | parent :: others =>
      match trees self !! parent with
      | None => None
      | Some t =>
        let state := ts_stack_top_state (stack self) (slice_version slice) in
        match push_children (trees self) (stack self) (slice_version slice)
                state pending (children t) with
        | None => None
        | Some (store1, stack1, state1, pending1) =>
          match push_back fuel (tree_pool self) store1 stack1 (slice_version slice)
                  state1 others with
          | None => None
          | Some (pool2, store2, stack2) =>
            let stack3 := ts_stack_decrease_push_count stack2 (slice_version slice)
                            (wrap32 (child_count t + 1)) in
            match ts_tree_release fuel pool2 store2 parent with
            | None => None
            | Some (pool4, store4) =>
              breakdown_slices fuel
                (add_log (set_memory (set_stack self stack3) pool4 store4)
                         (breakdown_top_of_stack (symbol t)))
                pending1 slices'
            end
          end
        end
      end
    end
  end.

(** [do { ... } while (pending)]; the function returns [did_break_down]. *)
Fixpoint breakdown_turns (fuel turns : nat) (self : Parser Payload)
    (version : StackVersion) (did_break_down : bool) : option (Parser Payload * bool) :=
  match turns with
  | O => None
  | S turns' =>
    let '(stack1, slices) := ts_stack_pop_pending (stack self) version in
    match slices with
    | [] => Some (set_stack self stack1, did_break_down)
    | _ :: _ =>
      match breakdown_slices fuel (set_stack self stack1) false slices with
      | None => None
      | Some (self', pending) =>
        if pending then breakdown_turns fuel turns' self' version true
        else Some (self', true)
      end
    end
  end.

Definition parser__breakdown_top_of_stack (fuel : nat) (self : Parser Payload)
    (version : StackVersion) : option (Parser Payload * bool) :=
  breakdown_turns fuel fuel self version false.

(** *** [parser__get_lookahead] *)

(** The tests that set [reason], lines 492 to 501. *)
Definition reject_reason (self : Parser Payload) (result : Tree) : option RejectReason :=
  if has_changes result then Some reason_has_changes
  else if symbol result =? ts_builtin_sym_error then Some reason_is_error
  else if fragile_left result || fragile_right result then Some reason_is_fragile
  else if in_ambiguity self && (0 <? child_count result) then Some reason_in_ambiguity
  else None.

(** How one turn of the loop [while ((result = reusable_node->tree))]
    ends: by [continue], by [break], or by [return result]. *)
Inductive ReuseStep : Type :=
| reuse_continue (self : Parser Payload) (node : ReusableNode) (state : TSStateId)
| reuse_break (self : Parser Payload) (node : ReusableNode)
| reuse_return (self : Parser Payload) (node : ReusableNode) (result : TreePtr)
               (table_entry : TableEntry).

(** The body of the loop, for the tree [result] that the cursor [node]
    points to, which is the record [t] in memory. *)
Definition reuse_step (fuel : nat) (self : Parser Payload) (version : StackVersion)
    (position : Length) (last_external_token : option TreePtr) (state : TSStateId)
    (node : ReusableNode) (result : TreePtr) (t : Tree) : option ReuseStep :=
  if bytes position <? node_byte_index node then
    Some (reuse_break (add_log self (before_reusable_node (symbol t))) node)
  else if node_byte_index node <? bytes position then
    Some (reuse_continue (add_log self (past_reusable_node (symbol t)))
            (reusable_node_pop (trees self) node) state)
  else if negb (ts_tree_external_token_state_eq (trees self)
                  (node_last_external_token node) last_external_token) then
    Some (reuse_continue
            (add_log self (reusable_node_has_different_external_scanner_state (symbol t)))
            (reusable_node_pop (trees self) node) state)
  else
    match reject_reason self t with
    | Some reason =>
      let self1 := add_log self (cant_reuse_node_because reason (symbol t)) in
      let '(node1, descended) := reusable_node_breakdown (trees self1) node in
      if descended then Some (reuse_continue self1 node1 state)
      else
        let node2 := reusable_node_pop (trees self1) node1 in
        match parser__breakdown_top_of_stack fuel self1 version with
        | None => None
        | Some (self2, _) =>
          Some (reuse_continue self2 node2 (ts_stack_top_state (stack self2) version))
        end
    | None =>
      let table_entry := ts_language_table_entry language state (first_leaf_symbol t) in
      if negb (parser__can_reuse_first_leaf state t table_entry) then
        Some (reuse_break (add_log self (cant_reuse_node (symbol t) (first_leaf_symbol t)))
                (reusable_node_pop_leaf (trees self) node))
      else
        let self1 := add_log self (reuse_node (symbol t)) in
        Some (reuse_return (set_trees self1 (ts_tree_retain (trees self1) result))
                node result table_entry)
    end.

(** How the loop ends: it leaves the function with a tree of the previous
    parse, or it is left without one. *)
Inductive ReuseEnd : Type :=
| reuse_found (self : Parser Payload) (node : ReusableNode) (state : TSStateId)
              (result : TreePtr) (table_entry : TableEntry)
| reuse_none (self : Parser Payload) (node : ReusableNode) (state : TSStateId).

Fixpoint reuse_loop (fuel turns : nat) (self : Parser Payload) (version : StackVersion)
    (position : Length) (last_external_token : option TreePtr) (state : TSStateId)
    (node : ReusableNode) : option ReuseEnd :=
  match turns with
  | O => None
  | S turns' =>
    match node_tree node with
    | None => Some (reuse_none self node state)
    | Some result =>
      match trees self !! result with
      | None => None
      | Some t =>
        match reuse_step fuel self version position last_external_token state
                node result t with
        | None => None
        | Some (reuse_continue self' node' state') =>
          reuse_loop fuel turns' self' version position last_external_token state' node'
        | Some (reuse_break self' node') => Some (reuse_none self' node' state)
        | Some (reuse_return self' node' result' table_entry) =>
          Some (reuse_found self' node' state result' table_entry)
        end
      end
    end
  end.

(** What the function returns: the parser, the cursor and the state it
    leaves, the lookahead and the table entry. *)
Record Lookahead : Type := mkLookahead {
  lookahead_parser : Parser Payload;
  lookahead_node : ReusableNode;
  lookahead_state : TSStateId;
  lookahead_tree : TreePtr;
  lookahead_entry : TableEntry
}.

(** Lines 529 to 540: the token cache, then the lexer. *)
Definition lookahead_without_reuse (fuel : nat) (self : Parser Payload)
    (version : StackVersion) (position : Length)
    (last_external_token : option TreePtr) (state : TSStateId) (node : ReusableNode)
    : option Lookahead :=
  let lex_it :=
    match parser__lex fuel self version state with
    | None => None
    | Some (self1, result) =>
      match parser__set_cached_token fuel self1 (bytes position) last_external_token
              (Some result) with
      | None => None
      | Some self2 =>
        match trees self2 !! result with
        | None => None
        | Some t =>
          Some (mkLookahead self2 node state result
                  (ts_language_table_entry language state (symbol t)))
        end
      end
    end in
  match parser__get_cached_token self (bytes position) last_external_token with
  | Some result =>
    match trees self !! result with
    | None => None
    | Some t =>
      let table_entry := ts_language_table_entry language state (first_leaf_symbol t) in
      if parser__can_reuse_first_leaf state t table_entry
      then Some (mkLookahead (set_trees self (ts_tree_retain (trees self) result))
                   node state result table_entry)
      else lex_it
    end
  | None => lex_it
  end.

Definition parser__get_lookahead (fuel : nat) (self : Parser Payload)
    (version : StackVersion) (state : TSStateId) (reusable_node : ReusableNode)
    : option Lookahead :=
  let position := ts_stack_top_position (stack self) version in
  let last_external_token := ts_stack_last_external_token (stack self) version in
  match reuse_loop fuel fuel self version position last_external_token state
          reusable_node with
  | None => None
  | Some (reuse_found self' node state' result table_entry) =>
    Some (mkLookahead self' node state' result table_entry)
  | Some (reuse_none self' node state') =>
    lookahead_without_reuse fuel self' version position last_external_token state' node
  end.

(** *** [parser__shift] *)

(** Modelled from the spec: [ts_tree_make_copy] ([tree.c]) is a shallow
    copy in a new slot, with one reference; the children are shared and
    each gains a reference. *)
Definition ts_tree_make_copy (pool : TreePool) (store : TreeStore) (self : TreePtr)
    : option (TreePool * TreeStore * TreePtr) :=
  match store !! self with
  | None => None
  | Some t =>
    match ts_tree_pool_allocate pool with
    | (pool', Some copy) =>
      Some (pool', <[copy := with_ref_count t 1]> (foldl ts_tree_retain store (children t)),
            copy)
    | (_, None) => None
    end
  end.

(** Lines 595 to 604: the tree that will be pushed, with one more
    reference to it and with its [extra] flag as asked. *)
Definition shift_subject (pool : TreePool) (store : TreeStore) (stack : Stack)
    (lookahead : TreePtr) (t : Tree) (extra_flag : bool)
    : option (TreePool * TreeStore * TreePtr) :=
  if negb (eqb extra_flag (extra t)) then
    if 1 <? ts_stack_version_count stack then
      match ts_tree_make_copy pool store lookahead with
      | None => None
      | Some (pool', store', copy) =>
        Some (pool', alter (fun c => with_extra c extra_flag) copy store', copy)
      end
    else
      Some (pool,
            alter (fun c => with_extra c extra_flag) lookahead
                  (ts_tree_retain store lookahead),
            lookahead)
  else Some (pool, ts_tree_retain store lookahead, lookahead).

Definition parser__shift (fuel : nat) (self : Parser Payload) (version : StackVersion)
    (state : TSStateId) (lookahead : TreePtr) (extra_flag : bool)
    : option (Parser Payload) :=
  match trees self !! lookahead with
  | None => None
  | Some t =>
    match shift_subject (tree_pool self) (trees self) (stack self) lookahead t extra_flag with
    | None => None
    | Some (pool1, store1, lookahead1) =>
      match store1 !! lookahead1 with
      | None => None
      | Some t1 =>
        let is_pending := 0 <? child_count t1 in
        let stack1 := ts_stack_push (stack self) version (Some lookahead1) is_pending state in
        let store2 := ts_tree_retain store1 lookahead1 in
        let stack2 :=
          if has_external_tokens t1
          then ts_stack_set_last_external_token stack1 version
                 (ts_tree_last_external_token store2 lookahead1)
          else stack1 in
        match ts_tree_release fuel pool1 store2 lookahead1 with
        | None => None
        | Some (pool3, store3) => Some (set_memory (set_stack self stack2) pool3 store3)
        end
      end
    end
  end.

(** *** The last tree of a slice that is not extra

    [parser__reduce] (lines 641 to 644) leaves the trailing extras of a
    slice out of the parent it makes:
    [while (child_count > 0 && slice.trees.contents[child_count - 1]->extra)
    child_count--;] from [child_count = slice.trees.size].  A tree that is
    not in memory cannot be read: [None]. *)
Fixpoint reduce_child_count (store : TreeStore) (slice : list TreePtr)
    (child_count : nat) : option nat :=
  match child_count with
  | O => Some O
  | S below =>
    match slice !! below with
    | None => None
    | Some p =>
      match store !! p with
      | None => None
      | Some t =>
        if extra t then reduce_child_count store slice below else Some child_count
      end
    end
  end.

(** [parser__accept] (lines 741 to 753) looks for the tree that becomes
    the root: [for (uint32_t j = trees.size - 1; j + 1 > 0; j--)], left by
    [break] at the first [j] whose tree is not extra.  [count] is [j + 1];
    the loop that ends without a [break] leaves [root] null, and the
    assertion that follows fails: [None]. *)
Fixpoint accept_root_index (store : TreeStore) (slice : list TreePtr) (count : nat)
    : option nat :=
  match count with
  | O => None
  | S j =>
    match slice !! j with
    | None => None
    | Some p =>
      match store !! p with
      | None => None
      | Some child => if negb (extra child) then Some j else accept_root_index store slice j
      end
    end
  end.

(** The tree of the slice that the root is made of (lines 736 to 756):
    the only tree of a slice of one, whatever its flags, and otherwise
    the one that the loop finds. *)
Definition accept_root_source (store : TreeStore) (slice : list TreePtr) : option TreePtr :=
  match slice with
  | [only] => Some only
  | _ =>
    match accept_root_index store slice (length slice) with
    | Some j => slice !! j
    | None => None
    end
  end.

(** Whether the tree at index [k] of a slice is extra. *)
Definition is_extra_at (store : TreeStore) (slice : list TreePtr) (k : nat) : bool :=
  match slice !! k with
  | Some p =>
    match store !! p with
    | Some t => extra t
    | None => false
    end
  | None => false
  end.

(** C3 (parser__lex), as the code has it.  When the loop of
    [parser__lex] comes to a turn in which external tokens are valid in
    the lex mode and the external scanner returns true, the token ends the
    loop, with [found_external_token] set, unless the lexer is in error
    mode and the token does not end past the position at which the scan
    began: outside error mode it ends the loop whatever its length, in
    error mode exactly when it ends past that position.  A token that is
    disregarded is logged as such and the lexer is put back where the scan
    began.  When the token ends the loop, [parser__lex] returns a new
    tree: if no character has been skipped as an error in the turns
    before, the leaf of the scanner's symbol, as [symbol_map] gives it,
    with [has_external_tokens] set and the state that the scanner
    serializes; if characters have been skipped, the error leaf that
    covers them, which is not an external token. *)
Theorem lex_external_commit (turns fuel : nat) (self : Parser Payload)
    (version : StackVersion) (parse_state : TSStateId)
    (lex_mode : TSLexMode) (valid : list bool) (skipped_error error_mode : bool)
    (lexer0 : Lexer) (payload : Payload) (log0 : list LogEvent)
    (first_error_character : Z) (error_start_position error_end_position : Length)
    (last_byte_scanned : Z) (payload' : Payload) (lexer' : Lexer) :
  let start_position := ts_stack_top_position (stack self) version in
  let external_token := ts_stack_last_external_token (stack self) version in
  let token_end :=
    if length_has_unknown_chars (token_end_position lexer')
    then current_position lexer' else token_end_position lexer' in
  let attempt :=
    lex_external_attempt (trees self) external_token lex_mode valid error_mode
                         lexer0 payload log0 last_byte_scanned in
  lex_loop (turns + S fuel) (trees self) start_position external_token
    (ts_lexer_reset (lexer self) start_position) (external_scanner_payload self) (log self)
    (lex_modes language parse_state)
    (ts_language_enabled_external_tokens language
       (external_lex_state (lex_modes language parse_state)))
    false (parse_state =? ERROR_STATE) 0 (mkLength 0 0 0 0) (mkLength 0 0 0 0)
    (bytes start_position)
  = lex_loop (S fuel) (trees self) start_position external_token lexer0 payload log0
      lex_mode (Some valid) skipped_error error_mode first_error_character
      error_start_position error_end_position last_byte_scanned ->
  scan language (parser__restore_external_scanner (trees self) payload external_token)
       (ts_lexer_start lexer0) valid = (true, payload', lexer') ->
  (error_mode = false -> found_external_token attempt = true) /\
  (error_mode = true ->
   found_external_token attempt = (bytes (current_position lexer0) <? bytes token_end)) /\
  (found_external_token attempt = false ->
   attempt_log attempt
   = log0 ++ [lex_external (external_lex_state lex_mode); disregard_empty_token] /\
   attempt_lexer attempt
   = ts_lexer_reset (set_token_end_position lexer' token_end) (current_position lexer0)) /\
  (found_external_token attempt = true ->
   forall pool' p,
     ts_tree_pool_allocate (tree_pool self) = (pool', Some p) ->
     exists self' t,
       parser__lex (turns + S fuel) self version parse_state = Some (self', p) /\
       trees self' = <[p := t]> (trees self) /\
       tree_pool self' = pool' /\
       lexer self' = set_token_end_position lexer' token_end /\
       external_scanner_payload self' = payload' /\
       log self'
       = log0 ++ [lex_external (external_lex_state lex_mode);
                  lexed_lookahead (symbol t) (bytes (size t))] /\
       let made :=
         if skipped_error
         then ts_tree_make_error (length_sub error_end_position error_start_position)
                (length_sub error_start_position start_position) first_error_character
         else ts_tree_make_leaf (symbol_map language (result_symbol lexer'))
                (length_sub (token_start_position lexer') start_position)
                (length_sub token_end (token_start_position lexer')) in
       symbol t = symbol made /\ padding t = padding made /\ size t = size made /\
       has_external_tokens t = (if skipped_error then has_external_tokens made else true) /\
       external_token_state t
       = (if skipped_error then external_token_state made
          else serialize language payload')).
Proof.
  intros start_position external_token token_end attempt Hrun Hscan.
  assert (Hend : token_end_position
            (if length_has_unknown_chars (token_end_position lexer')
             then set_token_end_position lexer' (current_position lexer')
             else lexer') = token_end).
  { subst token_end. destruct (length_has_unknown_chars (token_end_position lexer'));
      reflexivity. }
  assert (Hlex : (if length_has_unknown_chars (token_end_position lexer')
                  then set_token_end_position lexer' (current_position lexer')
                  else lexer') = set_token_end_position lexer' token_end).
  { subst token_end. destruct (length_has_unknown_chars (token_end_position lexer'));
      [reflexivity|]. destruct lexer'; reflexivity. }
  assert (Hattempt : attempt =
    if error_mode && (bytes token_end <=? bytes (current_position lexer0))
    then mkExternalAttempt false
           (ts_lexer_reset (set_token_end_position lexer' token_end) (current_position lexer0))
           payload'
           ((log0 ++ [lex_external (external_lex_state lex_mode)]) ++ [disregard_empty_token])
           (scanned_so_far (set_token_end_position lexer' token_end) last_byte_scanned)
    else mkExternalAttempt true (set_token_end_position lexer' token_end) payload'
           (log0 ++ [lex_external (external_lex_state lex_mode)]) last_byte_scanned).
  { subst attempt. unfold lex_external_attempt. rewrite Hscan. cbv zeta.
    rewrite Hend, Hlex. reflexivity. }
  split; [|split; [|split]].
  - intros ->. rewrite Hattempt. reflexivity.
  - intros ->. rewrite Hattempt. cbn [andb].
    destruct (bytes token_end <=? bytes (current_position lexer0)) eqn:E; cbn.
    + symmetry. apply Z.ltb_ge. apply Z.leb_le in E. lia.
    + symmetry. apply Z.ltb_lt. apply Z.leb_gt in E. lia.
  - intros Hfound. rewrite Hattempt in Hfound |- *.
    destruct (error_mode && (bytes token_end <=? bytes (current_position lexer0)));
      [|discriminate].
    cbn [attempt_log attempt_lexer]. rewrite <- app_assoc. split; reflexivity.
  - intros Hfound pool' p Halloc.
    assert (Hloop :
      lex_loop (S fuel) (trees self) start_position external_token lexer0 payload log0
        lex_mode (Some valid) skipped_error error_mode first_error_character
        error_start_position error_end_position last_byte_scanned
      = Some (mkLexed (set_token_end_position lexer' token_end) payload'
                (log0 ++ [lex_external (external_lex_state lex_mode)])
                lex_mode true skipped_error first_error_character
                error_start_position error_end_position last_byte_scanned)).
    { cbn [lex_loop]. fold attempt. rewrite Hfound.
      rewrite Hattempt in Hfound |- *.
      destruct (error_mode && (bytes token_end <=? bytes (current_position lexer0)));
        [discriminate|reflexivity]. }
    rewrite Hloop in Hrun.
    unfold parser__lex. fold start_position external_token. rewrite Hrun.
    unfold publish_tree. rewrite Halloc.
    eexists. eexists. split; [reflexivity|].
    cbn [trees tree_pool lexer external_scanner_payload log
         lexed_lexer lexed_payload lexed_log].
    split; [reflexivity|]. split; [reflexivity|]. split; [reflexivity|].
    split; [reflexivity|].
    split; [rewrite <- app_assoc; reflexivity|].
    unfold lexed_tree.
    cbn [lexed_lexer lexed_payload lexed_skipped_error lexed_found_external_token
         lexed_error_start_position lexed_error_end_position
         lexed_first_error_character
         symbol padding size has_external_tokens external_token_state
         token_start_position token_end_position result_symbol
         set_token_end_position].
    destruct skipped_error; cbn [negb andb]; repeat split; reflexivity.
Qed.

(** C4 (parser__get_lookahead), as the code has it.  For a candidate at
    the current position whose external-token state matches: when it is
    rejected because it has changes, is an error node, is fragile, or is
    interior while the parser is in ambiguity, and it has children, the
    cursor descends one level and the loop takes its next turn on the
    first child; when it is rejected for one of these reasons and is a
    leaf, the cursor moves past it, the top of the stack is broken down,
    the state is read again and the loop takes its next turn on the tree
    that follows; when none of these reasons applies and
    [parser__can_reuse_first_leaf] rejects it, the cursor moves past the
    candidate's first leaf and the loop is left, without another turn:
    [parser__get_lookahead] then takes the lookahead from the token cache
    or, failing that, from the lexer, as it does when the loop ends
    without a tree. *)
Theorem reuse_loop_rejection (fuel turns : nat) (self : Parser Payload)
    (version : StackVersion) (position : Length)
    (last_external_token : option TreePtr) (state : TSStateId)
    (node : ReusableNode) (result : TreePtr) (t : Tree) :
  node_tree node = Some result ->
  trees self !! result = Some t ->
  node_byte_index node = bytes position ->
  ts_tree_external_token_state_eq (trees self)
    (node_last_external_token node) last_external_token = true ->
  (forall reason first others,
     reject_reason self t = Some reason ->
     children t = first :: others ->
     reuse_loop fuel (S turns) self version position last_external_token state node
     = reuse_loop fuel turns
         (add_log self (cant_reuse_node_because reason (symbol t)))
         version position last_external_token state
         (mkReusableNode (Some first) (others ++ node_following node)
                         (node_byte_index node) (node_last_external_token node))) /\
  (forall reason,
     reject_reason self t = Some reason ->
     children t = [] ->
     reuse_loop fuel (S turns) self version position last_external_token state node
     = match parser__breakdown_top_of_stack fuel
               (add_log self (cant_reuse_node_because reason (symbol t))) version with
       | None => None
       | Some (self', _) =>
         reuse_loop fuel turns self' version position last_external_token
           (ts_stack_top_state (stack self') version)
           (reusable_node_pop (trees self) node)
       end) /\
  (reject_reason self t = None ->
   parser__can_reuse_first_leaf state t
     (ts_language_table_entry language state (first_leaf_symbol t)) = false ->
   reuse_loop fuel (S turns) self version position last_external_token state node
   = Some (reuse_none (add_log self (cant_reuse_node (symbol t) (first_leaf_symbol t)))
             (reusable_node_pop_leaf (trees self) node) state) /\
   (position = ts_stack_top_position (stack self) version ->
    last_external_token = ts_stack_last_external_token (stack self) version ->
    fuel = S turns ->
    parser__get_lookahead fuel self version state node
    = lookahead_without_reuse fuel
        (add_log self (cant_reuse_node (symbol t) (first_leaf_symbol t)))
        version position last_external_token state
        (reusable_node_pop_leaf (trees self) node))).
Proof.
  intros Hnode Ht Hpos Hext.
  assert (Hstep : forall k,
    reuse_loop fuel (S turns) self version position last_external_token state node = k
    <-> match reuse_step fuel self version position last_external_token state
                node result t with
        | None => None
        | Some (reuse_continue self' node' state') =>
          reuse_loop fuel turns self' version position last_external_token state' node'
        | Some (reuse_break self' node') => Some (reuse_none self' node' state)
        | Some (reuse_return self' node' result' table_entry) =>
          Some (reuse_found self' node' state result' table_entry)
        end = k).
  { intros k. cbn [reuse_loop]. rewrite Hnode, Ht. reflexivity. }
  split; [|split].
  - intros reason first others Hreason Hkids. apply Hstep.
    unfold reuse_step. rewrite Hpos, Z.ltb_irrefl, Hext. cbn [negb].
    rewrite Hreason. unfold reusable_node_breakdown. cbn [trees add_log].
    rewrite Hnode, Ht, Hkids. rewrite <- Hpos. reflexivity.
  - intros reason Hreason Hkids. apply Hstep.
    unfold reuse_step. rewrite Hpos, Z.ltb_irrefl, Hext. cbn [negb].
    rewrite Hreason. unfold reusable_node_breakdown. cbn [trees add_log].
    rewrite Hnode, Ht, Hkids.
    destruct (parser__breakdown_top_of_stack fuel _ version) as [[self' b]|];
      reflexivity.
  - intros Hreason Hcan.
    assert (Hleft :
      reuse_loop fuel (S turns) self version position last_external_token state node
      = Some (reuse_none (add_log self (cant_reuse_node (symbol t) (first_leaf_symbol t)))
                (reusable_node_pop_leaf (trees self) node) state)).
    { apply Hstep.
      unfold reuse_step. rewrite Hpos, Z.ltb_irrefl, Hext. cbn [negb].
      rewrite Hreason, Hcan. reflexivity. }
    split; [exact Hleft|].
    intros Eposition Elast Efuel.
    unfold parser__get_lookahead. rewrite <- Eposition, <- Elast.
    rewrite Efuel at 2. rewrite Hleft. reflexivity.
Qed.

(** C8 (parser__get_lookahead, parser__get_cached_token), as the code has
    it.  When the loop over the previous tree is left without a tree and
    the slot of the cache holds a token whose byte index is the position
    and whose last external token has the state of the version's: if
    [parser__can_reuse_first_leaf] accepts the token in the current state,
    the function returns the cached token with one more reference; the
    lexer, the scanner's state, the pool and the cache are as the loop
    left them and nothing is logged: the lexer does not run.  If
    [parser__can_reuse_first_leaf] rejects the token, the function does
    what [parser__lex] does from where the loop left the parser, stores
    the new token in the cache and returns it. *)
Theorem cached_token_returned (fuel : nat) (self : Parser Payload)
    (version : StackVersion) (state : TSStateId) (reusable_node : ReusableNode)
    (self1 : Parser Payload) (node1 : ReusableNode) (state1 : TSStateId)
    (token : TreePtr) (t : Tree) :
  reuse_loop fuel fuel self version (ts_stack_top_position (stack self) version)
    (ts_stack_last_external_token (stack self) version) state reusable_node
    = Some (reuse_none self1 node1 state1) ->
  cache_token (token_cache self1) = Some token ->
  cache_byte_index (token_cache self1)
    = bytes (ts_stack_top_position (stack self) version) ->
  ts_tree_external_token_state_eq (trees self1)
    (cache_last_external_token (token_cache self1))
    (ts_stack_last_external_token (stack self) version) = true ->
  trees self1 !! token = Some t ->
  (0 <= ref_count t < UINT_MAX ->
   parser__can_reuse_first_leaf state1 t
     (ts_language_table_entry language state1 (first_leaf_symbol t)) = true ->
   exists found,
     parser__get_lookahead fuel self version state reusable_node = Some found /\
     lookahead_tree found = token /\
     trees (lookahead_parser found) !! token = Some (with_ref_count t (ref_count t + 1)) /\
     (forall other, other <> token ->
        trees (lookahead_parser found) !! other = trees self1 !! other) /\
     lexer (lookahead_parser found) = lexer self1 /\
     external_scanner_payload (lookahead_parser found) = external_scanner_payload self1 /\
     tree_pool (lookahead_parser found) = tree_pool self1 /\
     token_cache (lookahead_parser found) = token_cache self1 /\
     log (lookahead_parser found) = log self1 /\
     lookahead_node found = node1 /\
     lookahead_state found = state1) /\
  (parser__can_reuse_first_leaf state1 t
     (ts_language_table_entry language state1 (first_leaf_symbol t)) = false ->
   parser__get_lookahead fuel self version state reusable_node
   = match parser__lex fuel self1 version state1 with
     | None => None
     | Some (self2, result) =>
       match parser__set_cached_token fuel self2
               (bytes (ts_stack_top_position (stack self) version))
               (ts_stack_last_external_token (stack self) version) (Some result) with
       | None => None
       | Some self3 =>
         match trees self3 !! result with
         | None => None
         | Some made =>
           Some (mkLookahead self3 node1 state1 result
                   (ts_language_table_entry language state1 (symbol made)))
         end
       end
     end).
Proof.
  intros Hloop Htoken Hindex Hext Ht.
  split.
  - intros Hcount Hcan.
    unfold parser__get_lookahead. rewrite Hloop.
    unfold lookahead_without_reuse, parser__get_cached_token.
    rewrite Htoken, Hindex, Z.eqb_refl, Hext. cbn [andb].
    rewrite Ht, Hcan.
    eexists. split; [reflexivity|].
    cbn. unfold ts_tree_retain.
    repeat split.
    + rewrite lookup_alter_eq, Ht. cbn.
      rewrite wrap32_small by (unfold UINT_MAX in Hcount; lia). reflexivity.
    + intros other Hother. apply lookup_alter_ne. congruence.
  - intros Hcan.
    unfold parser__get_lookahead. rewrite Hloop.
    unfold lookahead_without_reuse, parser__get_cached_token.
    rewrite Htoken, Hindex, Z.eqb_refl, Hext. cbn [andb].
    rewrite Ht, Hcan. reflexivity.
Qed.

Lemma release_trees_done (fuel : nat) (pool : TreePool) (store : TreeStore) :
  release_trees fuel pool store [] = Some (pool, store).
Proof. destruct fuel; reflexivity. Qed.

Lemma retain_children_elsewhere (kids : list TreePtr) :
  forall (store : TreeStore) (p : TreePtr),
    p ∉ kids -> foldl ts_tree_retain store kids !! p = store !! p.
Proof.
  induction kids as [|k kids IH]; intros store p Hp; [reflexivity|].
  cbn [foldl]. rewrite IH by (intros H; apply Hp; right; exact H).
  unfold ts_tree_retain. apply lookup_alter_ne.
  intros ->. apply Hp. left.
Qed.

(** C9 (parser__shift), as the code has it.  When shift has to change the
    [extra] flag of the lookahead, what decides whether a copy is made is
    the number of versions of the stack, not the reference count of the
    tree.  With more than one version the tree is copied into a fresh
    slot, the copy gets the flag and is the tree that is pushed on the
    stack, and the record of the original is left as it was.  With one
    version the original is the tree that is pushed: its flag is
    overwritten in place and it gains a reference, whatever its reference
    count.  In both cases the stack that is left is the stack after the
    push of that tree, with the version's last external token set from it
    if the tree has external tokens. *)
Theorem shift_copies_by_version_count (fuel : nat) (self : Parser Payload)
    (version : StackVersion) (state : TSStateId) (lookahead : TreePtr) (t : Tree)
    (extra_flag : bool) :
  trees self !! lookahead = Some t ->
  extra_flag <> extra t ->
  lookahead ∉ children t ->
  0 < ref_count t < UINT_MAX - 1 ->
  (1 < ts_stack_version_count (stack self) ->
   forall pool' copy,
     ts_tree_pool_allocate (tree_pool self) = (pool', Some copy) ->
     trees self !! copy = None ->
     exists self',
       parser__shift (S fuel) self version state lookahead extra_flag = Some self' /\
       trees self' !! lookahead = Some t /\
       trees self' !! copy = Some (with_extra (with_ref_count t 1) extra_flag) /\
       tree_pool self' = pool' /\
       stack self'
       = (let pushed :=
            ts_stack_push (stack self) version (Some copy) (0 <? child_count t) state in
          if has_external_tokens t
          then ts_stack_set_last_external_token pushed version
                 (ts_tree_last_external_token
                    (<[copy := with_extra (with_ref_count t 2) extra_flag]>
                       (foldl ts_tree_retain (trees self) (children t)))
                    copy)
          else pushed)) /\
  (ts_stack_version_count (stack self) <= 1 ->
   exists self',
     parser__shift (S fuel) self version state lookahead extra_flag = Some self' /\
     trees self' !! lookahead
       = Some (with_extra (with_ref_count t (ref_count t + 1)) extra_flag) /\
     (forall other, other <> lookahead -> trees self' !! other = trees self !! other) /\
     tree_pool self' = tree_pool self /\
     stack self'
     = (let pushed :=
          ts_stack_push (stack self) version (Some lookahead) (0 <? child_count t) state in
        if has_external_tokens t
        then ts_stack_set_last_external_token pushed version
               (ts_tree_last_external_token
                  (<[lookahead := with_extra (with_ref_count t (ref_count t + 2)) extra_flag]>
                     (trees self))
                  lookahead)
        else pushed)).
Proof.
  intros Ht Hflag Hkids Hcount.
  assert (Hneq : negb (eqb extra_flag (extra t)) = true).
  { destruct extra_flag, (extra t); cbn; congruence. }
  unfold UINT_MAX in Hcount.
  split.
  - intros Hversions pool' copy Halloc Hfresh.
    assert (Hcl : copy <> lookahead) by congruence.
    unfold parser__shift, shift_subject. rewrite Ht, Hneq.
    apply Z.ltb_lt in Hversions. rewrite Hversions.
    unfold ts_tree_make_copy. rewrite Ht, Halloc.
    rewrite alter_insert_eq, lookup_insert_eq.
    unfold ts_tree_release, ts_tree_retain. cbn [release_trees].
    rewrite alter_insert_eq, lookup_insert_eq.
    cbn [with_extra with_ref_count ref_count].
    change (wrap32 (wrap32 (1 + 1) - 1) =? 0) with false. cbv iota.
    rewrite release_trees_done.
    eexists. split; [reflexivity|].
    cbn [trees tree_pool stack set_memory set_stack].
    rewrite !insert_insert_eq.
    split; [|split; [|split]].
    + rewrite lookup_insert_ne by exact Hcl.
      rewrite retain_children_elsewhere by exact Hkids. exact Ht.
    + rewrite lookup_insert_eq. reflexivity.
    + reflexivity.
    + reflexivity.
  - intros Hversions.
    unfold parser__shift, shift_subject. rewrite Ht, Hneq.
    assert ((1 <? ts_stack_version_count (stack self)) = false) as ->
      by (apply Z.ltb_ge; lia).
    unfold ts_tree_release, ts_tree_retain. cbn [release_trees].
    rewrite !lookup_alter_eq, Ht. cbn [fmap option_fmap option_map].
    cbn [with_extra with_ref_count ref_count].
    rewrite (wrap32_small (ref_count t + 1)) by lia.
    rewrite (wrap32_small (ref_count t + 1 + 1)) by lia.
    replace (ref_count t + 1 + 1 - 1) with (ref_count t + 1) by lia.
    rewrite (wrap32_small (ref_count t + 1)) by lia.
    assert ((ref_count t + 1 =? 0) = false) as -> by (apply Z.eqb_neq; lia).
    rewrite release_trees_done.
    eexists. split; [reflexivity|].
    cbn [trees tree_pool stack set_memory set_stack].
    split; [|split; [|split]].
    + rewrite lookup_insert_eq. reflexivity.
    + intros other Hother.
      rewrite lookup_insert_ne by congruence.
      rewrite !lookup_alter_ne by congruence. reflexivity.
    + reflexivity.
    + assert (Hstore :
        alter (fun c => with_ref_count c (wrap32 (ref_count c + 1))) lookahead
          (alter (fun c => with_extra c extra_flag) lookahead
             (alter (fun c => with_ref_count c (wrap32 (ref_count c + 1))) lookahead
                (trees self)))
        = <[lookahead := with_extra (with_ref_count t (ref_count t + 2)) extra_flag]>
            (trees self)).
      { apply map_eq. intros other.
        destruct (decide (other = lookahead)) as [->|Hother].
        - rewrite !lookup_alter_eq, Ht, lookup_insert_eq.
          cbn [fmap option_fmap option_map with_extra with_ref_count ref_count].
          rewrite (wrap32_small (ref_count t + 1)) by lia.
          rewrite (wrap32_small (ref_count t + 1 + 1)) by lia.
          replace (ref_count t + 1 + 1) with (ref_count t + 2) by lia.
          reflexivity.
        - rewrite !lookup_alter_ne by congruence.
          rewrite lookup_insert_ne by congruence. reflexivity. }
      rewrite Hstore. reflexivity.
Qed.

(** *** The token cache and the lookahead *)

Lemma external_token_state_eq_refl (store : TreeStore) (a : option TreePtr) :
  ts_tree_external_token_state_eq store a a = true.
Proof.
  unfold ts_tree_external_token_state_eq. destruct a as [p|]; [|reflexivity].
  destruct (store !! p); apply bool_decide_eq_true_2; reflexivity.
Qed.

Lemma external_token_state_eq_retain (store : TreeStore) (p : TreePtr)
    (a b : option TreePtr) :
  ts_tree_external_token_state_eq (ts_tree_retain store p) a b
  = ts_tree_external_token_state_eq store a b.
Proof.
  unfold ts_tree_external_token_state_eq, ts_tree_retain.
  destruct a as [x|], b as [y|]; try reflexivity.
  rewrite !lookup_alter.
  destruct (decide (p = x)) as [Ex|Nx], (decide (p = y)) as [Ey|Ny]; subst;
    repeat match goal with
           | |- context [?m !! ?k] => destruct (m !! k); cbn
           end; reflexivity.
Qed.

(** What [parser__set_cached_token] leaves in the cache, and what it does
    not touch. *)
Lemma set_cached_token_result (fuel : nat) (self self' : Parser Payload)
    (byte_index : Z) (last_external_token token : option TreePtr) :
  parser__set_cached_token fuel self byte_index last_external_token token = Some self' ->
  token_cache self' = mkTokenCache token last_external_token byte_index /\
  stack self' = stack self /\
  lexer self' = lexer self.
Proof.
  unfold parser__set_cached_token. intros H.
  destruct (release_if fuel (tree_pool self) _ _) as [[pool2 store2]|]; [|discriminate].
  destruct (release_if fuel pool2 store2 _) as [[pool3 store3]|]; [|discriminate].
  injection H as <-. repeat split.
Qed.

Lemma get_cached_token_hit (self : Parser Payload) (byte_index : Z)
    (last_external_token token : option TreePtr) :
  token_cache self = mkTokenCache token last_external_token byte_index ->
  parser__get_cached_token self byte_index last_external_token = token.
Proof.
  intros H. unfold parser__get_cached_token. rewrite H. cbn.
  destruct token as [t|]; [|reflexivity].
  rewrite Z.eqb_refl, external_token_state_eq_refl. reflexivity.
Qed.

(** X12 (parser__set_cached_token, parser__get_cached_token).  What
    [parser__set_cached_token] has stored is what [parser__get_cached_token]
    answers for the same byte index and the same last external token: the
    token, or NULL if NULL was stored; for any other byte index it answers
    NULL.  Storing a token touches neither the stack nor the lexer. *)
Theorem cached_token_round_trip (fuel : nat) (self self' : Parser Payload)
    (byte_index : Z) (last_external_token token : option TreePtr) :
  parser__set_cached_token fuel self byte_index last_external_token token = Some self' ->
  parser__get_cached_token self' byte_index last_external_token = token /\
  (forall other_index other_external_token,
     other_index <> byte_index ->
     parser__get_cached_token self' other_index other_external_token = None) /\
  stack self' = stack self /\
  lexer self' = lexer self.
Proof.
  intros H. destruct (set_cached_token_result _ _ _ _ _ _ H) as (C & S & L).
  split; [apply get_cached_token_hit; exact C|].
  split; [|split; assumption].
  intros other_index other_external_token Hne.
  unfold parser__get_cached_token. rewrite C. cbn.
  destruct token as [t|]; [|reflexivity].
  assert ((byte_index =? other_index) = false) as -> by (apply Z.eqb_neq; congruence).
  reflexivity.
Qed.

(** X13 (parser__get_lookahead).  When the loop over the previous tree
    ends without a tree, the lookahead that the function returns, be it
    the cached token or the token that the lexer has made, is afterwards
    the token of the cache for the position and the last external token
    of the version; the cursor and the state are as the loop left them
    and the stack is untouched. *)
Theorem lookahead_is_cached (fuel : nat) (self : Parser Payload)
    (version : StackVersion) (state : TSStateId) (reusable_node : ReusableNode)
    (self1 : Parser Payload) (node1 : ReusableNode) (state1 : TSStateId)
    (found : Lookahead) :
  reuse_loop fuel fuel self version (ts_stack_top_position (stack self) version)
    (ts_stack_last_external_token (stack self) version) state reusable_node
    = Some (reuse_none self1 node1 state1) ->
  parser__get_lookahead fuel self version state reusable_node = Some found ->
  parser__get_cached_token (lookahead_parser found)
    (bytes (ts_stack_top_position (stack self) version))
    (ts_stack_last_external_token (stack self) version)
  = Some (lookahead_tree found) /\
  lookahead_node found = node1 /\
  lookahead_state found = state1 /\
  stack (lookahead_parser found) = stack self1.
Proof.
  intros Hloop. unfold parser__get_lookahead. rewrite Hloop.
  set (position := ts_stack_top_position (stack self) version).
  set (ext := ts_stack_last_external_token (stack self) version).
  unfold lookahead_without_reuse.
  assert (Hlex :
    match parser__lex fuel self1 version state1 with
    | None => None
    | Some (self2, result) =>
      match parser__set_cached_token fuel self2 (bytes position) ext (Some result) with
      | None => None
      | Some self3 =>
        match trees self3 !! result with
        | None => None
        | Some t =>
          Some (mkLookahead self3 node1 state1 result
                  (ts_language_table_entry language state1 (symbol t)))
        end
      end
    end = Some found ->
    parser__get_cached_token (lookahead_parser found) (bytes position) ext
    = Some (lookahead_tree found) /\
    lookahead_node found = node1 /\ lookahead_state found = state1 /\
    stack (lookahead_parser found) = stack self1).
  { destruct (parser__lex fuel self1 version state1) as [[self2 result]|] eqn:El;
      [|discriminate].
    destruct (parser__set_cached_token fuel self2 (bytes position) ext (Some result))
      as [self3|] eqn:Es; [|discriminate].
    destruct (trees self3 !! result) as [t|]; [|discriminate].
    intros [= <-]. cbn [lookahead_parser lookahead_tree lookahead_node lookahead_state].
    destruct (set_cached_token_result _ _ _ _ _ _ Es) as (C & S3 & _).
    split; [apply get_cached_token_hit; exact C|].
    split; [reflexivity|]. split; [reflexivity|].
    rewrite S3. unfold parser__lex in El.
    destruct (lex_loop _ _ _ _ _ _ _ _ _ _ _ _ _ _ _) as [lexed|]; [|discriminate].
    destruct (publish_tree _ _ _) as [[[pool store] p]|]; [|discriminate].
    injection El as <- _. reflexivity. }
  destruct (parser__get_cached_token self1 (bytes position) ext) as [cached|] eqn:Eg;
    [|exact Hlex].
  destruct (trees self1 !! cached) as [t|]; [|discriminate].
  destruct (parser__can_reuse_first_leaf state1 t _); [|exact Hlex].
  intros [= <-]. cbn [lookahead_parser lookahead_tree lookahead_node lookahead_state].
  split; [|repeat split].
  unfold parser__get_cached_token in *. cbn [token_cache set_trees trees] in *.
  destruct (cache_token (token_cache self1)) as [token|]; [|discriminate].
  rewrite external_token_state_eq_retain. exact Eg.
Qed.

(** *** The lex mode that [parser__lex] records *)

Lemma external_attempt_log (store : TreeStore) (external_token : option TreePtr)
    (lex_mode : TSLexMode) (valid : list bool) (error_mode : bool)
    (lexer : Lexer) (payload : Payload) (log : list LogEvent) (last_byte_scanned : Z) :
  exists more,
    attempt_log (lex_external_attempt store external_token lex_mode valid error_mode
                   lexer payload log last_byte_scanned) = log ++ more /\
    skip_unrecognized_character ∉ more.
Proof.
  unfold lex_external_attempt.
  destruct (scan language _ _ valid) as [[scanned payload2] lexer2].
  destruct scanned; [destruct (error_mode && _)|]; cbn [attempt_log];
    eexists; (split; [rewrite <- ?app_assoc; reflexivity|]);
    intros H; repeat (apply elem_of_cons in H; destruct H as [H|H]; [discriminate|]);
    apply elem_of_nil in H; exact H.
Qed.

(** In the loop of [parser__lex] the lex mode changes once at most, to
    that of the error state, which is logged; and characters are skipped
    in error mode only, which is logged as well. *)
Lemma lex_loop_mode (fuel : nat) :
  forall store start_position external_token lexer payload log lex_mode
         valid_external_tokens skipped_error error_mode first_error_character
         error_start_position error_end_position last_byte_scanned found,
    lex_loop fuel store start_position external_token lexer payload log lex_mode
      valid_external_tokens skipped_error error_mode first_error_character
      error_start_position error_end_position last_byte_scanned = Some found ->
    (error_mode = true -> lex_mode = lex_modes language ERROR_STATE) ->
    (skipped_error = true -> error_mode = true) ->
    exists more,
      lexed_log found = log ++ more /\
      (lexed_lex_mode found = lex_mode \/
       (retry_in_error_mode ∈ more /\
        lexed_lex_mode found = lex_modes language ERROR_STATE)) /\
      (lexed_skipped_error found = true ->
       lexed_lex_mode found = lex_modes language ERROR_STATE) /\
      (skipped_error = true -> lexed_skipped_error found = true) /\
      (skip_unrecognized_character ∈ more -> lexed_skipped_error found = true).
Proof.
  induction fuel as [|fuel IH];
    intros store start_position external_token lexer payload log lex_mode
           valid_external_tokens skipped_error error_mode first_error_character
           error_start_position error_end_position last_byte_scanned found
           Hrun Hmode Hskip; [discriminate|].
  cbn [lex_loop] in Hrun.
  set (attempt :=
         match valid_external_tokens with
         | Some valid =>
           lex_external_attempt store external_token lex_mode valid error_mode
                                lexer payload log last_byte_scanned
         | None => mkExternalAttempt false lexer payload log last_byte_scanned
         end) in *.
  assert (Hlog : exists more, attempt_log attempt = log ++ more /\
                              skip_unrecognized_character ∉ more).
  { subst attempt. destruct valid_external_tokens as [valid|].
    - apply external_attempt_log.
    - exists []. cbn. rewrite app_nil_r. split; [reflexivity|apply not_elem_of_nil]. }
  destruct Hlog as (more0 & Hlog & Hno).
  assert (Hno' : skip_unrecognized_character ∉ more0 ++ [lex_internal (lex_state lex_mode)]).
  { intros H. apply elem_of_app in H. destruct H as [H|H]; [exact (Hno H)|].
    apply list_elem_of_singleton in H. discriminate. }
  destruct (found_external_token attempt).
  { injection Hrun as <-. cbn [lexed_log lexed_lex_mode lexed_skipped_error].
    exists more0. split; [exact Hlog|]. split; [left; reflexivity|].
    split; [intros S; apply Hmode, Hskip, S|].
    split; [exact (fun S => S)|]. intros H. contradiction (Hno H). }
  destruct (lex_fn language (ts_lexer_start (attempt_lexer attempt)) (lex_state lex_mode))
    as [lexed lexer2].
  destruct lexed.
  { injection Hrun as <-. cbn [lexed_log lexed_lex_mode lexed_skipped_error].
    exists (more0 ++ [lex_internal (lex_state lex_mode)]).
    split; [rewrite Hlog, app_assoc; reflexivity|]. split; [left; reflexivity|].
    split; [intros S; apply Hmode, Hskip, S|].
    split; [exact (fun S => S)|]. intros H. contradiction (Hno' H). }
  destruct error_mode; cbn [negb] in Hrun.
  - (* in error mode: a character is skipped, or the input has ended *)
    pose proof (Hmode eq_refl) as Hm.
    set (log2 := if skipped_error
                 then attempt_log attempt ++ [lex_internal (lex_state lex_mode)]
                 else (attempt_log attempt ++ [lex_internal (lex_state lex_mode)])
                      ++ [skip_unrecognized_character]) in *.
    assert (Hlog2 : exists more, log2 = log ++ more).
    { subst log2. rewrite Hlog. destruct skipped_error; eexists;
        rewrite <- ?app_assoc; reflexivity. }
    destruct Hlog2 as (more2 & Hlog2).
    assert (Hrec : forall lexer' end',
      lex_loop fuel store start_position external_token lexer' (attempt_payload attempt)
        log2 lex_mode valid_external_tokens true true
        (if skipped_error then first_error_character else lookahead lexer2)
        (if skipped_error then error_start_position else token_start_position lexer2)
        end' (attempt_last_byte_scanned attempt) = Some found ->
      exists more,
        lexed_log found = log ++ more /\
        (lexed_lex_mode found = lex_mode \/
         (retry_in_error_mode ∈ more /\
          lexed_lex_mode found = lex_modes language ERROR_STATE)) /\
        (lexed_skipped_error found = true ->
         lexed_lex_mode found = lex_modes language ERROR_STATE) /\
        (skipped_error = true -> lexed_skipped_error found = true) /\
        (skip_unrecognized_character ∈ more -> lexed_skipped_error found = true)).
    { intros lexer' end' Hrun'.
      destruct (IH _ _ _ _ _ _ _ _ _ _ _ _ _ _ _ Hrun' (fun _ => Hm) (fun _ => eq_refl))
        as (more & L & M & S & K & _).
      exists (more2 ++ more). split; [rewrite L, Hlog2, app_assoc; reflexivity|].
      split; [|split; [exact S|split; intros _; exact (K eq_refl)]].
      destruct M as [M|[R M]]; [left; exact M|right].
      split; [|exact M]. apply elem_of_app. right. exact R. }
    destruct (bytes (current_position lexer2)
              =? bytes (if skipped_error then error_end_position
                        else token_start_position lexer2)).
    + destruct (lookahead lexer2 =? 0).
      * injection Hrun as <-. cbn [lexed_log lexed_lex_mode lexed_skipped_error].
        exists more2. split; [exact Hlog2|]. split; [left; reflexivity|].
        split; [intros _; exact Hm|]. split; reflexivity.
      * eapply Hrec. exact Hrun.
    + eapply Hrec. exact Hrun.
  - (* the retry in error mode *)
    assert (Hs : skipped_error = false)
      by (destruct skipped_error; [discriminate (Hskip eq_refl)|reflexivity]).
    subst skipped_error.
    destruct (IH _ _ _ _ _ _ _ _ _ _ _ _ _ _ _ Hrun (fun _ => eq_refl)
                (fun S : false = true => False_ind _ (diff_false_true S)))
      as (more & L & M & S & _ & K).
    exists (more0 ++ [lex_internal (lex_state lex_mode)] ++ [retry_in_error_mode] ++ more).
    split; [rewrite L, Hlog, <- !app_assoc; reflexivity|].
    split; [|split; [exact S|split; [discriminate|]]].
    + right. split; [|destruct M as [M|[_ M]]; exact M].
      apply elem_of_app. right. apply elem_of_app. right. apply elem_of_app. left.
      apply list_elem_of_singleton. reflexivity.
    + intros H. apply K.
      apply elem_of_app in H. destruct H as [H|H]; [contradiction (Hno H)|].
      apply elem_of_app in H. destruct H as [H|H];
        [apply list_elem_of_singleton in H; discriminate|].
      apply elem_of_app in H. destruct H as [H|H];
        [apply list_elem_of_singleton in H; discriminate|exact H].
Qed.


(** *** The trees of a slice that are not trailing extras *)

Lemma reduce_child_count_below (store : TreeStore) (slice : list TreePtr) :
  (forall p, p ∈ slice -> is_Some (store !! p)) ->
  forall count : nat,
    (count <= length slice)%nat ->
    exists n,
      reduce_child_count store slice count = Some n /\
      (n <= count)%nat /\
      (forall k, (n <= k < count)%nat -> is_extra_at store slice k = true) /\
      (forall m, n = S m -> is_extra_at store slice m = false).
Proof.
  intros Hstore. induction count as [|c IH]; intros Hc.
  - exists 0%nat. split; [reflexivity|]. split; [lia|]. split; [lia|discriminate].
  - cbn [reduce_child_count].
    destruct (lookup_lt_is_Some_2 slice c) as [p Ep]; [lia|].
    destruct (Hstore p) as [t Et]; [eapply list_elem_of_lookup_2; exact Ep|].
    rewrite Ep, Et.
    assert (Hat : is_extra_at store slice c = extra t)
      by (unfold is_extra_at; rewrite Ep, Et; reflexivity).
    destruct (extra t) eqn:Ex.
    + destruct IH as (n & E & Hn & Hextra & Hlast); [lia|].
      exists n. split; [exact E|]. split; [lia|]. split; [|exact Hlast].
      intros k Hk. destruct (decide (k = c)) as [->|N]; [exact Hat|apply Hextra; lia].
    + exists (S c). split; [reflexivity|]. split; [lia|]. split; [lia|].
      intros m [= <-]. exact Hat.
Qed.

(** X15 (parser__reduce, lines 641 to 644).  For a slice whose trees are
    in memory, the number of children that the function gives the parent
    leaves out exactly the extras at the end of the slice: every tree from
    that index on is extra, they are the trees pushed back on top of the
    parent, and the tree before it, the last child, if there is one, is
    not extra. *)
Theorem reduce_leaves_trailing_extras (store : TreeStore) (slice : list TreePtr) :
  (forall p, p ∈ slice -> is_Some (store !! p)) ->
  exists child_count,
    reduce_child_count store slice (length slice) = Some child_count /\
    (child_count <= length slice)%nat /\
    (forall k, (child_count <= k < length slice)%nat ->
               is_extra_at store slice k = true) /\
    (forall last, child_count = S last -> is_extra_at store slice last = false).
Proof.
  intros Hstore. apply reduce_child_count_below; [exact Hstore|lia].
Qed.

Lemma accept_root_index_below (store : TreeStore) (slice : list TreePtr) :
  (forall p, p ∈ slice -> is_Some (store !! p)) ->
  forall count : nat,
    (count <= length slice)%nat ->
    match accept_root_index store slice count with
    | Some j => (j < count)%nat /\ is_extra_at store slice j = false /\
                forall k, (j < k < count)%nat -> is_extra_at store slice k = true
    | None => forall k, (k < count)%nat -> is_extra_at store slice k = true
    end.
Proof.
  intros Hstore. induction count as [|c IH]; intros Hc.
  - cbn. intros k Hk. lia.
  - cbn [accept_root_index].
    destruct (lookup_lt_is_Some_2 slice c) as [p Ep]; [lia|].
    destruct (Hstore p) as [t Et]; [eapply list_elem_of_lookup_2; exact Ep|].
    rewrite Ep, Et.
    assert (Hat : is_extra_at store slice c = extra t)
      by (unfold is_extra_at; rewrite Ep, Et; reflexivity).
    destruct (extra t) eqn:Ex; cbn [negb].
    + specialize (IH ltac:(lia)).
      destruct (accept_root_index store slice c) as [j|].
      * destruct IH as (Hj & Hroot & Habove). split; [lia|]. split; [exact Hroot|].
        intros k Hk. destruct (decide (k = c)) as [->|N]; [exact Hat|apply Habove; lia].
      * intros k Hk. destruct (decide (k = c)) as [->|N]; [exact Hat|apply IH; lia].
    + split; [lia|]. split; [exact Hat|]. intros k Hk. lia.
Qed.

(** X16 (parser__accept, lines 736 to 756).  For a slice whose trees are
    in memory: the only tree of a slice of one becomes the root as it is,
    extra or not; in a slice of several trees the root is made of the
    last tree that is not extra, all the trees after it being extra; and
    when a slice has no tree, or several trees that are all extra, no
    root is made and the assertion fails. *)
Theorem accept_root_is_last_not_extra (store : TreeStore) (slice : list TreePtr) :
  (forall p, p ∈ slice -> is_Some (store !! p)) ->
  match accept_root_source store slice with
  | Some root =>
    slice = [root] \/
    exists j, slice !! j = Some root /\
              (1 < length slice)%nat /\
              is_extra_at store slice j = false /\
              forall k, (j < k < length slice)%nat -> is_extra_at store slice k = true
  | None =>
    length slice <> 1%nat /\
    forall k, (k < length slice)%nat -> is_extra_at store slice k = true
  end.
Proof.
  intros Hstore.
  pose proof (accept_root_index_below store slice Hstore (length slice) (le_n _)) as H.
  unfold accept_root_source.
  destruct slice as [|first [|second rest]].
  - cbn. split; [lia|]. intros k Hk. lia.
  - left. reflexivity.
  - set (slice := first :: second :: rest) in *.
    destruct (accept_root_index store slice (length slice)) as [j|].
    + destruct H as (Hj & Hroot & Habove).
      destruct (lookup_lt_is_Some_2 slice j Hj) as [root Er]. rewrite Er.
      right. exists j. split; [exact Er|]. split; [cbn; lia|]. split; assumption.
    + split; [cbn; lia|exact H].
Qed.

(** X19 (parser__lex, parser__can_reuse_first_leaf).  A token that the
    function has lexed without a retry in error mode carries the lex mode
    of the state it was lexed for, so that [parser__can_reuse_first_leaf]
    accepts it, whatever the table entry, in that state and in every
    state with the same lex mode. *)
Theorem token_reusable_where_lexed (fuel : nat) (self self' : Parser Payload)
    (version : StackVersion) (state : TSStateId) (token : TreePtr) :
  parser__lex fuel self version state = Some (self', token) ->
  exists t more,
    trees self' !! token = Some t /\
    log self' = log self ++ more /\
    (retry_in_error_mode ∉ more ->
     forall other_state table_entry,
       lex_modes language other_state = lex_modes language state ->
       parser__can_reuse_first_leaf other_state t table_entry = true).
Proof.
  unfold parser__lex. intros H.
  destruct (lex_loop _ _ _ _ _ _ _ _ _ _ _ _ _ _ _) as [found|] eqn:Eloop; [|discriminate].
  destruct (publish_tree _ _ _) as [[[pool store] p]|] eqn:Epub; [|discriminate].
  injection H as <- <-.
  unfold publish_tree in Epub.
  destruct (ts_tree_pool_allocate (tree_pool self)) as [pool' [q|]]; [|discriminate].
  injection Epub as <- <- <-.
  destruct (lex_loop_mode _ _ _ _ _ _ _ _ _ _ _ _ _ _ _ _ Eloop)
    as (more & L & M & _).
  { intros E. apply Z.eqb_eq in E. rewrite E. reflexivity. }
  { discriminate. }
  eexists. eexists. cbn [trees log].
  split; [apply lookup_insert_eq|].
  split; [rewrite L, <- app_assoc; reflexivity|].
  intros Hno other_state table_entry Hsame.
  destruct M as [M|[R _]].
  - unfold parser__can_reuse_first_leaf. cbn [lexed_tree first_leaf_lex_mode].
    rewrite M, Hsame, !Z.eqb_refl. reflexivity.
  - exfalso. apply Hno. apply elem_of_app. left. exact R.
Qed.

(** *** Lexing without external tokens *)

Lemma lex_loop_no_scan (fuel : nat) :
  ts_language_enabled_external_tokens language
    (external_lex_state (lex_modes language ERROR_STATE)) = None ->
  forall store start_position external_token lexer payload log lex_mode
         skipped_error error_mode first_error_character
         error_start_position error_end_position last_byte_scanned found,
    lex_loop fuel store start_position external_token lexer payload log lex_mode
      None skipped_error error_mode first_error_character
      error_start_position error_end_position last_byte_scanned = Some found ->
    lexed_payload found = payload /\
    lexed_found_external_token found = false /\
    exists more,
      lexed_log found = log ++ more /\
      Forall (fun e => forall s, e <> lex_external s) more.
Proof.
  intros Herror.
  induction fuel as [|fuel IH];
    intros store start_position external_token lexer payload log lex_mode
           skipped_error error_mode first_error_character
           error_start_position error_end_position last_byte_scanned found Hrun;
    [discriminate|].
  cbn [lex_loop found_external_token attempt_payload attempt_log attempt_lexer
       attempt_last_byte_scanned] in Hrun.
  assert (Hext : forall (log' : list LogEvent) (extra_events : list LogEvent),
            Forall (fun e => forall s, e <> lex_external s) extra_events ->
            (exists more, lexed_log found = log' ++ more /\
                          Forall (fun e => forall s, e <> lex_external s) more) ->
            log' = log ++ extra_events ->
            exists more, lexed_log found = log ++ more /\
                         Forall (fun e => forall s, e <> lex_external s) more).
  { intros log' extra_events Hextra (more & L & F) ->.
    exists (extra_events ++ more). split; [rewrite L, app_assoc; reflexivity|].
    apply Forall_app. split; assumption. }
  destruct (lex_fn language (ts_lexer_start lexer) (lex_state lex_mode)) as [lexed lexer2].
  destruct lexed.
  { injection Hrun as <-. cbn. split; [reflexivity|]. split; [reflexivity|].
    eexists. split; [reflexivity|]. repeat constructor. discriminate. }
  destruct error_mode; cbn [negb] in Hrun.
  - set (log2 := if skipped_error then log ++ [lex_internal (lex_state lex_mode)]
                 else (log ++ [lex_internal (lex_state lex_mode)])
                      ++ [skip_unrecognized_character]) in *.
    assert (Hlog2 : exists extra_events,
              log2 = log ++ extra_events /\
              Forall (fun e => forall s, e <> lex_external s) extra_events).
    { subst log2. destruct skipped_error; eexists;
        (split; [rewrite <- ?app_assoc; reflexivity|]);
        repeat constructor; discriminate. }
    destruct Hlog2 as (extra_events & Hlog2 & Hextra).
    destruct (bytes (current_position lexer2)
              =? bytes (if skipped_error then error_end_position
                        else token_start_position lexer2)).
    + destruct (lookahead lexer2 =? 0).
      * injection Hrun as <-. cbn. split; [reflexivity|]. split; [reflexivity|].
        exists extra_events. split; [exact Hlog2|exact Hextra].
      * destruct (IH _ _ _ _ _ _ _ _ _ _ _ _ _ _ Hrun) as (P & F & M).
        split; [exact P|]. split; [exact F|].
        exact (Hext log2 extra_events Hextra M Hlog2).
    + destruct (IH _ _ _ _ _ _ _ _ _ _ _ _ _ _ Hrun) as (P & F & M).
      split; [exact P|]. split; [exact F|].
      exact (Hext log2 extra_events Hextra M Hlog2).
  - rewrite Herror in Hrun.
    destruct (IH _ _ _ _ _ _ _ _ _ _ _ _ _ _ Hrun) as (P & F & M).
    split; [exact P|]. split; [exact F|].
    refine (Hext _ [lex_internal (lex_state lex_mode); retry_in_error_mode] _ M _).
    + repeat constructor; discriminate.
    + rewrite <- app_assoc. reflexivity.
Qed.

(** X20 (parser__lex).  When the language enables no external token in
    the lex mode of the parse state nor in that of the error state, the
    function does not call the external scanner: the scanner's state is
    as it was and the log shows no attempt at an external token. *)
Theorem lex_without_external_tokens (fuel : nat) (self self' : Parser Payload)
    (version : StackVersion) (state : TSStateId) (token : TreePtr) :
  ts_language_enabled_external_tokens language
    (external_lex_state (lex_modes language state)) = None ->
  ts_language_enabled_external_tokens language
    (external_lex_state (lex_modes language ERROR_STATE)) = None ->
  parser__lex fuel self version state = Some (self', token) ->
  external_scanner_payload self' = external_scanner_payload self /\
  exists more,
    log self' = log self ++ more /\
    Forall (fun e => forall s, e <> lex_external s) more.
Proof.
  intros Hstate Herror. unfold parser__lex. rewrite Hstate. intros H.
  destruct (lex_loop _ _ _ _ _ _ _ _ _ _ _ _ _ _ _) as [found|] eqn:Eloop; [|discriminate].
  destruct (publish_tree _ _ _) as [[[pool store] p]|]; [|discriminate].
  injection H as <- _.
  destruct (lex_loop_no_scan _ Herror _ _ _ _ _ _ _ _ _ _ _ _ _ _ Eloop)
    as (P & _ & more & L & F).
  cbn [external_scanner_payload log]. split; [exact P|].
  exists (more ++ [lexed_lookahead
                     (symbol (lexed_tree (ts_stack_top_position (stack self) version)
                                state found))
                     (bytes (size (lexed_tree (ts_stack_top_position (stack self) version)
                                     state found)))]).
  split; [rewrite L, app_assoc; reflexivity|].
  apply Forall_app. split; [exact F|]. repeat constructor. discriminate.
Qed.

(** *** The trees of the previous parse that are reused *)


(** *** What [parser__breakdown_top_of_stack] reports *)

Lemma breakdown_turns_did (fuel turns : nat) :
  forall (self self' : Parser Payload) (version : StackVersion) (did : bool),
    breakdown_turns fuel turns self version true = Some (self', did) -> did = true.
Proof.
  induction turns as [|turns IH]; intros self self' version did H; [discriminate|].
  cbn [breakdown_turns] in H.
  destruct (ts_stack_pop_pending (stack self) version) as [stack1 slices].
  destruct slices as [|slice slices].
  - injection H as _ <-. reflexivity.
  - destruct (breakdown_slices fuel (set_stack self stack1) false (slice :: slices))
      as [[self1 pending]|]; [|discriminate].
    destruct pending.
    + exact (IH _ _ _ _ H).
    + injection H as _ <-. reflexivity.
Qed.

(** X21 (parser__breakdown_top_of_stack).  The function answers false
    exactly when its first [ts_stack_pop_pending] returns no slice, and
    then it leaves the parser as that call left the stack: no tree is
    retained or released and nothing is logged. *)
Theorem breakdown_reports_whether_it_broke_down (fuel : nat) (self self' : Parser Payload)
    (version : StackVersion) (did_break_down : bool) :
  parser__breakdown_top_of_stack fuel self version = Some (self', did_break_down) ->
  (did_break_down = false <-> snd (ts_stack_pop_pending (stack self) version) = []) /\
  (did_break_down = false ->
   self' = set_stack self (fst (ts_stack_pop_pending (stack self) version))).
Proof.
  unfold parser__breakdown_top_of_stack. destruct fuel as [|turns]; [discriminate|].
  cbn [breakdown_turns].
  destruct (ts_stack_pop_pending (stack self) version) as [stack1 slices]. cbn [fst snd].
  destruct slices as [|slice slices].
  - intros [= <- <-]. split; [split; reflexivity|reflexivity].
  - destruct (breakdown_slices (S turns) (set_stack self stack1) false (slice :: slices))
      as [[self1 pending]|]; [|discriminate].
    assert (Hdid : Some (self', did_break_down) = Some (self', did_break_down) ->
                   did_break_down = true -> 
                   (did_break_down = false <-> slice :: slices = []) /\
                   (did_break_down = false -> self' = set_stack self stack1)).
    { intros _ ->. split; [split; discriminate|discriminate]. }
    destruct pending.
    + intros H. apply Hdid; [reflexivity|]. exact (breakdown_turns_did _ _ _ _ _ _ H).
    + intros [= <- <-]. apply Hdid; reflexivity.
Qed.

End WithLanguage.

End Driver.

(** ** The driver at work

    A small world to run the functions in: three bytes of input, a
    lexer that steps through them one byte at a time, a lex function that
    makes a token of symbol 5 of any byte, an external scanner that
    answers at once with an empty token, which the language maps to
    symbol 7, and a stack whose links are not recorded.  State 0 is the
    error state; in state 1 external tokens are valid, in state 2 they
    are not. *)

Module World.

Import Versions TreePool Driver.

(** The text: [abc]. *)
Definition input : list Z := [97; 98; 99].

(** The character at a position, 0 at the end of the text. *)
Definition char_at (position : Length) : Z :=
  default 0 (input !! Z.to_nat (bytes position)).

(** Modelled from the spec: [length_zero] ([length.h]). *)
Definition length_zero : Length := mkLength 0 0 0 0.

(** The position after a character of one byte that is not a newline. *)
Definition next_byte (position : Length) : Length :=
  mkLength (bytes position + 1) (chars position + 1) (extent_row position)
           (extent_column position + 1).

(** Modelled from the spec: [ts_lexer_reset] ([lexer.c]) moves the lexer to
    a position. *)
Definition ts_lexer_reset (self : Lexer) (position : Length) : Lexer :=
  mkLexer position position position (char_at position) (result_symbol self).

(** Modelled from the spec: [ts_lexer_start] ([lexer.c]) starts a token at
    the current position. *)
Definition ts_lexer_start (self : Lexer) : Lexer :=
  mkLexer (current_position self) (current_position self) (current_position self)
          (char_at (current_position self)) 0.

(** Modelled from the spec: the [advance] of [lexer.c] consumes the
    lookahead character; with [skip] the token starts after it. *)
Definition advance (self : Lexer) (skip : bool) : Lexer :=
  let position := next_byte (current_position self) in
  mkLexer position (if skip then position else token_start_position self)
          (token_end_position self) (char_at position) (result_symbol self).

(** Modelled from the spec: [length_has_unknown_chars] ([length.h]), for a
    length whose bytes are known and whose characters are not. *)
Definition length_has_unknown_chars (self : Length) : bool :=
  (0 <? bytes self) && (chars self =? 0).

(** Modelled from the spec: [length_sub] ([length.h]), for positions on
    one row. *)
Definition length_sub (a b : Length) : Length :=
  mkLength (wrap32 (bytes a - bytes b)) (wrap32 (chars a - chars b))
           (wrap32 (extent_row a - extent_row b))
           (wrap32 (extent_column a - extent_column b)).

(** Modelled from the spec: [ts_tree_make_leaf] ([tree.c]), for symbols
    that are all visible, named and not extra. *)
Definition ts_tree_make_leaf (sym : TSSymbol) (padding size : Length) : Tree :=
  mkTree sym 0 padding size [] 1 0 0 true true false false false false false
         sym (mkLexMode 0 0) 0 [].

(** Modelled from the spec: [ts_tree_make_error] ([tree.c]), a leaf of the
    error symbol. *)
Definition ts_tree_make_error (size padding : Length) (character : Z) : Tree :=
  mkTree 65535 0 padding size [] 1 0 1 true true false true true false false
         65535 (mkLexMode 0 0) 0 [].

(** The lex function of the language: any character is a token of symbol
    5; at the end of the text it fails. *)
Definition lex_one_byte (self : Lexer) (state : Z) : bool * Lexer :=
  if lookahead self =? 0 then (false, self)
  else
    let position := next_byte (current_position self) in
    (true, mkLexer position (token_start_position self) position (char_at position) 5).

(** The external scanner: it recognises token 0 and consumes nothing. *)
Definition scan_nothing (payload : unit) (self : Lexer) (valid : list bool)
    : bool * unit * Lexer :=
  (true, payload, set_result_symbol self 0).

(** The language: the lex modes, the two lexers, no reusable entry in the
    table, the symbol of the external token. *)
Definition language : TSLanguage unit :=
  mkLanguage unit
    (fun state => if state =? 1 then mkLexMode 1 1 else mkLexMode state 0)
    lex_one_byte
    (fun external => if external =? 0 then None else Some [true])
    (fun state sym => mkTableEntry [] false false)
    (fun state sym => state)
    scan_nothing
    (fun payload => [42])
    (fun payload data => payload)
    (fun sym => 7).

(** Modelled from the spec: [ts_tree_last_external_token] ([tree.c]), for
    leaves. *)
Definition ts_tree_last_external_token (store : TreeStore) (tree : TreePtr)
    : option TreePtr := Some tree.

(** Modelled from the spec: [ts_stack_pop_pending] ([stack.c]), for a
    stack with no pending link. *)
Definition ts_stack_pop_pending (self : Stack) (version : StackVersion)
    : Stack * list StackSlice := (self, []).

(** Modelled from the spec: [ts_stack_push] ([stack.c]) gives the version
    a new head node in the state pushed. *)
Definition ts_stack_push (self : Stack) (version : StackVersion)
    (tree : option TreePtr) (pending : bool) (state : TSStateId) : Stack :=
  alter (fun h => mkStackHead (S (head_node h)) state (head_error_cost h)
                    (head_push_count h + 1) (head_is_halted h) (head_position h)
                    (head_last_external_token h))
        (Z.to_nat version) self.

(** Modelled from the spec: [ts_stack_decrease_push_count] ([stack.c]);
    the push count plays no part in this world. *)
Definition ts_stack_decrease_push_count (self : Stack) (version : StackVersion)
    (count : Z) : Stack := self.

(** Modelled from the spec: [ts_stack_set_last_external_token]
    ([stack.c]). *)
Definition ts_stack_set_last_external_token (self : Stack) (version : StackVersion)
    (token : option TreePtr) : Stack :=
  alter (fun h => mkStackHead (head_node h) (head_state h) (head_error_cost h)
                    (head_push_count h) (head_is_halted h) (head_position h) token)
        (Z.to_nat version) self.

(** A version at byte 0 in the given state. *)
Definition a_version_in (state : TSStateId) : StackHead :=
  mkStackHead 0 state 0 0 false length_zero None.

(** The lexer at the start of the text. *)
Definition a_lexer : Lexer := mkLexer length_zero length_zero length_zero 97 0.

(** A leaf of one byte that was lexed in the lex mode [mode]. *)
Definition a_token (sym : TSSymbol) (mode : TSLexMode) (references : Z) : Tree :=
  mkTree sym 0 length_zero (mkLength 1 1 0 1) [] references 0 0
         true true false false false false false sym mode 1 [].

(** A parser with the given versions, pool, memory and cache. *)
Definition a_parser (versions : Stack) (pool : TreePool) (store : TreeStore)
    (cache : TokenCache) : Parser unit :=
  mkParser a_lexer versions pool store None false cache tt [].

(** The functions of the driver in this world. *)
Definition run_lex :=
  parser__lex language 0 65535 ts_lexer_reset ts_lexer_start advance
    length_has_unknown_chars length_sub ts_tree_make_leaf ts_tree_make_error.

Definition run_get_lookahead :=
  parser__get_lookahead language 0 65535 ts_lexer_reset ts_lexer_start advance
    length_has_unknown_chars length_sub ts_tree_make_leaf ts_tree_make_error
    ts_tree_last_external_token ts_stack_pop_pending ts_stack_push
    ts_stack_decrease_push_count.

Definition run_shift :=
  @parser__shift unit ts_tree_last_external_token ts_stack_push
    ts_stack_set_last_external_token.

(** **** Lexing in state 1 *)

Definition parser_in_state_1 : Parser unit :=
  a_parser [a_version_in 1] ts_tree_pool_init ∅ (mkTokenCache None None 0).

Definition lexed_token (r : option (Parser unit * TreePtr)) : option Tree :=
  match r with
  | Some (self, token) => trees self !! token
  | None => None
  end.

(** A second language, whose error state enables the external scanner
    and whose lex function recognises nothing.  The scanner makes token 0
    of a [b], one byte long, and an empty token 0 anywhere else. *)
Definition scan_the_b (payload : unit) (self : Lexer) (valid : list bool)
    : bool * unit * Lexer :=
  if lookahead self =? 98 then
    let position := next_byte (current_position self) in
    (true, payload,
     mkLexer position (token_start_position self) position (char_at position) 0)
  else (true, payload, set_result_symbol self 0).

Definition language_of_b : TSLanguage unit :=
  mkLanguage unit
    (fun state => mkLexMode 0 1)
    (fun self state => (false, self))
    (fun external => if external =? 0 then None else Some [true])
    (fun state sym => mkTableEntry [] false false)
    (fun state sym => state)
    scan_the_b
    (fun payload => [42])
    (fun payload data => payload)
    (fun sym => 7).

Definition run_lex_of_b :=
  parser__lex language_of_b 0 65535 ts_lexer_reset ts_lexer_start advance
    length_has_unknown_chars length_sub ts_tree_make_leaf ts_tree_make_error.

(** A parser in the error state at byte 0. *)
Definition parser_in_error_state : Parser unit :=
  a_parser [a_version_in 0] ts_tree_pool_init ∅ (mkTokenCache None None 0).

(** The lexer of [parser_in_error_state] at its second turn, after the
    [a] has been skipped. *)
Definition lexer_after_a : Lexer := advance (ts_lexer_start a_lexer) false.

(** In state 1 of the first language, outside error mode, the empty token
    of the scanner ends the loop at the first turn and is returned as an
    external token.  In the error state of the second language the empty
    token at the [a] is disregarded, the [a] is skipped, and the token of
    the [b] ends the loop at the second turn: what is returned is the
    error leaf of one byte. *)
Lemma lex_external_commit_witness :
  (exists self' t,
     run_lex 1 parser_in_state_1 0 1 = Some (self', (0%nat, 0)) /\
     trees self' = <[(0%nat, 0) := t]> ∅ /\
     tree_pool self' = mkTreePool [mkSlab 1 0] 0 /\
     lexer self' = set_result_symbol (ts_lexer_start a_lexer) 0 /\
     external_scanner_payload self' = tt /\
     log self' = [lex_external 1; lexed_lookahead (symbol t) (bytes (size t))] /\
     symbol t = 7 /\ padding t = length_zero /\ size t = length_zero /\
     has_external_tokens t = true /\
     external_token_state t = [42]) /\
  found_external_token
    (lex_external_attempt language_of_b ts_lexer_reset ts_lexer_start
       length_has_unknown_chars ∅ None (mkLexMode 0 1) [true] true
       (ts_lexer_reset a_lexer length_zero) tt [] 0) = false /\
  (exists self' t,
     run_lex_of_b 2 parser_in_error_state 0 0 = Some (self', (0%nat, 0)) /\
     trees self' = <[(0%nat, 0) := t]> ∅ /\
     tree_pool self' = mkTreePool [mkSlab 1 0] 0 /\
     lexer self' = mkLexer (mkLength 2 2 0 2) (mkLength 1 1 0 1) (mkLength 2 2 0 2) 99 0 /\
     external_scanner_payload self' = tt /\
     log self'
     = [lex_external 1; disregard_empty_token; lex_internal 0;
        skip_unrecognized_character; lex_external 1;
        lexed_lookahead (symbol t) (bytes (size t))] /\
     symbol t = 65535 /\ padding t = length_zero /\ size t = mkLength 1 1 0 1 /\
     has_external_tokens t = false /\
     external_token_state t = []).
Proof.
  split; [|split].
  - exact (proj2 (proj2 (proj2
             (lex_external_commit language 0 65535 ts_lexer_reset ts_lexer_start advance
                length_has_unknown_chars length_sub ts_tree_make_leaf ts_tree_make_error
                0 0 parser_in_state_1 0 1 (mkLexMode 1 1) [true] false false
                (ts_lexer_reset a_lexer length_zero) tt [] 0 length_zero length_zero 0
                tt (set_result_symbol (ts_lexer_start a_lexer) 0)
                eq_refl eq_refl)))
             eq_refl (mkTreePool [mkSlab 1 0] 0) (0%nat, 0) eq_refl).
  - exact (proj1 (proj2
             (lex_external_commit language_of_b 0 65535 ts_lexer_reset ts_lexer_start
                advance length_has_unknown_chars length_sub ts_tree_make_leaf
                ts_tree_make_error
                0 1 parser_in_error_state 0 0 (mkLexMode 0 1) [true] false true
                (ts_lexer_reset a_lexer length_zero) tt [] 0 length_zero length_zero 0
                tt (set_result_symbol (ts_lexer_start a_lexer) 0)
                eq_refl eq_refl))
             eq_refl).
  - exact (proj2 (proj2 (proj2
             (lex_external_commit language_of_b 0 65535 ts_lexer_reset ts_lexer_start
                advance length_has_unknown_chars length_sub ts_tree_make_leaf
                ts_tree_make_error
                1 0 parser_in_error_state 0 0 (mkLexMode 0 1) [true] true true
                lexer_after_a tt
                [lex_external 1; disregard_empty_token; lex_internal 0;
                 skip_unrecognized_character]
                97 length_zero (mkLength 1 1 0 1) 0
                tt (mkLexer (mkLength 2 2 0 2) (mkLength 1 1 0 1) (mkLength 2 2 0 2) 99 0)
                eq_refl eq_refl)))
             eq_refl (mkTreePool [mkSlab 1 0] 0) (0%nat, 0) eq_refl).
Defined.

(** C3, as it is stated, fails.  State 1 is not the error state and
    enables external tokens; the scanner answers true and consumes
    nothing.  [parser__lex] returns that empty token as an external
    token, symbol 7, after the one attempt that the log shows, and the
    lexer has not moved. *)
Lemma lex_external_commit_counterexample :
  (1 =? 0) = false /\
  lexed_token (run_lex 1 parser_in_state_1 0 1)
    = Some (mkTree 7 1 length_zero length_zero [] 1 0 0 true true false false false
                   false true 7 (mkLexMode 1 1) 1 [42]) /\
  option_map (fun r => log (fst r)) (run_lex 1 parser_in_state_1 0 1)
    = Some [lex_external 1; lexed_lookahead 7 0] /\
  option_map (fun r => current_position (lexer (fst r))) (run_lex 1 parser_in_state_1 0 1)
    = Some (current_position (lexer parser_in_state_1)).
Proof. vm_compute. repeat split. Qed.

(** **** A previous tree that the language does not let reuse

    The previous tree is a node of symbol 10 over two leaves of one byte,
    lexed in the lex mode of state 3; the parser is in state 2, where the
    table marks nothing reusable. *)

Definition previous_root : Tree :=
  mkTree 10 0 length_zero (mkLength 2 2 0 2) [(0%nat, 1); (0%nat, 2)] 1 0 0
         true true false false false false false 3 (mkLexMode 3 0) 2 [].

Definition previous_trees : TreeStore :=
  <[(0%nat, 0) := previous_root]>
    (<[(0%nat, 1) := a_token 3 (mkLexMode 3 0) 1]>
       (<[(0%nat, 2) := a_token 4 (mkLexMode 3 0) 1]> ∅)).

Definition parser_after_edit : Parser unit :=
  a_parser [a_version_in 2] (mkTreePool [mkSlab 7 0] 0) previous_trees
           (mkTokenCache None None 0).

Definition at_previous_root : ReusableNode := reusable_node_new (Some (0%nat, 0)).

Definition run_reuse_loop :=
  reuse_loop language 0 65535 ts_tree_last_external_token ts_stack_pop_pending
    ts_stack_push ts_stack_decrease_push_count.

(** The same previous tree after an edit that touched its root and its
    first leaf. *)
Definition with_changes (t : Tree) : Tree :=
  mkTree (symbol t) (parse_state t) (padding t) (size t) (children t) (ref_count t)
         (dynamic_precedence t) (error_cost t) (visible t) (named t) (extra t)
         (fragile_left t) (fragile_right t) true (has_external_tokens t)
         (first_leaf_symbol t) (first_leaf_lex_mode t) (bytes_scanned t)
         (external_token_state t).

Definition edited_trees : TreeStore :=
  <[(0%nat, 0) := with_changes previous_root]>
    (<[(0%nat, 1) := with_changes (a_token 3 (mkLexMode 3 0) 1)]>
       (<[(0%nat, 2) := a_token 4 (mkLexMode 3 0) 1]> ∅)).

Definition parser_on_edited_tree : Parser unit :=
  a_parser [a_version_in 2] (mkTreePool [mkSlab 7 0] 0) edited_trees
           (mkTokenCache None None 0).

Definition at_first_leaf : ReusableNode :=
  mkReusableNode (Some (0%nat, 1)) [(0%nat, 2)] 0 None.

Definition run_lookahead_without_reuse :=
  lookahead_without_reuse language 0 65535 ts_lexer_reset ts_lexer_start advance
    length_has_unknown_chars length_sub ts_tree_make_leaf ts_tree_make_error.

Lemma reuse_loop_rejection_witness :
  run_reuse_loop 5 2 parser_on_edited_tree 0 length_zero None 2 at_previous_root
  = run_reuse_loop 5 1
      (add_log parser_on_edited_tree (cant_reuse_node_because reason_has_changes 10))
      0 length_zero None 2 at_first_leaf /\
  run_reuse_loop 5 2 parser_on_edited_tree 0 length_zero None 2 at_first_leaf
  = run_reuse_loop 5 1
      (add_log parser_on_edited_tree (cant_reuse_node_because reason_has_changes 3))
      0 length_zero None 2 (mkReusableNode (Some (0%nat, 2)) [] 1 None) /\
  run_reuse_loop 5 1 parser_after_edit 0 length_zero None 2 at_previous_root
  = Some (reuse_none (add_log parser_after_edit (cant_reuse_node 10 3))
            (reusable_node_pop_leaf ts_tree_last_external_token previous_trees
               at_previous_root) 2) /\
  run_get_lookahead 5 parser_after_edit 0 2 at_previous_root
  = run_lookahead_without_reuse 5 (add_log parser_after_edit (cant_reuse_node 10 3))
      0 length_zero None 2
      (reusable_node_pop_leaf ts_tree_last_external_token previous_trees
         at_previous_root).
Proof.
  split; [|split; [|split]].
  - exact (proj1 (reuse_loop_rejection language 0 65535 ts_lexer_reset ts_lexer_start
                    advance length_has_unknown_chars length_sub ts_tree_make_leaf
                    ts_tree_make_error ts_tree_last_external_token
                    ts_stack_pop_pending ts_stack_push ts_stack_decrease_push_count
                    5 1 parser_on_edited_tree 0 length_zero None 2 at_previous_root
                    (0%nat, 0) (with_changes previous_root)
                    eq_refl eq_refl eq_refl eq_refl)
                 reason_has_changes (0%nat, 1) [(0%nat, 2)] eq_refl eq_refl).
  - exact (proj1 (proj2
             (reuse_loop_rejection language 0 65535 ts_lexer_reset ts_lexer_start
                advance length_has_unknown_chars length_sub ts_tree_make_leaf
                ts_tree_make_error ts_tree_last_external_token
                ts_stack_pop_pending ts_stack_push ts_stack_decrease_push_count
                5 1 parser_on_edited_tree 0 length_zero None 2 at_first_leaf
                (0%nat, 1) (with_changes (a_token 3 (mkLexMode 3 0) 1))
                eq_refl eq_refl eq_refl eq_refl))
             reason_has_changes eq_refl eq_refl).
  - exact (proj1 (proj2 (proj2
             (reuse_loop_rejection language 0 65535 ts_lexer_reset ts_lexer_start
                advance length_has_unknown_chars length_sub ts_tree_make_leaf
                ts_tree_make_error ts_tree_last_external_token
                ts_stack_pop_pending ts_stack_push ts_stack_decrease_push_count
                5 0 parser_after_edit 0 length_zero None 2 at_previous_root
                (0%nat, 0) previous_root eq_refl eq_refl eq_refl eq_refl))
             eq_refl eq_refl)).
  - exact (proj2 (proj2 (proj2
             (reuse_loop_rejection language 0 65535 ts_lexer_reset ts_lexer_start
                advance length_has_unknown_chars length_sub ts_tree_make_leaf
                ts_tree_make_error ts_tree_last_external_token
                ts_stack_pop_pending ts_stack_push ts_stack_decrease_push_count
                5 4 parser_after_edit 0 length_zero None 2 at_previous_root
                (0%nat, 0) previous_root eq_refl eq_refl eq_refl eq_refl))
             eq_refl eq_refl)
             eq_refl eq_refl eq_refl).
Defined.

(** C4, as it is stated, fails.  The cursor is on the previous root, at
    the position of the version; none of the four reasons applies to the
    root and [parser__can_reuse_first_leaf] rejects it.  Descending one
    level would put the cursor on the first leaf, slot 1, at byte 0.  The
    function instead moves the cursor past that leaf, to slot 2 at byte 1,
    tries nothing more of the previous tree and lexes: the lookahead is a
    new token, in slot 3. *)
Lemma reuse_loop_rejection_counterexample :
  reject_reason 65535 parser_after_edit previous_root = None /\
  parser__can_reuse_first_leaf language 2 previous_root
    (ts_language_table_entry language 2 (first_leaf_symbol previous_root)) = false /\
  reusable_node_breakdown previous_trees at_previous_root
    = (mkReusableNode (Some (0%nat, 1)) [(0%nat, 2)] 0 None, true) /\
  option_map lookahead_node
    (run_get_lookahead 5 parser_after_edit 0 2 at_previous_root)
    = Some (mkReusableNode (Some (0%nat, 2)) [] 1 None) /\
  option_map (fun found => log (lookahead_parser found))
    (run_get_lookahead 5 parser_after_edit 0 2 at_previous_root)
    = Some [cant_reuse_node 10 3; lex_internal 2; lexed_lookahead 5 1] /\
  option_map lookahead_tree
    (run_get_lookahead 5 parser_after_edit 0 2 at_previous_root)
    = Some (0%nat, 3).
Proof. vm_compute. repeat split. Qed.

(** **** A cached token *)

(** A parser in state 2 at byte 0 whose cache holds, for byte 0 and no
    external token, a token lexed in the lex mode [mode]; the token is in
    slot 0 and the cache has the only reference to it. *)
Definition parser_with_cache (mode : TSLexMode) : Parser unit :=
  a_parser [a_version_in 2] (mkTreePool [mkSlab 1 0] 0)
           (<[(0%nat, 0) := a_token 5 mode 1]> ∅)
           (mkTokenCache (Some (0%nat, 0)) None 0).

Definition no_previous_tree : ReusableNode := reusable_node_new None.

Lemma cached_token_returned_witness :
  (exists found,
     run_get_lookahead 5 (parser_with_cache (mkLexMode 2 0)) 0 2 no_previous_tree
       = Some found /\
     lookahead_tree found = (0%nat, 0) /\
     trees (lookahead_parser found) !! (0%nat, 0)
       = Some (with_ref_count (a_token 5 (mkLexMode 2 0) 1) (1 + 1)) /\
     (forall other, other <> (0%nat, 0) ->
        trees (lookahead_parser found) !! other
        = trees (parser_with_cache (mkLexMode 2 0)) !! other) /\
     lexer (lookahead_parser found) = lexer (parser_with_cache (mkLexMode 2 0)) /\
     external_scanner_payload (lookahead_parser found) = tt /\
     tree_pool (lookahead_parser found) = tree_pool (parser_with_cache (mkLexMode 2 0)) /\
     token_cache (lookahead_parser found)
       = token_cache (parser_with_cache (mkLexMode 2 0)) /\
     log (lookahead_parser found) = [] /\
     lookahead_node found = no_previous_tree /\
     lookahead_state found = 2) /\
  run_get_lookahead 5 (parser_with_cache (mkLexMode 3 0)) 0 2 no_previous_tree
  = match run_lex 5 (parser_with_cache (mkLexMode 3 0)) 0 2 with
    | None => None
    | Some (self2, result) =>
      match parser__set_cached_token 5 self2 0 None (Some result) with
      | None => None
      | Some self3 =>
        match trees self3 !! result with
        | None => None
        | Some made =>
          Some (mkLookahead self3 no_previous_tree 2 result
                  (ts_language_table_entry language 2 (symbol made)))
        end
      end
    end.
Proof.
  split.
  - apply (proj1 (cached_token_returned language 0 65535 ts_lexer_reset ts_lexer_start
                    advance length_has_unknown_chars length_sub ts_tree_make_leaf
                    ts_tree_make_error
                    ts_tree_last_external_token ts_stack_pop_pending ts_stack_push
                    ts_stack_decrease_push_count
                    5 (parser_with_cache (mkLexMode 2 0)) 0 2 no_previous_tree
                    (parser_with_cache (mkLexMode 2 0)) no_previous_tree 2
                    (0%nat, 0) (a_token 5 (mkLexMode 2 0) 1)
                    eq_refl eq_refl eq_refl eq_refl eq_refl)).
    + split; [discriminate | reflexivity].
    + reflexivity.
  - exact (proj2 (cached_token_returned language 0 65535 ts_lexer_reset ts_lexer_start
                    advance length_has_unknown_chars length_sub ts_tree_make_leaf
                    ts_tree_make_error
                    ts_tree_last_external_token ts_stack_pop_pending ts_stack_push
                    ts_stack_decrease_push_count
                    5 (parser_with_cache (mkLexMode 3 0)) 0 2 no_previous_tree
                    (parser_with_cache (mkLexMode 3 0)) no_previous_tree 2
                    (0%nat, 0) (a_token 5 (mkLexMode 3 0) 1)
                    eq_refl eq_refl eq_refl eq_refl eq_refl)
                 eq_refl).
Defined.

(** C8, as it is stated, fails.  The cursor has no tree, the cache holds
    a token for the position, byte 0, and for the version's last external
    token, none; but the token was lexed in the lex mode of state 3 and
    the table of state 2 does not mark it reusable.  The function runs
    the lexer and returns the token it makes, in slot 1. *)
Lemma cached_token_returned_counterexample :
  node_tree no_previous_tree = None /\
  cache_token (token_cache (parser_with_cache (mkLexMode 3 0))) = Some (0%nat, 0) /\
  cache_byte_index (token_cache (parser_with_cache (mkLexMode 3 0)))
    = bytes (ts_stack_top_position (stack (parser_with_cache (mkLexMode 3 0))) 0) /\
  ts_tree_external_token_state_eq (trees (parser_with_cache (mkLexMode 3 0)))
    (cache_last_external_token (token_cache (parser_with_cache (mkLexMode 3 0))))
    (ts_stack_last_external_token (stack (parser_with_cache (mkLexMode 3 0))) 0) = true /\
  option_map lookahead_tree
    (run_get_lookahead 5 (parser_with_cache (mkLexMode 3 0)) 0 2 no_previous_tree)
    = Some (0%nat, 1) /\
  option_map (fun found => log (lookahead_parser found))
    (run_get_lookahead 5 (parser_with_cache (mkLexMode 3 0)) 0 2 no_previous_tree)
    = Some [lex_internal 2; lexed_lookahead 5 1].
Proof. vm_compute. repeat split. Qed.

(** **** Shifting a token that the cache also holds *)

(** The token of slot 0 has two references, the cache's and the
    caller's; it is not extra. *)
Definition parser_sharing_token (versions : Stack) : Parser unit :=
  a_parser versions (mkTreePool [mkSlab 1 0] 0)
           (<[(0%nat, 0) := a_token 5 (mkLexMode 2 0) 2]> ∅)
           (mkTokenCache (Some (0%nat, 0)) None 0).

Lemma shift_copies_by_version_count_witness :
  (exists self',
     run_shift 1 (parser_sharing_token [a_version_in 2; a_version_in 2]) 0 2 (0%nat, 0) true
       = Some self' /\
     trees self' !! (0%nat, 0) = Some (a_token 5 (mkLexMode 2 0) 2) /\
     trees self' !! (0%nat, 1)
       = Some (with_extra (with_ref_count (a_token 5 (mkLexMode 2 0) 2) 1) true) /\
     tree_pool self' = mkTreePool [mkSlab 3 0] 0 /\
     stack self'
     = ts_stack_push [a_version_in 2; a_version_in 2] 0 (Some (0%nat, 1)) false 2) /\
  (exists self',
     run_shift 1 (parser_sharing_token [a_version_in 2]) 0 2 (0%nat, 0) true = Some self' /\
     trees self' !! (0%nat, 0)
       = Some (with_extra (with_ref_count (a_token 5 (mkLexMode 2 0) 2) (2 + 1)) true) /\
     (forall other, other <> (0%nat, 0) ->
        trees self' !! other = trees (parser_sharing_token [a_version_in 2]) !! other) /\
     tree_pool self' = tree_pool (parser_sharing_token [a_version_in 2]) /\
     stack self' = ts_stack_push [a_version_in 2] 0 (Some (0%nat, 0)) false 2).
Proof.
  split.
  - refine (proj1 (shift_copies_by_version_count ts_tree_last_external_token ts_stack_push
                     ts_stack_set_last_external_token 0
                     (parser_sharing_token [a_version_in 2; a_version_in 2]) 0 2 (0%nat, 0)
                     (a_token 5 (mkLexMode 2 0) 2) true _ _ _ _)
                  _ (mkTreePool [mkSlab 3 0] 0) (0%nat, 1) _ _).
    + reflexivity.
    + discriminate.
    + apply not_elem_of_nil.
    + split; reflexivity.
    + reflexivity.
    + reflexivity.
    + reflexivity.
  - refine (proj2 (shift_copies_by_version_count ts_tree_last_external_token ts_stack_push
                     ts_stack_set_last_external_token 0
                     (parser_sharing_token [a_version_in 2]) 0 2 (0%nat, 0)
                     (a_token 5 (mkLexMode 2 0) 2) true _ _ _ _) _).
    + reflexivity.
    + discriminate.
    + apply not_elem_of_nil.
    + split; reflexivity.
    + discriminate.
Defined.

(** C9, as it is stated, fails.  The stack has one version; the
    lookahead, in slot 0, has two references and is not extra.  Shifting
    it as an extra token takes no slot of the pool: the tree that had two
    references is the tree that now has the flag. *)
Lemma shift_copies_by_version_count_counterexample :
  ts_stack_version_count (stack (parser_sharing_token [a_version_in 2])) = 1 /\
  trees (parser_sharing_token [a_version_in 2]) !! (0%nat, 0)
    = Some (a_token 5 (mkLexMode 2 0) 2) /\
  ref_count (a_token 5 (mkLexMode 2 0) 2) = 2 /\
  extra (a_token 5 (mkLexMode 2 0) 2) = false /\
  match run_shift 1 (parser_sharing_token [a_version_in 2]) 0 2 (0%nat, 0) true with
  | Some self' =>
    trees self' !! (0%nat, 0)
      = Some (with_extra (with_ref_count (a_token 5 (mkLexMode 2 0) 2) 3) true) /\
    tree_pool self' = tree_pool (parser_sharing_token [a_version_in 2]) /\
    dom (trees self') = dom (trees (parser_sharing_token [a_version_in 2]))
  | None => False
  end.
Proof. vm_compute. repeat split. Qed.

(** **** The cache and the lexer at work *)

Lemma cached_token_round_trip_witness :
  exists self',
    parser__set_cached_token 5 (parser_with_cache (mkLexMode 2 0)) 3 None (Some (0%nat, 0))
      = Some self' /\
    parser__get_cached_token self' 3 None = Some (0%nat, 0) /\
    (forall other_index other_external_token,
       other_index <> 3 ->
       parser__get_cached_token self' other_index other_external_token = None) /\
    stack self' = stack (parser_with_cache (mkLexMode 2 0)) /\
    lexer self' = lexer (parser_with_cache (mkLexMode 2 0)).
Proof.
  eexists. split; [vm_compute; reflexivity|].
  apply (cached_token_round_trip 5 (parser_with_cache (mkLexMode 2 0))).
  vm_compute. reflexivity.
Defined.

Lemma lookahead_is_cached_witness :
  exists found,
    run_get_lookahead 5 (parser_with_cache (mkLexMode 3 0)) 0 2 no_previous_tree
      = Some found /\
    parser__get_cached_token (lookahead_parser found) 0 None
      = Some (lookahead_tree found) /\
    lookahead_node found = no_previous_tree /\
    lookahead_state found = 2 /\
    stack (lookahead_parser found) = stack (parser_with_cache (mkLexMode 3 0)).
Proof.
  eexists. split; [vm_compute; reflexivity|].
  apply (lookahead_is_cached language 0 65535 ts_lexer_reset ts_lexer_start advance
           length_has_unknown_chars length_sub ts_tree_make_leaf ts_tree_make_error
           ts_tree_last_external_token ts_stack_pop_pending ts_stack_push
           ts_stack_decrease_push_count
           5 (parser_with_cache (mkLexMode 3 0)) 0 2 no_previous_tree
           (parser_with_cache (mkLexMode 3 0)) no_previous_tree 2).
  - reflexivity.
  - vm_compute. reflexivity.
Defined.



(** **** Slices with extras

    Four trees in memory: the node of the previous tree, its two leaves,
    and a comment, which is extra. *)
Definition a_comment : Tree :=
  mkTree 9 0 length_zero (mkLength 1 1 0 1) [] 1 0 0
         true true true false false false false 9 (mkLexMode 3 0) 1 [].

Definition trees_with_comment : TreeStore := <[(0%nat, 3) := a_comment]> previous_trees.

Lemma reduce_leaves_trailing_extras_witness :
  exists child_count,
    reduce_child_count trees_with_comment [(0%nat, 1); (0%nat, 3); (0%nat, 2); (0%nat, 3)] 4
      = Some child_count /\
    (child_count <= 4)%nat /\
    (forall k, (child_count <= k < 4)%nat ->
       is_extra_at trees_with_comment [(0%nat, 1); (0%nat, 3); (0%nat, 2); (0%nat, 3)] k
       = true) /\
    (forall last, child_count = S last ->
       is_extra_at trees_with_comment [(0%nat, 1); (0%nat, 3); (0%nat, 2); (0%nat, 3)] last
       = false).
Proof.
  apply (reduce_leaves_trailing_extras trees_with_comment
           [(0%nat, 1); (0%nat, 3); (0%nat, 2); (0%nat, 3)]).
  intros p Hp.
  repeat (apply elem_of_cons in Hp; destruct Hp as [->|Hp]; [eexists; reflexivity|]).
  apply elem_of_nil in Hp. contradiction.
Defined.

Lemma accept_root_is_last_not_extra_witness :
  match accept_root_source trees_with_comment [(0%nat, 3); (0%nat, 0); (0%nat, 3)] with
  | Some root =>
    [(0%nat, 3); (0%nat, 0); (0%nat, 3)] = [root] \/
    exists j, [(0%nat, 3); (0%nat, 0); (0%nat, 3)] !! j = Some root /\
              (1 < 3)%nat /\
              is_extra_at trees_with_comment [(0%nat, 3); (0%nat, 0); (0%nat, 3)] j = false /\
              forall k, (j < k < 3)%nat ->
                is_extra_at trees_with_comment [(0%nat, 3); (0%nat, 0); (0%nat, 3)] k = true
  | None =>
    3%nat <> 1%nat /\
    forall k, (k < 3)%nat ->
      is_extra_at trees_with_comment [(0%nat, 3); (0%nat, 0); (0%nat, 3)] k = true
  end.
Proof.
  apply (accept_root_is_last_not_extra trees_with_comment
           [(0%nat, 3); (0%nat, 0); (0%nat, 3)]).
  intros p Hp.
  repeat (apply elem_of_cons in Hp; destruct Hp as [->|Hp]; [eexists; reflexivity|]).
  apply elem_of_nil in Hp. contradiction.
Defined.

(** **** Lexing in state 2, where no external token is valid *)

Definition parser_in_state_2 : Parser unit :=
  a_parser [a_version_in 2] ts_tree_pool_init ∅ (mkTokenCache None None 0).

Lemma token_reusable_where_lexed_witness :
  exists self' token,
    run_lex 5 parser_in_state_2 0 2 = Some (self', token) /\
    exists t more,
      trees self' !! token = Some t /\
      log self' = log parser_in_state_2 ++ more /\
      (retry_in_error_mode ∉ more ->
       forall other_state table_entry,
         lex_modes language other_state = lex_modes language 2 ->
         parser__can_reuse_first_leaf language other_state t table_entry = true).
Proof.
  eexists. eexists. split; [vm_compute; reflexivity|].
  apply (token_reusable_where_lexed language 0 65535 ts_lexer_reset ts_lexer_start advance
           length_has_unknown_chars length_sub ts_tree_make_leaf ts_tree_make_error
           5 parser_in_state_2 _ 0 2 _).
  vm_compute. reflexivity.
Defined.

Lemma lex_without_external_tokens_witness :
  exists self' token,
    run_lex 5 parser_in_state_2 0 2 = Some (self', token) /\
    external_scanner_payload self' = external_scanner_payload parser_in_state_2 /\
    exists more,
      log self' = log parser_in_state_2 ++ more /\
      Forall (fun e => forall s, e <> lex_external s) more.
Proof.
  eexists. eexists. split; [vm_compute; reflexivity|].
  apply (lex_without_external_tokens language 0 65535 ts_lexer_reset ts_lexer_start
           advance length_has_unknown_chars length_sub ts_tree_make_leaf
           ts_tree_make_error 5 parser_in_state_2 _ 0 2 (0%nat, 0)).
  - reflexivity.
  - reflexivity.
  - vm_compute. reflexivity.
Defined.

(** **** Reusing the previous tree in state 3, whose lex mode its leaves
    were lexed in *)

Definition parser_in_state_3 : Parser unit :=
  a_parser [a_version_in 3] (mkTreePool [mkSlab 7 0] 0) previous_trees
           (mkTokenCache None None 0).


(** **** Breaking down a stack with nothing pending *)

Definition run_breakdown_top_of_stack :=
  parser__breakdown_top_of_stack language 0 65535 ts_stack_pop_pending ts_stack_push
    ts_stack_decrease_push_count.

Lemma breakdown_reports_whether_it_broke_down_witness :
  run_breakdown_top_of_stack 5 parser_in_state_3 0 = Some (parser_in_state_3, false) /\
  (false = false <-> snd (ts_stack_pop_pending (stack parser_in_state_3) 0) = []) /\
  (false = false ->
   parser_in_state_3
   = set_stack parser_in_state_3 (fst (ts_stack_pop_pending (stack parser_in_state_3) 0))).
Proof.
  split; [reflexivity|].
  apply (breakdown_reports_whether_it_broke_down language 0 65535 ts_stack_pop_pending
           ts_stack_push ts_stack_decrease_push_count 5 parser_in_state_3
           parser_in_state_3 0 false).
  reflexivity.
Defined.

End World.
